(** * The semantic chunker of griptape (griptape/chunkers/semantic_chunker.py)

    A shallow embedding of [SemanticChunker] and of the Python primitives
    it is written with, followed by the properties of the chunker.

    - Python [str] values are lists of Unicode code points.
    - The [re] patterns of [split_into_sentences] are terms of a small
      regular-expression type, run by a backtracking matcher with the
      leftmost, ordered-alternative, greedy semantics of Python's [re].
    - The numeric operations the chunker takes from Python floats and
      NumPy, and the embedding driver, are the fields of an interface. *)

From Stdlib Require Import ZArith NArith QArith Qround Lia Lqa String Ascii.
From stdpp Require Import base tactics option list.

Set Default Proof Using "Type".

(** ** Python strings *)

Module PyStr.

(** A code point. *)
Definition char := N.

(** A Python [str]. *)
Definition str := list char.

(** The code points of an ASCII literal. *)
Definition py (s : string) : str :=
  map N_of_ascii (list_ascii_of_string s).
Arguments py s%_string.

Definition ch_newline : char := 10%N.
Definition ch_space : char := 32%N.
Definition ch_dquote : char := 34%N.
Definition ch_bang : char := 33%N.
Definition ch_dot : char := 46%N.
Definition ch_qmark : char := 63%N.
(** U+201D, the right double quotation mark. *)
Definition ch_rdquote : char := 8221%N.

(** [str.isspace] on one code point; also the class [\s] of [re] on
    [str] patterns. *)
Definition isspace (c : char) : bool :=
  ((9 <=? c) && (c <=? 13) || (28 <=? c) && (c <=? 32)
   || (c =? 133) || (c =? 160) || (c =? 5760)
   || (8192 <=? c) && (c <=? 8202)
   || (c =? 8232) || (c =? 8233) || (c =? 8239) || (c =? 8287)
   || (c =? 12288))%N.

Definition char_eqb (a b : char) : bool := N.eqb a b.

(** [s.startswith(p)] *)
Fixpoint startswith (p s : str) : bool :=
  match p, s with
  | [], _ => true
  | a :: p', b :: s' => char_eqb a b && startswith p' s'
  | _ :: _, [] => false
  end.

(** [p in s] *)
Fixpoint contains (p s : str) : bool :=
  startswith p s ||
  match s with
  | [] => false
  | _ :: s' => contains p s'
  end.

(** The scan shared by [replace] and [split]: [skip] counts the
    characters of the occurrence found last that are still to pass. *)
Fixpoint replace_from (old new s : str) (skip : nat) : str :=
  match s with
  | [] => []
  | c :: s' =>
      match skip with
      | S n => replace_from old new s' n
      | O =>
          if startswith old s
          then new ++ replace_from old new s' (length old - 1)
          else c :: replace_from old new s' 0
      end
  end.

(** [s.replace(old, new)] for a non-empty [old]: the occurrences are
    taken leftmost first and do not overlap. *)
Definition replace (old new s : str) : str := replace_from old new s 0.

(** [s.split(sep)] for a non-empty [sep]; [cur] is the current field,
    reversed. *)
Fixpoint split_from (sep s cur : str) (skip : nat) : list str :=
  match s with
  | [] => [rev cur]
  | c :: s' =>
      match skip with
      | S n => split_from sep s' cur n
      | O =>
          if startswith sep s
          then rev cur :: split_from sep s' [] (length sep - 1)
          else split_from sep s' (c :: cur) 0
      end
  end.

Definition split (sep s : str) : list str := split_from sep s [] 0.

(** [s.lstrip()], [s.rstrip()] and [s.strip()] *)
Fixpoint lstrip (s : str) : str :=
  match s with
  | c :: s' => if isspace c then lstrip s' else s
  | [] => []
  end.

Definition rstrip (s : str) : str := rev (lstrip (rev s)).

Definition strip (s : str) : str := rstrip (lstrip s).

(** [sep.join(l)] *)
Fixpoint join (sep : str) (l : list str) : str :=
  match l with
  | [] => []
  | [x] => x
  | x :: l' => x ++ sep ++ join sep l'
  end.

(** [s * n] *)
Fixpoint repeat_str (s : str) (n : nat) : str :=
  match n with
  | O => []
  | S n' => s ++ repeat_str s n'
  end.

End PyStr.

(** ** Regular expressions: the fragment of [re] used by the chunker *)

Module Re.
Import PyStr.

Inductive regex : Type :=
| Lit (c : char)                 (* one literal character, [[.]] or a space *)
| Cls (p : char → bool)          (* a character class: [[A-Z]], [\s] *)
| Word (w : str)                 (* a literal string *)
| Seq (r1 r2 : regex)
| Alt (r1 r2 : regex)            (* [r1|r2], [r1] tried first *)
| Opt (r : regex)                (* [(?:r)?], greedy *)
| Many (n : nat) (p : char → bool)   (* a class repeated [{n,}], greedy *)
| Group (i : nat) (r : regex).   (* the capturing group number [i] *)

(** The groups captured so far, the most recent first. *)
Definition captures := list (nat * str).

Fixpoint group (i : nat) (g : captures) : str :=
  match g with
  | [] => []
  | (j, s) :: g' => if Nat.eqb i j then s else group i g'
  end.

(** The length of the longest prefix of [s] inside the class [p]. *)
Fixpoint run_length (p : char → bool) (s : str) : nat :=
  match s with
  | c :: s' => if p c then S (run_length p s') else O
  | [] => O
  end.

Section Matcher.
Context {A : Type}.

(** A greedy repetition hands the continuation [n + extra] characters
    first, then one character less each time the continuation fails. *)
Fixpoint many_try (k : str → captures → option A) (s : str) (g : captures)
    (n extra : nat) : option A :=
  match k (drop (n + extra) s) g with
  | Some x => Some x
  | None =>
      match extra with
      | O => None
      | S e => many_try k s g n e
      end
  end.

(** The backtracking matcher, in continuation-passing style: [k] is
    what remains of the pattern; a [None] from it makes the matcher
    take its next choice. *)
Fixpoint rmatch (r : regex) (s : str) (g : captures)
    (k : str → captures → option A) : option A :=
  match r with
  | Lit c =>
      match s with
      | c' :: s' => if char_eqb c c' then k s' g else None
      | [] => None
      end
  | Cls p =>
      match s with
      | c' :: s' => if p c' then k s' g else None
      | [] => None
      end
  | Word w => if startswith w s then k (drop (length w) s) g else None
  | Seq r1 r2 => rmatch r1 s g (λ s' g', rmatch r2 s' g' k)
  | Alt r1 r2 =>
      match rmatch r1 s g k with
      | Some x => Some x
      | None => rmatch r2 s g k
      end
  | Opt r1 =>
      match rmatch r1 s g k with
      | Some x => Some x
      | None => k s g
      end
  | Many n p =>
      let m := run_length p s in
      if (n <=? m)%nat then many_try k s g n (m - n) else None
  | Group i r1 =>
      rmatch r1 s g
        (λ s' g', k s' ((i, take (length s - length s') s) :: g'))
  end.
End Matcher.

(** A match of [r] at the start of [s]: what follows the match, and the
    groups. *)
Definition match_at (r : regex) (s : str) : option (str * captures) :=
  rmatch r s [] (λ s' g, Some (s', g)).

(** [re.sub(r, repl, s)]. [repl] receives the matched text (group 0)
    and the groups. [skip] counts the characters of the last match that
    are still to pass. Every pattern of the chunker consumes at least one
    character; a match of no character is treated as no match. *)
Fixpoint sub_from (r : regex) (repl : str → captures → str) (s : str)
    (skip : nat) : str :=
  match s with
  | [] => []
  | c :: s' =>
      match skip with
      | S n => sub_from r repl s' n
      | O =>
          match match_at r s with
          | Some (rest, g) =>
              match length s - length rest with
              | O => c :: sub_from r repl s' 0
              | S n => repl (take (S n) s) g ++ sub_from r repl s' n
              end
          | None => c :: sub_from r repl s' 0
          end
      end
  end.

Definition sub (r : regex) (repl : str → captures → str) (s : str) : str :=
  sub_from r repl s 0.

(** [(w1|w2|...)] over literal alternatives. *)
Fixpoint alts (l : list regex) : regex :=
  match l with
  | [] => Word []
  | [r] => r
  | r :: l' => Alt r (alts l')
  end.

Definition in_range (lo hi : N) (c : char) : bool :=
  ((lo <=? c) && (c <=? hi))%N.

(** [[A-Z]], [[A-Za-z]], [[0-9]] *)
Definition upper (c : char) : bool := in_range 65 90 c.
Definition alpha (c : char) : bool := in_range 65 90 c || in_range 97 122 c.
Definition digit (c : char) : bool := in_range 48 57 c.
Definition is_dot (c : char) : bool := char_eqb c ch_dot.

End Re.

(** ** The sentence splitter *)

Module Splitter.
Import PyStr Re.

Definition prd : str := py "<prd>".
Definition stop : str := py "<stop>".

Definition words (l : list str) : regex := alts (map Word l).

(** The pattern fragments of [split_into_sentences], under the names the
    source gives them. [alphabets], [digits] and [acronyms] carry their
    own group in the source; here the group is put where the fragment is
    used, with its number. *)
Definition alphabets : regex := Cls alpha.
Definition prefixes : regex :=
  Seq (Group 1 (words [py "Mr"; py "St"; py "Mrs"; py "Ms"; py "Dr"])) (Lit ch_dot).
Definition suffixes (i : nat) : regex :=
  Group i (words [py "Inc"; py "Ltd"; py "Jr"; py "Sr"; py "Co"]).
Definition word_s (w : str) : regex := Seq (Word w) (Cls isspace).
Definition starters (i : nat) : regex :=
  Group i (alts
    [ Word (py "Mr"); Word (py "Mrs"); Word (py "Ms"); Word (py "Dr");
      Word (py "Prof"); Word (py "Capt"); Word (py "Cpt"); Word (py "Lt");
      word_s (py "He"); word_s (py "She"); word_s (py "It");
      word_s (py "They"); word_s (py "Their"); word_s (py "Our");
      word_s (py "We"); word_s (py "But"); word_s (py "However");
      word_s (py "That"); word_s (py "This"); Word (py "Wherever") ]).
Definition acronyms : regex :=
  Group 1
    (Seq (Cls upper) (Seq (Lit ch_dot) (Seq (Cls upper) (Seq (Lit ch_dot)
       (Opt (Seq (Cls upper) (Lit ch_dot))))))).
Definition websites : regex :=
  Seq (Lit ch_dot)
      (Group 1 (words [py "com"; py "net"; py "org"; py "io"; py "gov";
                       py "edu"; py "me"])).
Definition digits : regex := Cls digit.
Definition multiple_dots : regex := Many 2 is_dot.

(** The patterns built by concatenation at the calls of [re.sub]. *)
Definition re_decimal : regex :=
  Seq (Group 1 digits) (Seq (Lit ch_dot) (Group 2 digits)).
Definition re_initial : regex :=
  Seq (Cls isspace) (Seq (Group 1 alphabets) (Seq (Lit ch_dot) (Lit ch_space))).
Definition re_acronym_starter : regex :=
  Seq acronyms (Seq (Lit ch_space) (starters 2)).
Definition re_abc3 : regex :=
  Seq (Group 1 alphabets) (Seq (Lit ch_dot)
    (Seq (Group 2 alphabets) (Seq (Lit ch_dot)
      (Seq (Group 3 alphabets) (Lit ch_dot))))).
Definition re_abc2 : regex :=
  Seq (Group 1 alphabets) (Seq (Lit ch_dot)
    (Seq (Group 2 alphabets) (Lit ch_dot))).
Definition re_suffix_starter : regex :=
  Seq (Lit ch_space) (Seq (suffixes 1) (Seq (Lit ch_dot)
    (Seq (Lit ch_space) (starters 2)))).
Definition re_suffix : regex :=
  Seq (Lit ch_space) (Seq (suffixes 1) (Lit ch_dot)).
Definition re_letter : regex :=
  Seq (Lit ch_space) (Seq (Group 1 alphabets) (Lit ch_dot)).

(** A replacement template: literal text and group references. *)
Inductive piece := T (s : str) | G (i : nat).

Definition expand (t : list piece) : str → captures → str :=
  λ _ g, concat (map (λ p, match p with T s => s | G i => group i g end) t).

(** The sentences of [sentences] once stripped; a last empty one is
    dropped. *)
Definition drop_last_empty (sentences : list str) : list str :=
  match last sentences with
  | Some [] => take (length sentences - 1) sentences
  | _ => sentences
  end.

Definition split_into_sentences (text : str) : list str :=
  let text := [ch_space] ++ text ++ [ch_space; ch_space] in
  let text := replace [ch_newline] [ch_space] text in
  let text := sub prefixes (expand [G 1; T prd]) text in
  let text := sub websites (expand [T prd; G 1]) text in
  let text := sub re_decimal (expand [G 1; T prd; G 2]) text in
  let text :=
    sub multiple_dots (λ m _, repeat_str prd (length m) ++ stop) text in
  let text :=
    if contains (py "Ph.D") text
    then replace (py "Ph.D.") (py "Ph<prd>D<prd>") text else text in
  let text := sub re_initial (expand [T [ch_space]; G 1; T prd; T [ch_space]]) text in
  let text :=
    sub re_acronym_starter (expand [G 1; T stop; T [ch_space]; G 2]) text in
  let text := sub re_abc3 (expand [G 1; T prd; G 2; T prd; G 3; T prd]) text in
  let text := sub re_abc2 (expand [G 1; T prd; G 2; T prd]) text in
  let text :=
    sub re_suffix_starter
      (expand [T [ch_space]; G 1; T stop; T [ch_space]; G 2]) text in
  let text := sub re_suffix (expand [T [ch_space]; G 1; T prd]) text in
  let text := sub re_letter (expand [T [ch_space]; G 1; T prd]) text in
  let text :=
    if contains [ch_rdquote] text
    then replace [ch_dot; ch_rdquote] [ch_rdquote; ch_dot] text else text in
  let text :=
    if contains [ch_dquote] text
    then replace [ch_dot; ch_dquote] [ch_dquote; ch_dot] text else text in
  let text :=
    if contains [ch_bang] text
    then replace [ch_bang; ch_dquote] [ch_dquote; ch_bang] text else text in
  let text :=
    if contains [ch_qmark] text
    then replace [ch_qmark; ch_dquote] [ch_dquote; ch_qmark] text else text in
  let text := replace [ch_dot] (ch_dot :: stop) text in
  let text := replace [ch_qmark] (ch_qmark :: stop) text in
  let text := replace [ch_bang] (ch_bang :: stop) text in
  let text := replace prd [ch_dot] text in
  let sentences := split stop text in
  let sentences := map strip sentences in
  drop_last_empty sentences.

End Splitter.


(** ** The chunker *)

Module Chunker.
Import PyStr Splitter.

(** The exceptions the chunker meets. *)
Inductive exception : Type :=
| ValueError (msg : str)
| KeyError (key : str)
| IndexError
| AttributeError
| TypeError
| DriverError.

Inductive result (A : Type) : Type :=
| Ok (a : A)
| Raise (e : exception).
Arguments Ok {A} a.
Arguments Raise {A} e.

(** The numbers of the chunker and the operations on them that it takes
    from Python's floats ([+], [-], [*], [/], [>], [<=]) and from NumPy.
    [np.percentile] and [np.dot] can raise (a percentile outside
    [0, 100], vectors of different lengths); [np.mean], [np.std] and
    [norm] only warn. *)
Class Numeric (F : Type) : Type := {
  of_Q : Q → F;                       (* a numeric literal *)
  fadd : F → F → F;
  fsub : F → F → F;
  fmul : F → F → F;
  fdiv : F → F → F;
  fgt : F → F → bool;
  fle : F → F → bool;
  np_dot : list F → list F → result F;
  np_norm : list F → F;
  np_percentile : list F → F → result F;
  np_mean : list F → F;
  np_std : list F → F
}.

Section WithNumeric.
Context {F : Type} `{!Numeric F}.

(** The calls that leave the chunker: to the embedding driver and to
    NumPy. *)
Inductive event : Type :=
| Embed (text : str)
| NpDot (a b : list F)
| NpNorm (a : list F)
| NpPercentile (a : list F) (q : list F)
| NpMean (a : list F)
| NpStd (a : list F).

(** A computation: the calls it made, in order, and its outcome. The
    [print] calls of [try_chunk] and [_embed_sentences] write to the
    standard output only and are left out. *)
Definition M (A : Type) : Type := list event * result A.

Definition ret {A} (a : A) : M A := ([], Ok a).
Definition raise {A} (e : exception) : M A := ([], Raise e).
Definition bind {A B} (m : M A) (f : A → M B) : M B :=
  match m with
  | (t, Ok a) => let '(t', r) := f a in (t ++ t', r)
  | (t, Raise e) => (t, Raise e)
  end.
Definition call {A} (e : event) (r : result A) : M A := ([e], r).

Notation "'let*' x ':=' m 'in' k" := (bind m (λ x, k))
  (at level 10, x pattern, m at level 100, k at level 200).

(** [for x in l: s = body(x, s)] *)
Fixpoint for_ {X S : Type} (l : list X) (s : S) (body : X → S → M S) : M S :=
  match l with
  | [] => ret s
  | x :: l' => let* s' := body x s in for_ l' s' body
  end.

(** [range(lo, hi)] *)
Definition range (lo hi : Z) : list Z := seqZ lo (hi - lo).

(** [l[j]]: a negative index counts from the end. *)
Definition getitem {A} (l : list A) (j : Z) : M A :=
  let n := Z.of_nat (length l) in
  let j' := if (j <? 0)%Z then (j + n)%Z else j in
  if (j' <? 0)%Z then raise IndexError
  else match l !! Z.to_nat j' with
       | Some x => ret x
       | None => raise IndexError
       end.

(** Modelled from the spec: the class TextArtifact is not among the
    sources. An artifact carries its text and, once [generate_embedding]
    has run, the vector the embedding driver returned for that text. *)
Record TextArtifact : Type := mkTextArtifact {
  value : str;
  embedding : option (list F)
}.

Definition new_TextArtifact (v : str) : TextArtifact :=
  {| value := v; embedding := None |}.

Record Sentence : Type := mkSentence {
  sentence : TextArtifact;
  index : Z;
  combined_sentence : option TextArtifact;
  distance_to_next : option F
}.

Definition new_Sentence (s : TextArtifact) (i : Z) : Sentence :=
  {| sentence := s; index := i;
     combined_sentence := None; distance_to_next := None |}.

Definition set_combined_sentence (c : TextArtifact) (s : Sentence) : Sentence :=
  {| sentence := sentence s; index := index s;
     combined_sentence := Some c; distance_to_next := distance_to_next s |}.

Definition set_distance_to_next (d : F) (s : Sentence) : Sentence :=
  {| sentence := sentence s; index := index s;
     combined_sentence := combined_sentence s; distance_to_next := Some d |}.

(** [l[i].field = v], as an update of the list of sentence objects. *)
Definition setattr (l : list Sentence) (i : Z) (f : Sentence → Sentence)
    : M (list Sentence) :=
  let* s := getitem l i in
  ret (<[Z.to_nat i := f s]> l).

(** The fields of [SemanticChunker]. The embedding driver is the function
    from a text to the vector it returns for it, or to the exception it
    raises. *)
Record SemanticChunker : Type := mkSemanticChunker {
  embedding_driver : str → result (list F);
  max_tokens : Z;
  breakpoint_threshold_type : str;
  breakpoint_threshold_amount : F
}.

Definition BREAKPOINT_DEFAULTS : list (str * F) :=
  [ (py "percentile", of_Q 95);
    (py "standard_deviation", of_Q 3);
    (py "interquartile", of_Q 1.5) ].

Definition str_eqb (a b : str) : bool := bool_decide (a = b).

(** [d[k]] on a dict *)
Fixpoint dict_get (d : list (str * F)) (k : str) : result F :=
  match d with
  | [] => Raise (KeyError k)
  | (k', v) :: d' => if str_eqb k' k then Ok v else dict_get d' k
  end.

(** The constructor: [breakpoint_threshold_type] defaults to
    ["percentile"], [breakpoint_threshold_amount] to the entry of
    [BREAKPOINT_DEFAULTS] for the type. [max_tokens] defaults to a value
    of the tokenizer, which is not among the sources, and is an argument
    here. *)
Definition new_SemanticChunker (driver : str → result (list F))
    (max_tokens : Z) (type : option str) (amount : option F)
    : result SemanticChunker :=
  let type := default (py "percentile") type in
  match amount with
  | Some a => Ok (mkSemanticChunker driver max_tokens type a)
  | None =>
      match dict_get BREAKPOINT_DEFAULTS type with
      | Ok a => Ok (mkSemanticChunker driver max_tokens type a)
      | Raise e => Raise e
      end
  end.

Section Methods.
Variable self : SemanticChunker.

Definition _text_to_sentences (text : str) : list Sentence :=
  imap (λ index sentence,
          new_Sentence (new_TextArtifact sentence) (Z.of_nat index))
       (split_into_sentences text).

Definition len {A} (l : list A) : Z := Z.of_nat (length l).

Definition _combine_sentences (sentences : list Sentence) (buffer_size : Z)
    : M (list Sentence) :=
  for_ (range 0 (len sentences)) sentences (λ i sentences,
    let combined_sentence := [] in
    let* combined_sentence :=
      for_ (range (i - buffer_size) i) combined_sentence
        (λ j combined_sentence,
           if (j >=? 0)%Z
           then let* sj := getitem sentences j in
                ret (combined_sentence ++ (value (sentence sj) ++ [ch_space]))
           else ret combined_sentence) in
    let* si := getitem sentences i in
    let combined_sentence := combined_sentence ++ value (sentence si) in
    let* combined_sentence :=
      for_ (range (i + 1) (i + 1 + buffer_size)) combined_sentence
        (λ j combined_sentence,
           if (j <? len sentences)%Z
           then let* sj := getitem sentences j in
                ret (combined_sentence ++ ([ch_space] ++ value (sentence sj)))
           else ret combined_sentence) in
    setattr sentences i
      (set_combined_sentence (new_TextArtifact combined_sentence))).

(** Modelled from the spec: [TextArtifact.generate_embedding] is not
    among the sources. It asks the driver for the embedding of the
    artifact's text and stores it on the artifact. *)
Definition generate_embedding (a : TextArtifact) : M TextArtifact :=
  let* e := call (Embed (value a)) (embedding_driver self (value a)) in
  ret {| value := value a; embedding := Some e |}.

Definition _embed_sentences (sentences : list Sentence) : M (list Sentence) :=
  for_ (range 0 (len sentences)) sentences (λ i sentences,
    let* sentence := getitem sentences i in
    match combined_sentence sentence with
    | None => raise AttributeError
    | Some c =>
        let* c' := generate_embedding c in
        setattr sentences i (set_combined_sentence c')
    end).

(** [sentences[i].combined_sentence.embedding] *)
Definition embedding_of (sentences : list Sentence) (i : Z) : M (list F) :=
  let* s := getitem sentences i in
  match combined_sentence s with
  | None => raise AttributeError
  | Some c =>
      match embedding c with
      | None => raise TypeError
      | Some e => ret e
      end
  end.

Definition _calculate_cosine_distances (sentences : list Sentence)
    : M (list F * list Sentence) :=
  for_ (range 0 (len sentences - 1)) ([], sentences)
    (λ i '(distances, sentences),
       let* embedding_current := embedding_of sentences i in
       let* embedding_next := embedding_of sentences (i + 1) in
       let* d := call (NpDot embedding_current embedding_next)
                      (np_dot embedding_current embedding_next) in
       let* n1 := call (NpNorm embedding_current)
                       (Ok (np_norm embedding_current)) in
       let* n2 := call (NpNorm embedding_next) (Ok (np_norm embedding_next)) in
       let similarity := fdiv d (fmul n1 n2) in
       let distance := fsub (of_Q 1) similarity in
       let distances := distances ++ [distance] in
       let* sentences := setattr sentences i (set_distance_to_next distance) in
       ret (distances, sentences)).

Definition _calculate_breakpoint_threshold (distances : list F) : M F :=
  let amount := breakpoint_threshold_amount self in
  if str_eqb (breakpoint_threshold_type self) (py "percentile") then
    call (NpPercentile distances [amount]) (np_percentile distances amount)
  else if str_eqb (breakpoint_threshold_type self) (py "standard_deviation")
  then
    let* m := call (NpMean distances) (Ok (np_mean distances)) in
    let* s := call (NpStd distances) (Ok (np_std distances)) in
    ret (fadd m (fmul amount s))
  else if str_eqb (breakpoint_threshold_type self) (py "interquartile") then
    let* (q1, q3) :=
      call (NpPercentile distances [of_Q 25; of_Q 75])
        match np_percentile distances (of_Q 25),
              np_percentile distances (of_Q 75) with
        | Ok q1, Ok q3 => Ok (q1, q3)
        | Raise e, _ => Raise e
        | _, Raise e => Raise e
        end in
    let iqr := fsub q3 q1 in
    let* m := call (NpMean distances) (Ok (np_mean distances)) in
    ret (fadd m (fmul amount iqr))
  else
    raise (ValueError (py "Got unexpected `breakpoint_threshold_type`: "
                       ++ breakpoint_threshold_type self)).

(** [enumerate(l)] *)
Definition enumerate {A} (l : list A) : list (nat * A) := imap pair l.

(** [l[start:stop]] for indices that are not negative *)
Definition slice {A} (l : list A) (start stop : nat) : list A :=
  take (stop - start) (drop start l).

Definition sentence_values (group : list Sentence) : list str :=
  map (λ d, value (sentence d)) group.

Definition _combine_sentences_to_chunks (distances : list F)
    (sentences : list Sentence) : M (list TextArtifact) :=
  let* breakpoint_distance_threshold :=
    _calculate_breakpoint_threshold distances in
  let indices_above_thresh :=
    map fst (List.filter (λ '(i, x), fgt x breakpoint_distance_threshold)
                         (enumerate distances)) in
  let start_index := 0%nat in
  let chunks : list TextArtifact := [] in
  let '(start_index, chunks) :=
    fold_left
      (λ '(start_index, chunks) index,
         let end_index := index in
         let group := slice sentences start_index (end_index + 1) in
         let combined_text := join [ch_space] (sentence_values group) in
         let chunks := chunks ++ [new_TextArtifact combined_text] in
         let start_index := (index + 1)%nat in
         (start_index, chunks))
      indices_above_thresh (start_index, chunks) in
  if (start_index <? length sentences)%nat then
    let combined_text :=
      join [ch_space]
           (sentence_values (drop start_index sentences)) in
    ret (chunks ++ [new_TextArtifact combined_text])
  else ret chunks.

(** [text.value if isinstance(text, TextArtifact) else text] *)
Definition text_of (text : TextArtifact + str) : str :=
  match text with
  | inl a => value a
  | inr s => s
  end.

Definition try_chunk (text : TextArtifact + str) : M (list TextArtifact) :=
  let sentences := _text_to_sentences (text_of text) in
  let* combined_sentences := _combine_sentences sentences 1 in
  let* embedded_sentences := _embed_sentences combined_sentences in
  let* (distances, sentences_with_distances) :=
    _calculate_cosine_distances embedded_sentences in
  let* chunks :=
    _combine_sentences_to_chunks distances sentences_with_distances in
  ret chunks.

End Methods.
End WithNumeric.

Arguments M F A : clear implicits.
Arguments event F : clear implicits.
Arguments TextArtifact F : clear implicits.
Arguments Sentence F : clear implicits.
Arguments SemanticChunker F : clear implicits.

End Chunker.

(** ** A model of the numeric interface over the rationals

    Exact arithmetic on [Q]; square roots are rounded down to twelve
    decimal places. There is no NaN: where NumPy returns NaN with a
    warning (the mean of no number), the model returns 0. [np.percentile]
    interpolates linearly between the two nearest ranks, NumPy's default,
    and raises on a percentile outside [0, 100] and on an empty input. *)

Module QModel.
Import PyStr Chunker.
Local Open Scope Q_scope.

Definition Qsqrt (q : Q) : Q :=
  Qred (Z.sqrt (Qnum q * Z.pos (Qden q) * 10 ^ 24)%Z # (Qden q * 10 ^ 12)%positive).

Definition qadd (a b : Q) : Q := Qred (a + b).
Definition qsub (a b : Q) : Q := Qred (a - b).
Definition qmul (a b : Q) : Q := Qred (a * b).
Definition qdiv (a b : Q) : Q := Qred (a / b).
Definition qle (a b : Q) : bool := Qle_bool a b.
Definition qgt (a b : Q) : bool := negb (Qle_bool a b).

Definition qsum (l : list Q) : Q := fold_left qadd l 0.

Definition q_dot (a b : list Q) : result Q :=
  if (length a =? length b)%nat
  then Ok (qsum (zip_with qmul a b))
  else Raise (ValueError (py "shapes not aligned")).

Definition q_norm (a : list Q) : Q := Qsqrt (qsum (zip_with qmul a a)).

Definition q_mean (l : list Q) : Q := qdiv (qsum l) (inject_Z (Z.of_nat (length l))).

Definition q_std (l : list Q) : Q :=
  let m := q_mean l in
  Qsqrt (q_mean (map (λ x, qmul (qsub x m) (qsub x m)) l)).

Fixpoint insert_sorted (x : Q) (l : list Q) : list Q :=
  match l with
  | [] => [x]
  | y :: l' => if qle x y then x :: l else y :: insert_sorted x l'
  end.

Definition sort (l : list Q) : list Q := foldr insert_sorted [] l.

(** The rank, counted from 0 and fractional, of the percentile [q] among
    [n] sorted values. *)
Definition rank (n : nat) (q : Q) : Q :=
  (q / 100) * inject_Z (Z.of_nat (n - 1)%nat).

(** The value at the fractional rank [v]: between the values at the two
    ranks around [v], in proportion. *)
Definition interpolate (sorted : list Q) (x0 : Q) (v : Q) : Q :=
  let j := Z.to_nat (Qfloor v) in
  let g := v - inject_Z (Qfloor v) in
  let lo := nth j sorted x0 in
  let hi := nth (Nat.min (j + 1) (length sorted - 1))%nat sorted x0 in
  lo + (hi - lo) * g.

Definition q_percentile (l : list Q) (q : Q) : result Q :=
  if negb (qle 0 q && qle q 100) then
    Raise (ValueError (py "Percentiles must be in the range [0, 100]"))
  else
    match sort l with
    | [] => Raise IndexError
    | (x0 :: _) as sorted =>
        Ok (Qred (interpolate sorted x0 (rank (length sorted) q)))
    end.

#[export] Instance NumericQ : Numeric Q := {|
  of_Q := Qred;
  fadd := qadd;
  fsub := qsub;
  fmul := qmul;
  fdiv := qdiv;
  fgt := qgt;
  fle := qle;
  np_dot := q_dot;
  np_norm := q_norm;
  np_percentile := q_percentile;
  np_mean := q_mean;
  np_std := q_std
|}.

(** A driver for the examples: a text of [n] characters is embedded as
    the vector [(n mod 7, 1)]. *)
Definition stub_driver (text : str) : result (list Q) :=
  Ok [inject_Z (Z.of_nat (length text) mod 7)%Z; 1].

(** A driver that fails on every call. *)
Definition failing_driver (text : str) : result (list Q) := Raise DriverError.

End QModel.

(** ** A model of the numeric interface with infinities and NaN

    The rationals with the two infinities and NaN. On the rationals the
    arithmetic is exact (square roots as in the rational model); the
    infinities and NaN follow IEEE 754: NaN comes from [inf - inf],
    [0 * inf], [0 / 0] and [inf / inf] and from every operation on NaN,
    and every comparison with NaN is false. There is one zero. NumPy's
    [mean] and [std] of no number are NaN; [np.percentile] of data with a
    NaN is NaN; on data with an infinity this model returns NaN too. *)

Module XModel.
Import PyStr Chunker QModel.
Local Open Scope Q_scope.

Inductive ext : Type := NaN | MInf | PInf | Num (q : Q).



Definition xneg (x : ext) : ext :=
  match x with
  | NaN => NaN
  | MInf => PInf
  | PInf => MInf
  | Num a => Num (Qred (- a))
  end.
















End XModel.

(** * The notions the properties are stated with *)

Module Notions.
Import PyStr Re Splitter Chunker QModel XModel.

(** No whitespace at either end. *)
Definition trimmed (s : str) : Prop :=
  (∀ c s', s = c :: s' → isspace c = false) ∧
  (∀ c s', s = s' ++ [c] → isspace c = false).

(** [needs d r]: every text matched by [r] contains the character [d]. *)
Inductive needs (d : char) : regex → Prop :=
| needs_Lit : needs d (Lit d)
| needs_Word w : d ∈ w → needs d (Word w)
| needs_Seq_l r1 r2 : needs d r1 → needs d (Seq r1 r2)
| needs_Seq_r r1 r2 : needs d r2 → needs d (Seq r1 r2)
| needs_Alt r1 r2 : needs d r1 → needs d r2 → needs d (Alt r1 r2)
| needs_Many n p : (∀ c, p c = true → c = d) → needs d (Many (S n) p)
| needs_Group i r : needs d r → needs d (Group i r).

(** The least number of characters a match of [r] takes. *)
Fixpoint min_len (r : regex) : nat :=
  match r with
  | Lit _ | Cls _ => 1
  | Word w => length w
  | Seq r1 r2 => min_len r1 + min_len r2
  | Alt r1 r2 => Nat.min (min_len r1) (min_len r2)
  | Opt _ => 0
  | Many n _ => n
  | Group _ r1 => min_len r1
  end.

(** The patterns of [split_into_sentences], in the order of the calls of
    [re.sub]. *)
Definition patterns : list regex :=
  [ prefixes; websites; re_decimal; multiple_dots; re_initial;
    re_acronym_starter; re_abc3; re_abc2; re_suffix_starter; re_suffix;
    re_letter ].

(** The first two steps of the splitter: the padding and the newlines. *)
Definition normalize (text : str) : str :=
  replace [ch_newline] [ch_space] ([ch_space] ++ text ++ [ch_space; ch_space]).

(** What [replace("\n", " ")] does to one character. *)
Definition nl_to_space (c : char) : char :=
  if char_eqb ch_newline c then ch_space else c.

(** A text with a character that is not whitespace. *)
Definition inked (s : str) : Prop := Exists (λ c, isspace c = false) s.

(** The combined text of the sentence at index [i] as the specification
    states it: the sentences from [max(0, i - b)] to [min(N - 1, i + b)],
    joined by spaces. *)
Definition window (vals : list str) (b : Z) (i : nat) : str :=
  let lo := Z.to_nat (Z.max 0 (Z.of_nat i - b)) in
  let hi := Z.to_nat (Z.min (Z.of_nat (length vals) - 1) (Z.of_nat i + b)) in
  join [ch_space] (take (hi + 1 - lo) (drop lo vals)).

Section WithNumeric.
Context {F : Type} `{!Numeric F}.

Abbreviation ret a := (@Chunker.ret F _ a).
Abbreviation raise e := (@Chunker.raise F _ e).
Abbreviation bind m f := (@Chunker.bind F _ _ m f).
Abbreviation call e r := (@Chunker.call F _ e r).
Abbreviation for_ l s body := (@Chunker.for_ F _ _ l s body).
Notation "'let*' x ':=' m 'in' k" := (bind m (λ x, k))
  (at level 10, x pattern, m at level 100, k at level 200).
Abbreviation M := (Chunker.M F).
Abbreviation event := (Chunker.event F).
Abbreviation TextArtifact := (Chunker.TextArtifact F).
Abbreviation Sentence := (Chunker.Sentence F).
Abbreviation SemanticChunker := (Chunker.SemanticChunker F).

(** The embedding stored on a sentence. *)
Definition emb (u : Sentence) : M (list F) :=
  match combined_sentence u with
  | None => raise AttributeError
  | Some c =>
      match embedding c with
      | None => raise TypeError
      | Some e => ret e
      end
  end.

(** One turn of the loop of [_calculate_cosine_distances]: the cosine
    distance of two neighbours. *)
Definition cosine_distance (u u' : Sentence) : M F :=
  let* a := emb u in
  let* b := emb u' in
  let* d := call (NpDot a b) (np_dot a b) in
  let* n1 := call (NpNorm a) (Ok (np_norm a)) in
  let* n2 := call (NpNorm b) (Ok (np_norm b)) in
  ret (fsub (of_Q 1) (fdiv d (fmul n1 n2))).

(** [_calculate_cosine_distances] as a recursion over the sentences. *)
Fixpoint distances_list (us : list Sentence) : M (list F * list Sentence) :=
  match us with
  | u :: rest =>
      match rest with
      | u' :: _ =>
          let* d := cosine_distance u u' in
          let* r := distances_list rest in
          ret (d :: r.1, set_distance_to_next d u :: r.2)
      | [] => ret ([], us)
      end
  | [] => ret ([], us)
  end.

(** The texts the embedding driver was asked about, in order. *)
Definition embedded_texts (t : list event) : list str :=
  omap (λ e, match e with Embed w => Some w | _ => None end) t.

(** The chunk of a group of sentences. *)
Definition chunk_of (group : list Sentence) : TextArtifact :=
  new_TextArtifact (join [ch_space] (sentence_values group)).

(** [indices_above_thresh] *)
Definition above (thr : F) (distances : list F) : list nat :=
  map fst (List.filter (λ '(i, x), fgt x thr) (enumerate distances)).

(** The body of the loop over the breakpoints. *)
Definition cut (sentences : list Sentence)
    (st : nat * list TextArtifact) (index : nat) : nat * list TextArtifact :=
  let '(start_index, chunks) := st in
  ((index + 1)%nat,
   chunks ++ [chunk_of (slice sentences start_index (index + 1))]).

(** A list of indices that increases strictly and starts at [start] or
    later. *)
Fixpoint increasing_from (start : nat) (idx : list nat) : Prop :=
  match idx with
  | [] => True
  | i :: idx' => start ≤ i ∧ increasing_from (S i) idx'
  end.

(** The chunks for a given threshold. *)
Definition assemble (thr : F) (distances : list F) (sentences : list Sentence)
    : list TextArtifact :=
  let '(start_index, chunks) :=
    fold_left (cut sentences) (above thr distances) (0%nat, []) in
  if (start_index <? length sentences)%nat
  then chunks ++ [chunk_of (drop start_index sentences)]
  else chunks.

(** The sentences of a text after the windowing step of [try_chunk]. *)
Definition windowed (vals : list str) : list Sentence :=
  imap (λ i v, {| sentence := new_TextArtifact v; index := Z.of_nat i;
                  combined_sentence := Some (new_TextArtifact (window vals 1 i));
                  distance_to_next := None |}) vals.

(** [x] is a number: in IEEE arithmetic [x <= x] holds for every [x]
    but NaN. *)
Definition number (x : F) : Prop := fle x x = true.

(** The laws of order of the numeric interface, as IEEE arithmetic has
    them, the infinities and NaN included: a comparison with NaN is
    false, an operation on NaN gives NaN, and rounding keeps the order of
    the results that are numbers. Of NumPy they ask that [np.std] is not
    negative and that [np.percentile] grows with the percentile, where
    the results are numbers. *)
Record ordered : Prop := {
  fgt_fle : ∀ x t1 t2, fle t1 t2 = true → fgt x t2 = true → fgt x t1 = true;
  fgt_number : ∀ x t, fgt x t = true → number t;
  fadd_number : ∀ x y, number (fadd x y) → number x ∧ number y;
  fsub_number : ∀ x y, number (fsub x y) → number x ∧ number y;
  fmul_number : ∀ x y, number (fmul x y) → number x ∧ number y;
  percentile_mono : ∀ ds q1 q2 t1 t2,
    fle q1 q2 = true → np_percentile ds q1 = Ok t1 →
    np_percentile ds q2 = Ok t2 → number t1 → number t2 →
    fle t1 t2 = true;
  std_nonneg : ∀ ds, number (np_std ds) → fle (of_Q 0) (np_std ds) = true;
  fmul_mono : ∀ a1 a2 s,
    fle a1 a2 = true → fle (of_Q 0) s = true →
    number (fmul a1 s) → number (fmul a2 s) →
    fle (fmul a1 s) (fmul a2 s) = true;
  fadd_mono : ∀ m x y,
    fle x y = true → number (fadd m x) → number (fadd m y) →
    fle (fadd m x) (fadd m y) = true;
  fsub_nonneg : ∀ x y,
    fle x y = true → number (fsub y x) → fle (of_Q 0) (fsub y x) = true;
  of_Q_25_75 : fle (of_Q 25) (of_Q 75) = true
}.

(** The chunker [self] with another amount. *)
Definition with_amount (a : F) (self : SemanticChunker) : SemanticChunker :=
  {| embedding_driver := embedding_driver self;
     max_tokens := max_tokens self;
     breakpoint_threshold_type := breakpoint_threshold_type self;
     breakpoint_threshold_amount := a |}.

Section Stages.
Variable self : SemanticChunker.

(** [_embed_sentences] as a recursion over the sentences. *)
Fixpoint embed_list (us : list Sentence) : M (list Sentence) :=
  match us with
  | [] => ret []
  | u :: us' =>
      match combined_sentence u with
      | None => raise AttributeError
      | Some c =>
          let* c' := generate_embedding self c in
          let* rest := embed_list us' in
          ret (set_combined_sentence c' u :: rest)
      end
  end.

(** The stages of [try_chunk] that come before the chunks: the
    distances of the sentences of the text, and the sentences with their
    distances stored. *)
Definition measure (text : TextArtifact + str) : M (list F * list Sentence) :=
  let sentences := @_text_to_sentences F (text_of text) in
  let* combined_sentences := _combine_sentences sentences 1 in
  let* embedded_sentences := _embed_sentences self combined_sentences in
  _calculate_cosine_distances embedded_sentences.

(** [u'] is [u] with an embedding stored on its combined text. *)
Definition embedded (u u' : Sentence) : Prop :=
  sentence u' = sentence u ∧ index u' = index u ∧
  distance_to_next u' = distance_to_next u ∧
  ∃ c e, combined_sentence u = Some c ∧
         embedding_driver self (value c) = Ok e ∧
         combined_sentence u' = Some {| value := value c; embedding := Some e |}.

(** [for w in ws: embed(w)] *)
Definition embed_each (ws : list str) : M unit :=
  for_ ws () (λ w _, let* _ := call (Embed w) (embedding_driver self w) in
                     ret ()).

(** The exception of the last branch of
    [_calculate_breakpoint_threshold]. *)
Definition unexpected_type : exception :=
  ValueError (py "Got unexpected `breakpoint_threshold_type`: "
              ++ breakpoint_threshold_type self).

(** The type of [self] is none of the three methods. *)
Definition invalid_type : Prop :=
  breakpoint_threshold_type self ≠ py "percentile" ∧
  breakpoint_threshold_type self ≠ py "standard_deviation" ∧
  breakpoint_threshold_type self ≠ py "interquartile".

End Stages.
End WithNumeric.

(** A list of rationals in ascending order. *)
Inductive ascending : list Q → Prop :=
| ascending_nil : ascending []
| ascending_cons x l :
    (∀ y, In y l → (x <= y)%Q) → ascending l → ascending (x :: l).

(** The chunkers, texts and values of the examples. *)
Definition example_chunker (type : str) (amount : Q) : SemanticChunker Q :=
  {| embedding_driver := stub_driver; max_tokens := 100;
     breakpoint_threshold_type := type;
     breakpoint_threshold_amount := amount |}.

Definition example_text : TextArtifact Q + str :=
  inr (py "Go. Now we go on. Stop! Why not? Ok.").

Definition chunk (s : str) : TextArtifact Q := new_TextArtifact s.

Definition unit_of (s : str) (i : Z) : Sentence Q :=
  new_Sentence (new_TextArtifact s) i.

(** [occurs_before w a b]: an occurrence of [w] in [a ++ b] starts
    inside [a]. *)
Fixpoint occurs_before (w a b : str) : bool :=
  match a with
  | [] => false
  | _ :: a' => startswith w (a ++ b) || occurs_before w a' b
  end.

(** The characters the splitter writes into a text. *)
Definition written : str :=
  py " .?!<prd><stop>PhD" ++ [ch_dquote; ch_rdquote].

(** The captured groups hold characters with [P] only. *)
Definition captures_of (P : char → Prop) (g : captures) : Prop :=
  Forall (λ p, Forall P p.2) g.

Section Runs.
Context {F : Type} `{!Numeric F}.

Abbreviation ret a := (@Chunker.ret F _ a).
Abbreviation raise e := (@Chunker.raise F _ e).
Abbreviation bind m f := (@Chunker.bind F _ _ m f).
Abbreviation call e r := (@Chunker.call F _ e r).
Notation "'let*' x ':=' m 'in' k" := (bind m (λ x, k))
  (at level 10, x pattern, m at level 100, k at level 200).
Abbreviation M := (Chunker.M F).
Abbreviation event := (Chunker.event F).
Abbreviation TextArtifact := (Chunker.TextArtifact F).
Abbreviation Sentence := (Chunker.Sentence F).
Abbreviation SemanticChunker := (Chunker.SemanticChunker F).

(** The combined texts of the sentences that have one. *)
Definition combined_texts (us : list Sentence) : list str :=
  omap (λ u, value <$> combined_sentence u) us.

(** The sentence [u] with the vector [e] stored on its combined text. *)
Definition store (u : Sentence) (e : list F) : Sentence :=
  match combined_sentence u with
  | Some c => set_combined_sentence {| value := value c; embedding := Some e |} u
  | None => u
  end.

(** The vector [e] is stored on the combined text of [u]. *)
Definition has_embedding (u : Sentence) (e : list F) : Prop :=
  ∃ c, combined_sentence u = Some c ∧ embedding c = Some e.

(** The cosine distances of the neighbours among the vectors [es], with
    the calls to NumPy they take. *)
Fixpoint cosines (es : list (list F)) : M (list F) :=
  match es with
  | a :: rest =>
      match rest with
      | b :: _ =>
          let* d := call (NpDot a b) (np_dot a b) in
          let* n1 := call (NpNorm a) (Ok (np_norm a)) in
          let* n2 := call (NpNorm b) (Ok (np_norm b)) in
          let* ds := cosines rest in
          ret (fsub (of_Q 1) (fdiv d (fmul n1 n2)) :: ds)
      | [] => ret []
      end
  | [] => ret []
  end.

(** The sentences with the distances stored on them, the last sentence
    apart. *)
Fixpoint with_distances (ds : list F) (us : list Sentence) : list Sentence :=
  match ds, us with
  | d :: ds', u :: us' => set_distance_to_next d u :: with_distances ds' us'
  | _, _ => us
  end.

(** The index after the last breakpoint. *)
Definition after_last (idx : list nat) : nat :=
  match last idx with
  | Some i => S i
  | None => 0
  end.

(** The chunker [self] with another limit of tokens. *)
Definition with_max_tokens (m : Z) (self : SemanticChunker) : SemanticChunker :=
  {| embedding_driver := embedding_driver self;
     max_tokens := m;
     breakpoint_threshold_type := breakpoint_threshold_type self;
     breakpoint_threshold_amount := breakpoint_threshold_amount self |}.

(** The three methods of [BREAKPOINT_DEFAULTS]. *)
Definition methods : list str :=
  [py "percentile"; py "standard_deviation"; py "interquartile"].

Section Pipeline.
Variable self : SemanticChunker.

(** [for w in ws: embed(w)], with the vectors returned. *)
Fixpoint embed_all (ws : list str) : M (list (list F)) :=
  match ws with
  | [] => ret []
  | w :: ws' =>
      let* e := call (Embed w) (embedding_driver self w) in
      let* es := embed_all ws' in
      ret (e :: es)
  end.

(** [try_chunk] over the sentences [vals], with neither index nor
    object: the windows are embedded, the vectors give the distances, the
    distances the threshold, and the threshold the chunks. *)
Definition pipeline (vals : list str) : M (list TextArtifact) :=
  let* es := embed_all (window vals 1 <$> seq 0 (length vals)) in
  let* ds := cosines es in
  let* thr := _calculate_breakpoint_threshold self ds in
  ret (assemble thr ds (windowed vals)).

End Pipeline.
End Runs.

(** More examples: a driver that refuses the texts of more than twenty
    characters, a chunker with it, and sentences with a window or a
    vector. *)
Definition short_driver (text : str) : result (list Q) :=
  if (length text <=? 20)%nat then stub_driver text else Raise DriverError.

Definition short_chunker : SemanticChunker Q :=
  {| embedding_driver := short_driver; max_tokens := 100;
     breakpoint_threshold_type := py "percentile";
     breakpoint_threshold_amount := 95%Q |}.

Definition with_window (s w : str) (i : Z) : Sentence Q :=
  {| sentence := new_TextArtifact s; index := i;
     combined_sentence := Some (new_TextArtifact w);
     distance_to_next := None |}.

Definition with_vector (s : str) (i : Z) (e : list Q) : Sentence Q :=
  {| sentence := new_TextArtifact s; index := i;
     combined_sentence := Some {| value := s; embedding := Some e |};
     distance_to_next := None |}.

Definition example_units : list (Sentence Q) :=
  [unit_of (py "a") 0; unit_of (py "b") 1; unit_of (py "c") 2].

Definition example_vectors : list (list Q) := [[1; 0]; [0; 1]; [0; 2]]%Q.

Definition example_embedded : list (Sentence Q) :=
  [ with_vector (py "a") 0 [1; 0]%Q; with_vector (py "b") 1 [0; 1]%Q;
    with_vector (py "c") 2 [0; 2]%Q ].




Definition example_chunks : list (TextArtifact Q) :=
  [chunk (py "Go. Now we go on."); chunk (py "Stop!");
   chunk (py "Why not? Ok.")].

End Notions.

(** * Properties *)

(** ** Python strings *)

Module PyStrFacts.
Import PyStr Notions.

Lemma char_eqb_eq (a b : char) : char_eqb a b = true ↔ a = b.
Proof. apply N.eqb_eq. Qed.

Lemma startswith_elem (w s : str) (c : char) :
  startswith w s = true → c ∈ w → c ∈ s.
Proof.
  revert s. induction w as [|a w IH]; intros [|b s] Hs Hc; simpl in *;
    try discriminate; try (by apply elem_of_nil in Hc).
  apply andb_true_iff in Hs as [Hab Hs]. apply char_eqb_eq in Hab as ->.
  apply elem_of_cons in Hc as [->|Hc]; [left|right; eauto].
Qed.

(** A word with a character that [s] lacks does not occur in [s]. *)
Lemma contains_elem (w s : str) (c : char) :
  c ∈ w → c ∉ s → contains w s = false.
Proof.
  intros Hc. induction s as [|b s IH]; intros Hs.
  - destruct w; [by apply elem_of_nil in Hc|done].
  - simpl. apply orb_false_iff. split.
    + destruct (startswith w (b :: s)) eqn:E; [|done].
      destruct Hs. eapply startswith_elem; eauto.
    + apply IH. intros ?. apply Hs. by right.
Qed.

Lemma contains_cons (w : str) (b : char) (s : str) :
  contains w (b :: s) = false →
  startswith w (b :: s) = false ∧ contains w s = false.
Proof. simpl. by intros ?%orb_false_iff. Qed.

(** Replacing a word that does not occur changes nothing. *)
Lemma replace_absent (old new s : str) :
  contains old s = false → replace old new s = s.
Proof.
  unfold replace. induction s as [|b s IH]; [done|].
  intros [Hw Hs]%contains_cons. cbn [replace_from]. rewrite Hw.
  by rewrite IH.
Qed.

(** Splitting at a separator that does not occur gives one field. *)
Lemma split_from_absent (sep s cur : str) :
  contains sep s = false → split_from sep s cur 0 = [rev cur ++ s].
Proof.
  revert cur. induction s as [|b s IH]; intros cur.
  - intros _. simpl. by rewrite app_nil_r.
  - intros [Hw Hs]%contains_cons. cbn [split_from]. rewrite Hw.
    rewrite IH by done. simpl. by rewrite <- app_assoc.
Qed.

Lemma split_absent (sep s : str) :
  contains sep s = false → split sep s = [s].
Proof. intros ?. unfold split. by rewrite split_from_absent. Qed.

(** [s.replace(a, b)] for single characters is a map over [s]. *)
Lemma replace_char (a b : char) (s : str) :
  replace [a] [b] s = map (λ c, if char_eqb a c then b else c) s.
Proof.
  unfold replace. induction s as [|c s IH]; [done|].
  cbn [replace_from startswith map length]. rewrite andb_true_r.
  destruct (char_eqb a c); simpl; by rewrite IH.
Qed.

(** An occurrence of [w] in the image of [s] under a map that creates no
    character of [w] is an occurrence in [s]. *)
Lemma startswith_map (f : char → char) (w s : str) :
  (∀ c, f c ∈ w → f c = c) →
  startswith w (map f s) = true → startswith w s = true.
Proof.
  revert s. induction w as [|a w IH]; intros [|b s] Hf; simpl; try done.
  intros [Hab Hs]%andb_true_iff. apply char_eqb_eq in Hab.
  apply andb_true_iff. split.
  - apply char_eqb_eq. rewrite Hab. apply Hf. rewrite <- Hab. by left.
  - apply IH; [|done]. intros c Hc. apply Hf. by right.
Qed.

Lemma contains_map (f : char → char) (w s : str) :
  (∀ c, f c ∈ w → f c = c) →
  contains w s = false → contains w (map f s) = false.
Proof.
  intros Hf. induction s as [|b s IH].
  - simpl. by destruct w.
  - intros [Hw Hs]%contains_cons. cbn [map contains].
    apply orb_false_iff. split; [|by apply IH].
    destruct (startswith w (map f (b :: s))) eqn:E; [|done].
    apply startswith_map in E; [|done]. congruence.
Qed.

(** A non-empty word that shares no character with [u] does not reach
    into [u]. *)
Lemma startswith_app (w s u : str) :
  w ≠ [] → (∀ c, c ∈ w → c ∉ u) →
  startswith w (s ++ u) = true → startswith w s = true.
Proof.
  revert w. induction s as [|b s IH]; intros [|a w] Hne Hu; try done.
  - rewrite app_nil_l. intros H. exfalso. apply (Hu a); [by left|].
    eapply startswith_elem; [exact H|by left].
  - simpl. intros [Hab Hs]%andb_true_iff. rewrite Hab. simpl.
    destruct w as [|a' w]; [done|].
    apply IH; [done| |done]. intros c Hc. apply Hu. by right.
Qed.

Lemma contains_app (w s u : str) :
  w ≠ [] → (∀ c, c ∈ w → c ∉ u) →
  contains w s = false → contains w (s ++ u) = false.
Proof.
  intros Hne Hu. induction s as [|b s IH].
  - intros _. simpl. destruct w as [|a w]; [done|].
    apply (contains_elem _ _ a); [by left|]. apply Hu. by left.
  - intros [Hw Hs]%contains_cons. cbn [app contains].
    apply orb_false_iff. split; [|by apply IH].
    destruct (startswith w ((b :: s) ++ u)) eqn:E; [|done].
    apply startswith_app in E; [congruence|done|done].
Qed.

(** *** Stripping *)

Lemma lstrip_head (s : str) c s' : lstrip s = c :: s' → isspace c = false.
Proof.
  induction s as [|b s IH]; [done|]. simpl.
  destruct (isspace b) eqn:E; [done|]. by intros [= <- _].
Qed.

Lemma lstrip_suffix (s : str) : lstrip s `suffix_of` s.
Proof.
  induction s as [|b s IH]; [done|]. simpl.
  destruct (isspace b); [by apply suffix_cons_r|done].
Qed.

(** Stripping on the left leaves the last character in place. *)
Lemma lstrip_last (s : str) c s' :
  lstrip s = s' ++ [c] → ∃ s'', s = s'' ++ [c].
Proof.
  intros E. destruct (lstrip_suffix s) as [k Hk]. rewrite E in Hk.
  exists (k ++ s'). by rewrite <- app_assoc.
Qed.

Lemma strip_trimmed (s : str) : trimmed (strip s).
Proof.
  unfold strip, rstrip. split; intros c s' E.
  - (* the first character of the result is a character that [lstrip]
       kept at the front, or one further right *)
    apply (f_equal (@rev _)) in E. rewrite rev_involutive in E.
    simpl in E. apply lstrip_last in E as [s'' E].
    apply (f_equal (@rev _)) in E.
    rewrite rev_involutive, rev_app_distr in E. simpl in E.
    by apply lstrip_head in E.
  - apply (f_equal (@rev _)) in E.
    rewrite rev_involutive, rev_app_distr in E. simpl in E.
    by apply lstrip_head in E.
Qed.

Lemma lstrip_space (c : char) (s : str) :
  isspace c = true → lstrip (c :: s) = lstrip s.
Proof. simpl. by intros ->. Qed.

Lemma rstrip_space (c : char) (s : str) :
  isspace c = true → rstrip (s ++ [c]) = rstrip s.
Proof.
  intros Hc. unfold rstrip. rewrite rev_app_distr. simpl. by rewrite Hc.
Qed.

Lemma lstrip_app_space (c : char) (s : str) :
  isspace c = true → rstrip (lstrip (s ++ [c])) = rstrip (lstrip s).
Proof.
  intros Hc. induction s as [|b s IH].
  - simpl. rewrite Hc. done.
  - simpl. destruct (isspace b); [done|].
    by rewrite app_comm_cons, rstrip_space.
Qed.

(** Whitespace around a text does not change what [strip] returns. *)
Lemma strip_pad (a b c : char) (s : str) :
  isspace a = true → isspace b = true → isspace c = true →
  strip ([a] ++ s ++ [b; c]) = strip s.
Proof.
  intros Ha Hb Hc. unfold strip. simpl. rewrite Ha.
  replace (s ++ [b; c]) with ((s ++ [b]) ++ [c]) by by rewrite <- app_assoc.
  by rewrite !lstrip_app_space.
Qed.

End PyStrFacts.

(** ** The matcher on texts that lack a character the pattern needs *)

Module ReFacts.
Import PyStr Re Notions PyStrFacts.

Lemma not_elem_of_drop (d : char) (n : nat) (s : str) :
  d ∉ s → d ∉ drop n s.
Proof. intros Hs Hd. apply Hs. by apply (subseteq_drop n s). Qed.

Section Fail.
Context {A : Type}.
Implicit Types k : str → captures → option A.

Lemma many_try_fail d k s g n extra :
  d ∉ s → (∀ s' g', d ∉ s' → k s' g' = None) →
  many_try k s g n extra = None.
Proof.
  intros Hs Hk.
  induction extra as [|e IH]; simpl; (rewrite Hk; [done|]);
    by apply not_elem_of_drop.
Qed.

(** A continuation that fails on every text without [d] makes the
    whole match fail on such a text. *)
Lemma rmatch_fail d r : ∀ s g k,
  d ∉ s → (∀ s' g', d ∉ s' → k s' g' = None) → rmatch r s g k = None.
Proof.
  induction r as [c|p|w|r1 IH1 r2 IH2|r1 IH1 r2 IH2|r1 IH1|n p|i r1 IH1];
    intros s g k Hs Hk; simpl.
  - destruct s as [|c' s']; [done|]. destruct (char_eqb c c'); [|done].
    apply Hk. intros ?. apply Hs. by right.
  - destruct s as [|c' s']; [done|]. destruct (p c'); [|done].
    apply Hk. intros ?. apply Hs. by right.
  - destruct (startswith w s); [|done]. apply Hk. by apply not_elem_of_drop.
  - apply IH1; [done|]. intros s' g' Hs'. by apply IH2.
  - rewrite IH1 by done. by apply IH2.
  - rewrite IH1 by done. by apply Hk.
  - destruct (n <=? run_length p s)%nat; [|done].
    by apply (many_try_fail d).
  - apply IH1; [done|]. intros s' g' Hs'. by apply Hk.
Qed.

Lemma run_length_absent d p s :
  (∀ c, p c = true → c = d) → d ∉ s → run_length p s = 0%nat.
Proof.
  intros Hp Hs. destruct s as [|c s]; [done|]. simpl.
  destruct (p c) eqn:E; [|done]. apply Hp in E as ->.
  destruct Hs. by left.
Qed.

(** A pattern that needs [d] matches nowhere in a text without [d],
    whatever follows it. *)
Lemma rmatch_needs d r : needs d r → ∀ s g k,
  d ∉ s → rmatch r s g k = None.
Proof.
  induction 1 as [|w Hw|r1 r2 _ IH|r1 r2 _ IH|r1 r2 _ IH1 _ IH2|n p Hp
                 |i r _ IH]; intros s g k Hs; simpl.
  - destruct s as [|c' s']; [done|].
    destruct (char_eqb d c') eqn:E; [|done].
    apply char_eqb_eq in E as <-. destruct Hs. by left.
  - destruct (startswith w s) eqn:E; [|done].
    destruct Hs. by eapply startswith_elem.
  - by apply IH.
  - apply (rmatch_fail d); [done|]. intros s' g' Hs'. by apply IH.
  - rewrite IH1 by done. by apply IH2.
  - by rewrite (run_length_absent d).
  - by apply IH.
Qed.
End Fail.

(** *** Every match takes at least [min_len] characters *)

Lemma startswith_length (w s : str) :
  startswith w s = true → length w ≤ length s.
Proof.
  revert s. induction w as [|a w IH]; intros [|b s]; simpl; try done; [lia|].
  intros [_ Hs]%andb_true_iff. apply IH in Hs. lia.
Qed.

Lemma run_length_le (p : char → bool) (s : str) : run_length p s ≤ length s.
Proof.
  induction s as [|c s IH]; [done|]. simpl. destruct (p c); simpl; lia.
Qed.

Lemma many_try_consumes {A} (k : str → captures → option A) s g n extra x :
  n + extra ≤ length s → many_try k s g n extra = Some x →
  ∃ s' g', k s' g' = Some x ∧ length s' + n ≤ length s.
Proof.
  induction extra as [|e IH]; intros Hlen; simpl;
    destruct (k (drop _ s) g) eqn:E; try done.
  - intros [= <-]. exists (drop (n + 0) s), g. rewrite length_drop.
    split; [done|lia].
  - intros [= <-]. exists (drop (n + S e) s), g. rewrite length_drop.
    split; [done|lia].
  - intros Hx. apply IH; [lia|done].
Qed.

Lemma rmatch_consumes {A} (r : regex) :
  ∀ s g (k : str → captures → option A) x,
  rmatch r s g k = Some x →
  ∃ s' g', k s' g' = Some x ∧ length s' + min_len r ≤ length s.
Proof.
  induction r as [c|p|w|r1 IH1 r2 IH2|r1 IH1 r2 IH2|r1 IH1|n p|i r1 IH1];
    intros s g k x; simpl.
  - destruct s as [|c' s']; [done|]. destruct (char_eqb c c'); [|done].
    intros Hk. exists s', g. split; [done|simpl; lia].
  - destruct s as [|c' s']; [done|]. destruct (p c'); [|done].
    intros Hk. exists s', g. split; [done|simpl; lia].
  - destruct (startswith w s) eqn:E; [|done].
    apply startswith_length in E. intros Hk.
    exists (drop (length w) s), g. rewrite length_drop. split; [done|lia].
  - intros (s1 & g1 & (s2 & g2 & Hk & H2)%IH2 & H1)%IH1.
    exists s2, g2. split; [done|lia].
  - destruct (rmatch r1 s g k) eqn:E.
    + intros [= <-]. apply IH1 in E as (s' & g' & Hk & H1).
      exists s', g'. split; [done|lia].
    + intros (s' & g' & Hk & H2)%IH2. exists s', g'. split; [done|lia].
  - destruct (rmatch r1 s g k) eqn:E.
    + intros [= <-]. apply IH1 in E as (s' & g' & Hk & H1).
      exists s', g'. split; [done|lia].
    + intros Hk. exists s, g. split; [done|lia].
  - destruct (Nat.leb_spec n (run_length p s)); [|done].
    apply many_try_consumes. pose proof (run_length_le p s). lia.
  - intros (s' & g' & Hk & H1)%IH1. eexists s', _. split; [exact Hk|lia].
Qed.

(** A pattern of positive [min_len] has no empty match: the case of
    [sub_from] for such a match is never taken. *)
Lemma match_at_consumes (r : regex) (s rest : str) (g : captures) :
  1 ≤ min_len r → match_at r s = Some (rest, g) → length rest < length s.
Proof.
  intros Hr (s' & g' & [= <- <-] & Hlen)%rmatch_consumes. lia.
Qed.

(** [re.sub] leaves such a text as it is. *)
Lemma sub_needs (d : char) (r : regex) repl (s : str) :
  needs d r → d ∉ s → sub r repl s = s.
Proof.
  intros Hr. unfold sub. induction s as [|c s IH]; intros Hs; [done|].
  cbn [sub_from]. unfold match_at. rewrite (rmatch_needs d) by done.
  rewrite IH; [done|]. intros ?. apply Hs. by right.
Qed.

End ReFacts.

(** ** The sentence splitter *)

Module SplitterFacts.
Import PyStr Re Splitter Notions PyStrFacts ReFacts.

Create HintDb needs.
#[local] Hint Constructors needs : needs.

(** No pattern of the splitter has an empty match. *)
Lemma patterns_consume : Forall (λ r, 1 ≤ min_len r) patterns.
Proof. repeat constructor; vm_compute; lia. Qed.

(** Every pattern of the splitter has a literal period. *)
Lemma needs_dot_multiple_dots : needs ch_dot multiple_dots.
Proof. constructor. intros c Hc. by apply char_eqb_eq in Hc. Qed.

Lemma needs_dot_patterns :
  Forall (needs ch_dot)
    [ prefixes; websites; re_decimal; re_initial; re_acronym_starter;
      re_abc3; re_abc2; re_suffix_starter; re_suffix; re_letter ].
Proof.
  repeat first [apply List.Forall_cons | apply List.Forall_nil];
    unfold prefixes, websites, re_decimal, re_initial, re_acronym_starter,
      re_abc3, re_abc2, re_suffix_starter, re_suffix, re_letter, acronyms;
    eauto 8 with needs.
Qed.

Lemma normalize_map (text : str) :
  normalize text =
  [ch_space] ++ map nl_to_space text ++ [ch_space; ch_space].
Proof. unfold normalize. by rewrite replace_char, !map_app. Qed.

Lemma nl_to_space_inv (c d : char) :
  d ≠ ch_space → nl_to_space c = d → c = d.
Proof. unfold nl_to_space. destruct (char_eqb ch_newline c); congruence. Qed.

Lemma normalize_elem (d : char) (text : str) :
  d ≠ ch_space → d ∉ text → d ∉ normalize text.
Proof.
  intros Hd Ht. rewrite normalize_map. intros Hin.
  rewrite !elem_of_app, list_elem_of_fmap in Hin.
  destruct Hin as [Hin|[(c & Hc & Hin)|Hin]].
  - apply list_elem_of_singleton in Hin. done.
  - symmetry in Hc. apply nl_to_space_inv in Hc as ->; done.
  - rewrite !elem_of_cons in Hin. destruct Hin as [?|[?|Hin]]; try done.
    by apply elem_of_nil in Hin.
Qed.

Lemma normalize_contains (w text : str) :
  w ≠ [] → ch_space ∉ w →
  contains w text = false → contains w (normalize text) = false.
Proof.
  intros Hne Hsp Ht. rewrite normalize_map.
  change ([ch_space] ++ ?l) with (ch_space :: l). cbn [contains].
  apply orb_false_iff. split.
  - destruct w as [|a w]; [done|]. simpl.
    destruct (char_eqb a ch_space) eqn:E; [|done].
    apply char_eqb_eq in E as ->. destruct Hsp. by left.
  - apply contains_app; [done| |].
    + intros c Hc Hin. rewrite !elem_of_cons in Hin.
      destruct Hin as [->|[->|Hin]]; try done. by apply elem_of_nil in Hin.
    + apply contains_map; [|done]. intros c Hc. symmetry.
      apply (nl_to_space_inv c (nl_to_space c)); [|done].
      intros E. by rewrite E in Hc.
Qed.

Lemma strip_normalize (text : str) :
  strip (normalize text) = strip (replace [ch_newline] [ch_space] text).
Proof. rewrite normalize_map, replace_char. by apply strip_pad. Qed.

(** A text without [.], [?], [!] and without the two markers goes
    through the splitter unchanged up to the padding, the newlines and
    the final [strip]. *)
Lemma split_plain (text : str) :
  ch_dot ∉ text → ch_qmark ∉ text → ch_bang ∉ text →
  contains prd text = false → contains stop text = false →
  split_into_sentences text =
    drop_last_empty [strip (replace [ch_newline] [ch_space] text)].
Proof.
  intros Hdot Hq Hb Hprd Hstop. unfold split_into_sentences.
  fold (normalize text).
  assert (Hd : ch_dot ∉ normalize text) by by apply normalize_elem.
  assert (Hq' : ch_qmark ∉ normalize text) by by apply normalize_elem.
  assert (Hb' : ch_bang ∉ normalize text) by by apply normalize_elem.
  assert (Hprd' : contains prd (normalize text) = false).
  { apply normalize_contains; [done| |done]. compute_done. }
  assert (Hstop' : contains stop (normalize text) = false).
  { apply normalize_contains; [done| |done]. compute_done. }
  pose proof needs_dot_patterns as Hp.
  repeat match type of Hp with
         | Forall _ (_ :: _) => apply Forall_cons in Hp as [? Hp]
         end.
  assert (Hw : ∀ w new, ch_dot ∈ w →
            replace w new (normalize text) = normalize text).
  { intros w new Hw. apply replace_absent. by apply (contains_elem _ _ ch_dot). }
  assert (Hx : ∀ c, c ∉ normalize text → contains [c] (normalize text) = false).
  { intros c Hc. apply (contains_elem _ _ c); [by left|done]. }
  assert (Hif : ∀ (b : bool) (x : str), (if b then x else x) = x)
    by by intros [].
  rewrite (sub_needs ch_dot prefixes) by done.
  rewrite (sub_needs ch_dot websites) by done.
  rewrite (sub_needs ch_dot re_decimal) by done.
  rewrite (sub_needs ch_dot multiple_dots)
    by (done || apply needs_dot_multiple_dots).
  rewrite (Hw (py "Ph.D.")), Hif by compute_done.
  rewrite (sub_needs ch_dot re_initial) by done.
  rewrite (sub_needs ch_dot re_acronym_starter) by done.
  rewrite (sub_needs ch_dot re_abc3) by done.
  rewrite (sub_needs ch_dot re_abc2) by done.
  rewrite (sub_needs ch_dot re_suffix_starter) by done.
  rewrite (sub_needs ch_dot re_suffix) by done.
  rewrite (sub_needs ch_dot re_letter) by done.
  rewrite (Hw [ch_dot; ch_rdquote]), Hif by compute_done.
  rewrite (Hw [ch_dot; ch_dquote]), Hif by compute_done.
  rewrite (Hx ch_bang), (Hx ch_qmark) by done.
  rewrite (Hw [ch_dot]) by compute_done.
  rewrite (replace_absent [ch_qmark]) by by apply Hx.
  rewrite (replace_absent [ch_bang]) by by apply Hx.
  rewrite (replace_absent prd) by done.
  rewrite split_absent by done.
  simpl map. by rewrite strip_normalize.
Qed.

(** C7: the scenario of the three sentences. *)
Theorem split_scenario_three_sentences :
  split_into_sentences
    (py "Dr. Smith went to Washington. He met Mrs. Jones there. They discussed A.I. ethics extensively.")
  = [ py "Dr. Smith went to Washington.";
      py "He met Mrs. Jones there.";
      py "They discussed A.I. ethics extensively." ].
Proof. vm_compute. reflexivity. Qed.

Lemma drop_last_empty_Forall (P : str → Prop) (l : list str) :
  Forall P l → Forall P (drop_last_empty l).
Proof.
  intros Hl. unfold drop_last_empty.
  destruct (last l) as [[|]|]; try done. by apply Forall_take.
Qed.

Lemma lstrip_blank (s : str) :
  (∀ c, c ∈ s → isspace c = true) → lstrip s = [].
Proof.
  induction s as [|b s IH]; [done|]. intros Hs. simpl.
  rewrite (Hs b) by by left. apply IH. intros c Hc. apply Hs. by right.
Qed.

(** A text of whitespace only has no sentence. *)
Lemma split_blank (text : str) :
  (∀ c, c ∈ text → isspace c = true) → split_into_sentences text = [].
Proof.
  intros Hs.
  assert (Hno : ∀ d, isspace d = false → d ∉ text).
  { intros d Hd Hin. apply Hs in Hin. congruence. }
  rewrite split_plain; try (apply Hno; reflexivity).
  - rewrite replace_char. unfold strip. rewrite lstrip_blank; [done|].
    intros c (b & -> & Hb)%list_elem_of_fmap. apply Hs in Hb.
    by destruct (char_eqb ch_newline b).
  - apply (contains_elem _ _ 60%N); [compute_done|]. by apply Hno.
  - apply (contains_elem _ _ 60%N); [compute_done|]. by apply Hno.
Qed.

(** C8, amended: a text with none of [.], [?], [!], and with neither of
    the markers [<prd>] and [<stop>], gives one sentence, the text with
    its newlines turned into spaces and stripped of the whitespace at its
    ends; or no sentence when nothing is left of it. *)
Theorem split_without_punctuation (text : str) :
  ch_dot ∉ text → ch_qmark ∉ text → ch_bang ∉ text →
  contains prd text = false → contains stop text = false →
  split_into_sentences text =
    match strip (replace [ch_newline] [ch_space] text) with
    | [] => []
    | c :: s => [c :: s]
    end.
Proof.
  intros. rewrite split_plain by done.
  by destruct (strip (replace [ch_newline] [ch_space] text)).
Qed.

Lemma split_without_punctuation_witness :
  split_into_sentences [32; 104; 105; 10; 121; 111; 117; 32]%N =
    match strip (replace [ch_newline] [ch_space]
                   [32; 104; 105; 10; 121; 111; 117; 32]%N) with
    | [] => []
    | c :: s => [c :: s]
    end.
Proof.
  apply (split_without_punctuation [32; 104; 105; 10; 121; 111; 117; 32]%N);
    first [reflexivity | compute_done].
Defined.

(** C8 as stated fails: a text without [.], [?], [!] that holds the
    marker [<stop>] is cut in two, one that holds [<prd>] comes back with
    a period, a blank text has no sentence, and the whitespace at the ends
    of a text is not kept. *)
Lemma split_without_punctuation_counterexample :
  let text := py "one<stop>two" in
  ((ch_dot ∉ text) ∧ (ch_qmark ∉ text) ∧ (ch_bang ∉ text)) ∧
  split_into_sentences text = [py "one"; py "two"] ∧
  split_into_sentences text ≠ [text] ∧
  split_into_sentences (py "a<prd>b") = [py "a.b"] ∧
  split_into_sentences (py "") = [] ∧
  split_into_sentences (py " a b ") = [py "a b"].
Proof.
  repeat split; try compute_done; try (vm_compute; reflexivity).
Qed.

(** *** A text that is not blank has a sentence *)

Lemma blank_or_inked (s : str) :
  (∀ c, c ∈ s → isspace c = true) ∨ inked s.
Proof.
  induction s as [|c s [IH|IH]].
  - left. by intros c Hc%elem_of_nil.
  - destruct (isspace c) eqn:E.
    + left. intros d [->|Hd]%elem_of_cons; [done|by apply IH].
    + right. by left.
  - right. by right.
Qed.

Lemma inked_not_blank (s : str) :
  inked s → ¬ (∀ c, c ∈ s → isspace c = true).
Proof.
  intros (c & Hc & E)%Exists_exists Hs. apply Hs in Hc. congruence.
Qed.

Lemma replace_from_inked (old new : str) : inked new → ∀ s skip,
  inked (drop skip s) → inked (replace_from old new s skip).
Proof.
  intros Hnew. induction s as [|c s IH]; intros skip Hs.
  { by rewrite drop_nil in Hs. }
  cbn [replace_from]. destruct skip as [|n]; [|by apply IH].
  destruct (startswith old (c :: s)).
  - apply Exists_app. by left.
  - apply Exists_cons in Hs as [Hc|Hs]; [by left|]. right. by apply IH.
Qed.

Lemma sub_from_inked (r : regex) (repl : str → captures → str) :
  (∀ m g, inked (repl m g)) → ∀ s skip,
  inked (drop skip s) → inked (sub_from r repl s skip).
Proof.
  intros Hrepl. induction s as [|c s IH]; intros skip Hs.
  { by rewrite drop_nil in Hs. }
  cbn [sub_from]. destruct skip as [|n]; [|by apply IH].
  assert (Hkeep : inked (c :: sub_from r repl s 0)).
  { apply Exists_cons in Hs as [Hc|Hs]; [by left|]. right. by apply IH. }
  destruct (match_at r (c :: s)) as [[rest g]|]; [|done].
  destruct (length (c :: s) - length rest); [done|].
  apply Exists_app. left. apply Hrepl.
Qed.

Lemma expand_inked (t : list piece) (w : str) (m : str) (g : captures) :
  T w ∈ t → inked w → inked (expand t m g).
Proof.
  intros Ht Hw. unfold expand. apply Exists_concat.
  apply Exists_exists. exists w. split; [|done].
  apply list_elem_of_In, in_map_iff. exists (T w).
  split; [done|]. by apply list_elem_of_In.
Qed.

Lemma normalize_inked (text : str) : inked text → inked (normalize text).
Proof.
  intros (c & Hc & E)%Exists_exists. rewrite normalize_map.
  apply Exists_app. right. apply Exists_app. left.
  apply Exists_exists. exists c. split; [|done].
  apply list_elem_of_In, in_map_iff. exists c.
  split; [|by apply list_elem_of_In].
  unfold nl_to_space. destruct (char_eqb ch_newline c) eqn:En; [|done].
  apply char_eqb_eq in En as <-. done.
Qed.

Lemma lstrip_inked (s : str) : inked s → inked (lstrip s).
Proof.
  induction s as [|c s IH]; [done|]. intros Hs. simpl.
  destruct (isspace c) eqn:E; [|done].
  apply Exists_cons in Hs as [Hc|Hs]; [congruence|by apply IH].
Qed.

Lemma strip_inked (s : str) : inked s → strip s ≠ [].
Proof.
  intros Hs. unfold strip, rstrip.
  assert (H : inked (rev (lstrip (rev (lstrip s))))).
  { apply Exists_rev, lstrip_inked, Exists_rev. by apply lstrip_inked. }
  intros E. rewrite E in H. by apply Exists_nil in H.
Qed.

Lemma split_from_length (sep : str) : ∀ s cur skip,
  1 ≤ length (split_from sep s cur skip).
Proof.
  induction s as [|c s IH]; intros cur skip; [simpl; lia|].
  cbn [split_from]. destruct skip; [|apply IH].
  destruct (startswith sep (c :: s)); [simpl; lia|apply IH].
Qed.

Lemma split_from_found (sep : str) : sep ≠ [] → ∀ s cur,
  contains sep s = true → 2 ≤ length (split_from sep s cur 0).
Proof.
  intros Hsep. induction s as [|c s IH]; intros cur Hs.
  - by destruct sep.
  - cbn [split_from]. destruct (startswith sep (c :: s)) eqn:E.
    + pose proof (split_from_length sep s [] (length sep - 1)).
      simpl. lia.
    + apply IH. cbn [contains] in Hs. by rewrite E in Hs.
Qed.

Lemma drop_last_empty_two (l : list str) :
  2 ≤ length l → drop_last_empty l ≠ [].
Proof.
  intros Hl. unfold drop_last_empty.
  destruct (last l) as [[|]|]; intros E%(f_equal length);
    rewrite ?length_take in E; simpl in E; lia.
Qed.

Lemma inked_head (c : char) (s : str) : isspace c = false → inked (c :: s).
Proof. intros Hc. by left. Qed.

Lemma replace_inked (old new s : str) :
  inked new → inked s → inked (replace_from old new s 0).
Proof. intros Hnew Hs. by apply replace_from_inked. Qed.

Lemma sub_inked (r : regex) (repl : str → captures → str) (s : str) :
  (∀ m g, inked (repl m g)) → inked s → inked (sub_from r repl s 0).
Proof. intros Hrepl Hs. by apply sub_from_inked. Qed.

Local Ltac inked_literal := refine (inked_head _ _ _); reflexivity.

Local Ltac piece_here :=
  solve [apply list_elem_of_In; simpl;
         repeat (first [left; reflexivity|right])].

(** One step of the splitter: what it writes is not blank. *)
Local Ltac inked_step :=
  first
    [ apply replace_inked; [inked_literal|]
    | apply sub_inked;
      [ intros m g;
        first [ apply (expand_inked _ prd); [piece_here|inked_literal]
              | apply (expand_inked _ stop); [piece_here|inked_literal]
              | apply Exists_app; right; inked_literal ] |]
    | match goal with
      | |- inked (if ?b then _ else _) => destruct b
      end ].

(** The text the splitter cuts at the markers is not blank when the
    text it was given is not. *)
Lemma split_into_sentences_inked (text : str) :
  inked text → split_into_sentences text ≠ [].
Proof.
  intros Htext%normalize_inked. unfold split_into_sentences.
  fold (normalize text). revert Htext. generalize (normalize text).
  intros x Hx.
  match goal with
  | |- drop_last_empty (map strip (split stop ?z)) ≠ [] =>
      assert (Hz : inked z); [|revert Hz; generalize z; clear; intros y Hy]
  end.
  { unfold replace, sub. repeat inked_step; exact Hx. }
  destruct (contains stop y) eqn:E.
  - apply drop_last_empty_two. rewrite length_map.
    by apply split_from_found.
  - rewrite split_absent by done. simpl map. unfold drop_last_empty.
    pose proof (strip_inked y Hy). simpl last.
    by destruct (strip y).
Qed.

(** C9, amended: every sentence the splitter returns is free of
    whitespace at both ends, and the sequence is empty exactly for the
    texts of whitespace only: a text with a character that is not
    whitespace has a sentence. *)
Theorem split_sentences_trimmed (text : str) :
  Forall trimmed (split_into_sentences text) ∧
  (split_into_sentences text = [] ↔ ∀ c, c ∈ text → isspace c = true).
Proof.
  split; [|split; [|apply split_blank]].
  - unfold split_into_sentences. apply drop_last_empty_Forall.
    apply Forall_fmap, Forall_true. intros s. apply strip_trimmed.
  - intros E. destruct (blank_or_inked text) as [Hb|Hi]; [done|].
    by apply split_into_sentences_inked in Hi.
Qed.

Lemma split_sentences_trimmed_witness :
  split_into_sentences [ch_space; ch_newline] = [] ∧
  ¬ (∀ c, c ∈ py " a. " → isspace c = true) ∧
  split_into_sentences (py " a. ") ≠ [].
Proof.
  split; [|split].
  - apply (proj2 (proj2 (split_sentences_trimmed [ch_space; ch_newline]))).
    intros c Hc. apply list_elem_of_In in Hc.
    destruct Hc as [<-|[<-|[]]]; reflexivity.
  - intros H. assert (Hin : 97%N ∈ py " a. ") by compute_done.
    apply H in Hin. discriminate Hin.
  - intros E. assert (Hin : 97%N ∈ py " a. ") by compute_done.
    apply (proj1 (proj2 (split_sentences_trimmed (py " a. "))) E) in Hin.
    discriminate Hin.
Defined.

(** C9 as stated fails: the empty text has no sentence, and the text
    [A.B.C.D. He said.] has an empty second sentence. *)
Lemma split_sentences_counterexample :
  split_into_sentences (py "") = [] ∧
  split_into_sentences (py "A.B.C.D. He said.")
  = [py "A.B.C.D."; []; py "He said."].
Proof. split; vm_compute; reflexivity. Qed.

End SplitterFacts.


(** ** The chunker *)

Module ChunkerFacts.
Import PyStr Splitter Chunker Notions.

Section WithNumeric.
Context {F : Type} `{!Numeric F}.

Abbreviation ret a := (@Chunker.ret F _ a).
Abbreviation raise e := (@Chunker.raise F _ e).
Abbreviation bind m f := (@Chunker.bind F _ _ m f).
Abbreviation call e r := (@Chunker.call F _ e r).
Abbreviation for_ l s body := (@Chunker.for_ F _ _ l s body).
Abbreviation getitem l j := (@Chunker.getitem F _ l j).
Abbreviation _text_to_sentences text := (@Chunker._text_to_sentences F text).
Notation "'let*' x ':=' m 'in' k" := (bind m (λ x, k))
  (at level 10, x pattern, m at level 100, k at level 200).
Abbreviation M := (Chunker.M F).
Abbreviation event := (Chunker.event F).
Abbreviation TextArtifact := (Chunker.TextArtifact F).
Abbreviation Sentence := (Chunker.Sentence F).
Abbreviation SemanticChunker := (Chunker.SemanticChunker F).
Abbreviation windowed := (@Notions.windowed F).

(** *** The monad *)

Lemma bind_ret {A B} (a : A) (f : A → M B) : bind (ret a) f = f a.
Proof. unfold bind, ret. by destruct (f a). Qed.

Lemma bind_raise {A B} (e : exception) (f : A → M B) :
  bind (raise e) f = raise e.
Proof. done. Qed.

Lemma bind_Ok {A B} (m : M A) (f : A → M B) t b :
  bind m f = (t, Ok b) →
  ∃ t1 a t2, m = (t1, Ok a) ∧ f a = (t2, Ok b) ∧ t = t1 ++ t2.
Proof.
  destruct m as [t1 [a|e]]; simpl; [|done].
  destruct (f a) as [t2 r] eqn:E. intros [= <- ->]. by exists t1, a, t2.
Qed.

(** A loop whose body keeps an invariant and makes no call. *)
Lemma for_invariant {X St} (I : nat → St → Prop) (l : list X)
    (body : X → St → M St) : ∀ s,
  I 0%nat s →
  (∀ n x s, l !! n = Some x → I n s → ∃ s', body x s = ret s' ∧ I (S n) s') →
  ∃ s', for_ l s body = ret s' ∧ I (length l) s'.
Proof.
  revert I. induction l as [|x l IH]; intros I s H0 Hstep; simpl.
  - by exists s.
  - destruct (Hstep 0%nat x s) as (s1 & -> & H1); [done..|].
    rewrite bind_ret. apply (IH (λ n, I (S n))); [done|].
    intros n y s2 Hy. by apply (Hstep (S n)).
Qed.

(** *** Indexing and slices *)

Lemma getitem_lookup {A} (l : list A) (j : Z) (x : A) :
  (0 ≤ j)%Z → l !! Z.to_nat j = Some x → getitem l j = ret x.
Proof.
  intros Hj Hx. unfold getitem.
  destruct (Z.ltb_spec j 0); [lia|].
  destruct (Z.ltb_spec j 0); [lia|]. by rewrite Hx.
Qed.

Lemma slice_nil {A} (l : list A) (a b : nat) : b ≤ a → slice l a b = [].
Proof. intros. unfold slice. by replace (b - a) with 0 by lia. Qed.

Lemma slice_ge {A} (l : list A) (a b : nat) : length l ≤ a → slice l a b = [].
Proof. intros. unfold slice. rewrite drop_ge by done. by destruct (b - a). Qed.

Lemma slice_cons {A} (l : list A) (a b : nat) (x : A) :
  l !! a = Some x → a < b → slice l a b = x :: slice l (S a) b.
Proof.
  intros Hx Hab. unfold slice.
  rewrite (drop_S l x a) by done.
  replace (b - a) with (S (b - S a)) by lia. done.
Qed.

Lemma slice_app {A} (l : list A) (a b c : nat) :
  a ≤ b → b ≤ c → slice l a c = slice l a b ++ slice l b c.
Proof.
  intros Hab Hbc. unfold slice.
  replace (c - a) with ((b - a) + (c - b)) by lia.
  rewrite <- take_take_drop, drop_drop. do 3 f_equal. lia.
Qed.

Lemma slice_clip {A} (l : list A) (a b : nat) :
  slice l a b = slice l a (b `min` length l).
Proof.
  unfold slice. destruct (decide (b ≤ length l)).
  - by rewrite Nat.min_l by done.
  - rewrite Nat.min_r by lia.
    rewrite !take_ge; [done|rewrite length_drop; lia..].
Qed.

(** *** Joining *)

Lemma join_cons (sep x : str) (l : list str) :
  join sep (x :: l) = x ++ concat (map (λ v, sep ++ v) l).
Proof.
  revert x. induction l as [|y l IH]; intros x.
  - simpl. by rewrite app_nil_r.
  - change (join sep (x :: y :: l)) with (x ++ sep ++ join sep (y :: l)).
    rewrite IH. simpl. by rewrite <- app_assoc.
Qed.

Lemma join_middle (sep x : str) (l1 l2 : list str) :
  join sep (l1 ++ x :: l2) =
  concat (map (λ v, v ++ sep) l1) ++ x ++ concat (map (λ v, sep ++ v) l2).
Proof.
  induction l1 as [|y l1 IH]; [apply join_cons|].
  simpl. destruct (l1 ++ x :: l2) eqn:E.
  - by destruct l1.
  - rewrite IH. by rewrite <- !app_assoc.
Qed.

(** *** The windows of [_combine_sentences] *)

Lemma sentence_values_lookup (st : list Sentence) (j : nat) (s : Sentence) :
  st !! j = Some s → sentence_values st !! j = Some (value (sentence s)).
Proof. intros Hs. unfold sentence_values. by rewrite list_lookup_fmap, Hs. Qed.

(** The loop over the sentences before the current one. *)
Lemma before_loop (st : list Sentence) (k : nat) : ∀ (lo : Z) (acc : str),
  (lo + Z.of_nat k ≤ len st)%Z →
  for_ (seqZ lo (Z.of_nat k)) acc
    (λ j combined_sentence,
       if (j >=? 0)%Z
       then let* sj := getitem st j in
            ret (combined_sentence ++ (value (sentence sj) ++ [ch_space]))
       else ret combined_sentence)
  = ret (acc ++ concat (map (λ v, v ++ [ch_space])
           (slice (sentence_values st) (Z.to_nat lo)
                  (Z.to_nat (lo + Z.of_nat k))))).
Proof.
  unfold len. induction k as [|k IH]; intros lo acc Hlo.
  - simpl. rewrite slice_nil by lia. simpl. by rewrite app_nil_r.
  - rewrite seqZ_cons by lia. cbn [for_].
    replace (Z.pred (Z.of_nat (S k))) with (Z.of_nat k) by lia.
    destruct (Z.geb_spec lo 0) as [Hge|Hlt].
    + destruct (lookup_lt_is_Some_2 st (Z.to_nat lo)) as [s Hs]; [lia|].
      rewrite (getitem_lookup st lo s), !bind_ret by done.
      rewrite IH by lia.
      rewrite (slice_cons _ (Z.to_nat lo) _ (value (sentence s)));
        [|by apply sentence_values_lookup|lia].
      simpl. rewrite <- !app_assoc.
      by replace (S (Z.to_nat lo)) with (Z.to_nat (Z.succ lo)) by lia;
         replace (Z.succ lo + Z.of_nat k)%Z with (lo + Z.of_nat (S k))%Z by lia.
    + rewrite bind_ret, IH by lia.
      by replace (Z.to_nat (Z.succ lo)) with (Z.to_nat lo) by lia;
         replace (Z.succ lo + Z.of_nat k)%Z with (lo + Z.of_nat (S k))%Z by lia.
Qed.

(** The loop over the sentences after the current one. *)
Lemma after_loop (st : list Sentence) (k : nat) : ∀ (lo : Z) (acc : str),
  (0 ≤ lo)%Z →
  for_ (seqZ lo (Z.of_nat k)) acc
    (λ j combined_sentence,
       if (j <? len st)%Z
       then let* sj := getitem st j in
            ret (combined_sentence ++ ([ch_space] ++ value (sentence sj)))
       else ret combined_sentence)
  = ret (acc ++ concat (map (λ v, [ch_space] ++ v)
           (slice (sentence_values st) (Z.to_nat lo)
                  (Z.to_nat (lo + Z.of_nat k))))).
Proof.
  unfold len. induction k as [|k IH]; intros lo acc Hlo.
  - simpl. rewrite slice_nil by lia. simpl. by rewrite app_nil_r.
  - rewrite seqZ_cons by lia. cbn [for_].
    replace (Z.pred (Z.of_nat (S k))) with (Z.of_nat k) by lia.
    destruct (Z.ltb_spec lo (Z.of_nat (length st))) as [Hlt|Hge].
    + destruct (lookup_lt_is_Some_2 st (Z.to_nat lo)) as [s Hs]; [lia|].
      rewrite (getitem_lookup st lo s), !bind_ret by done.
      rewrite IH by lia.
      rewrite (slice_cons _ (Z.to_nat lo) _ (value (sentence s)));
        [|by apply sentence_values_lookup|lia].
      cbn [map concat]. rewrite <- !app_assoc.
      by replace (S (Z.to_nat lo)) with (Z.to_nat (Z.succ lo)) by lia;
         replace (Z.succ lo + Z.of_nat k)%Z with (lo + Z.of_nat (S k))%Z by lia.
    + rewrite bind_ret, IH by lia.
      rewrite !(slice_ge (sentence_values st));
        [done|unfold sentence_values; rewrite length_map; lia..].
Qed.

(** The text the two loops build is the window of the specification. *)
Lemma window_text (vals : list str) (b : Z) (n : nat) (v : str) :
  (0 ≤ b)%Z → vals !! n = Some v →
  (concat (map (λ v, v ++ [ch_space])
     (slice vals (Z.to_nat (Z.of_nat n - b)) n)) ++ v) ++
  concat (map (λ v, [ch_space] ++ v)
     (slice vals (S n) (Z.to_nat (Z.of_nat n + 1 + b))))
  = window vals b n.
Proof.
  intros Hb Hv. pose proof (lookup_lt_Some _ _ _ Hv) as Hn.
  unfold window. fold (slice vals (Z.to_nat (0 `max` (Z.of_nat n - b)))
    (Z.to_nat ((Z.of_nat (length vals) - 1) `min` (Z.of_nat n + b)) + 1)).
  replace (Z.to_nat (0 `max` (Z.of_nat n - b))) with (Z.to_nat (Z.of_nat n - b))
    by lia.
  set (hi := Z.to_nat ((Z.of_nat (length vals) - 1) `min` (Z.of_nat n + b))).
  rewrite (slice_app vals _ n (hi + 1)) by lia.
  rewrite (slice_cons vals n (hi + 1) v) by (done || lia).
  rewrite join_middle, <- app_assoc. do 4 f_equal.
  rewrite (slice_clip vals (S n) (Z.to_nat _)). f_equal. lia.
Qed.

(** [_combine_sentences] makes no call, raises nothing, and returns the
    sentences with the windows as their combined texts. *)
Lemma combine_sentences_spec (sentences : list Sentence) (b : Z) :
  (0 ≤ b)%Z →
  _combine_sentences sentences b =
  ret (imap (λ i s, set_combined_sentence
                      (new_TextArtifact
                         (window (sentence_values sentences) b i)) s)
            sentences).
Proof.
  intros Hb. unfold _combine_sentences.
  set (G := λ (i : nat) s, set_combined_sentence
              (new_TextArtifact (window (sentence_values sentences) b i)) s).
  set (I := λ (n : nat) (st : list Sentence),
         length st = length sentences ∧
         ∀ j, st !! j = (if decide (j < n) then G j else id) <$> sentences !! j).
  match goal with
  | |- for_ ?l ?s ?body = _ =>
      destruct (for_invariant I l body s) as (st' & -> & Hlen & Hst)
  end.
  - split; [done|]. intros j. destruct (decide (j < 0)); [lia|].
    by rewrite option_fmap_id.
  - intros n x st [-> Hx]%lookup_seqZ [Hlen Hst]. unfold len in Hx.
    assert (Hvals : sentence_values st = sentence_values sentences).
    { unfold sentence_values. apply list_eq. intros j.
      rewrite !list_lookup_fmap, Hst.
      destruct (sentences !! j); [|done]. simpl. by destruct (decide _). }
    destruct (lookup_lt_is_Some_2 sentences n) as [s Hs]; [lia|].
    assert (Hsn : st !! n = Some s).
    { rewrite Hst, Hs. destruct (decide (n < n)); [lia|done]. }
    unfold range.
    replace (0 + Z.of_nat n - (0 + Z.of_nat n - b))%Z
      with (Z.of_nat (Z.to_nat b)) by lia.
    replace (0 + Z.of_nat n + 1 + b - (0 + Z.of_nat n + 1))%Z
      with (Z.of_nat (Z.to_nat b)) by lia.
    rewrite before_loop, bind_ret by (unfold len; lia).
    rewrite (getitem_lookup st _ s), bind_ret
      by (lia || by rewrite Z.add_0_l, Nat2Z.id).
    rewrite after_loop, bind_ret by lia.
    unfold setattr.
    rewrite (getitem_lookup st _ s), bind_ret
      by (lia || by rewrite Z.add_0_l, Nat2Z.id).
    eexists. split; [done|].
    rewrite Hvals, app_nil_l.
    replace (Z.to_nat (0 + Z.of_nat n - b + Z.of_nat (Z.to_nat b))) with n by lia.
    replace (Z.to_nat (0 + Z.of_nat n + 1)) with (S n) by lia.
    replace (0 + Z.of_nat n + 1 + Z.of_nat (Z.to_nat b))%Z
      with (Z.of_nat n + 1 + b)%Z by lia.
    replace (0 + Z.of_nat n - b)%Z with (Z.of_nat n - b)%Z by lia.
    rewrite (window_text _ b n (value (sentence s)))
      by (done || by apply sentence_values_lookup).
    replace (Z.to_nat (0 + Z.of_nat n)) with n by lia.
    split; [by rewrite length_insert|]. intros j.
    destruct (decide (j = n)) as [->|Hne].
    + rewrite list_lookup_insert_eq by lia. rewrite Hs.
      destruct (decide (n < S n)); [done|lia].
    + rewrite list_lookup_insert_ne by done. rewrite Hst.
      destruct (decide (j < n)), (decide (j < S n)); try done; lia.
  - f_equal. apply list_eq. intros j. rewrite Hst, list_lookup_imap.
    unfold range, len. rewrite length_seqZ.
    destruct (sentences !! j) eqn:E; [|done]. simpl.
    apply lookup_lt_Some in E. destruct (decide _); [done|lia].
Qed.

(** *** The loops of [_embed_sentences] and [_calculate_cosine_distances]
    as recursions over the list of sentences *)

Lemma bind_assoc {A B C} (m : M A) (f : A → M B) (g : B → M C) :
  bind (bind m f) g = bind m (λ a, bind (f a) g).
Proof.
  destruct m as [t [a|e]]; simpl; [|done].
  destruct (f a) as [t1 [b|e]]; simpl; [|done].
  destruct (g b) as [t2 r]. by rewrite app_assoc.
Qed.

Lemma bind_ret_r {A} (m : M A) : bind m (λ a, ret a) = m.
Proof. destruct m as [t [a|e]]; simpl; by rewrite ?app_nil_r. Qed.

Lemma bind_ext {A B} (m : M A) (f g : A → M B) :
  (∀ a, f a = g a) → bind m f = bind m g.
Proof. intros Hfg. destruct m as [t [a|e]]; simpl; by rewrite ?Hfg. Qed.

Lemma getitem_middle {A} (l1 l2 : list A) (x : A) :
  getitem (l1 ++ x :: l2) (Z.of_nat (length l1)) = ret x.
Proof.
  apply getitem_lookup; [lia|]. rewrite Nat2Z.id. by apply list_lookup_middle.
Qed.

Lemma setattr_middle (l1 l2 : list Sentence) (x : Sentence) f :
  setattr (l1 ++ x :: l2) (Z.of_nat (length l1)) f = ret (l1 ++ f x :: l2).
Proof.
  unfold setattr. rewrite getitem_middle, bind_ret, Nat2Z.id.
  by rewrite insert_app_r_alt, Nat.sub_diag by lia.
Qed.

Section Stages.
Variable self : SemanticChunker.
Abbreviation embed_list := (Notions.embed_list self).
Abbreviation embedded := (Notions.embedded self).
Abbreviation embed_each := (Notions.embed_each self).
Abbreviation unexpected_type := (Notions.unexpected_type self).
Abbreviation invalid_type := (Notions.invalid_type self).
Abbreviation measure := (Notions.measure self).

Lemma embed_loop (todo : list Sentence) : ∀ done : list Sentence,
  for_ (seqZ (Z.of_nat (length done)) (Z.of_nat (length todo)))
    (done ++ todo)
    (λ i sentences,
       let* sentence := getitem sentences i in
       match combined_sentence sentence with
       | None => raise AttributeError
       | Some c =>
           let* c' := generate_embedding self c in
           setattr sentences i (set_combined_sentence c')
       end)
  = let* rest := embed_list todo in ret (done ++ rest).
Proof.
  induction todo as [|u todo IH]; intros done.
  - rewrite seqZ_nil by (simpl; lia). cbn [for_ embed_list].
    by rewrite bind_ret.
  - rewrite seqZ_cons by (simpl; lia). cbn [for_ embed_list].
    rewrite getitem_middle, bind_ret.
    destruct (combined_sentence u) as [c|]; [|done].
    rewrite !bind_assoc. apply bind_ext. intros c'.
    rewrite setattr_middle, bind_ret, bind_assoc.
    replace (Z.succ (Z.of_nat (length done)))
      with (Z.of_nat (length (done ++ [set_combined_sentence c' u])))
      by (rewrite length_app; simpl; lia).
    replace (Z.pred (Z.of_nat (length (u :: todo))))
      with (Z.of_nat (length todo)) by (simpl; lia).
    replace (done ++ set_combined_sentence c' u :: todo)
      with ((done ++ [set_combined_sentence c' u]) ++ todo)
      by by rewrite <- app_assoc.
    rewrite IH. apply bind_ext. intros rest.
    by rewrite bind_ret, <- app_assoc.
Qed.

Lemma embed_sentences_list (us : list Sentence) :
  _embed_sentences self us = embed_list us.
Proof.
  unfold _embed_sentences, range, len.
  rewrite Z.sub_0_r. etrans; [apply (embed_loop us [])|]. apply bind_ret_r.
Qed.

Lemma embedding_of_middle (l1 l2 : list Sentence) (u : Sentence) :
  embedding_of (l1 ++ u :: l2) (Z.of_nat (length l1)) = emb u.
Proof. unfold embedding_of. by rewrite getitem_middle, bind_ret. Qed.

Lemma embedding_of_next (l1 l2 : list Sentence) (u u' : Sentence) :
  embedding_of (l1 ++ u :: u' :: l2) (Z.of_nat (length l1) + 1) = emb u'.
Proof.
  replace (l1 ++ u :: u' :: l2) with ((l1 ++ [u]) ++ u' :: l2)
    by by rewrite <- app_assoc.
  replace (Z.of_nat (length l1) + 1)%Z with (Z.of_nat (length (l1 ++ [u])))
    by (rewrite length_app; simpl; lia).
  apply embedding_of_middle.
Qed.

Lemma distances_loop (rest : list Sentence) :
  ∀ (u : Sentence) (done : list Sentence) (ds0 : list F),
  for_ (seqZ (Z.of_nat (length done)) (Z.of_nat (length rest)))
    (ds0, done ++ u :: rest)
    (λ i '(distances, sentences),
       let* embedding_current := embedding_of sentences i in
       let* embedding_next := embedding_of sentences (i + 1) in
       let* d := call (NpDot embedding_current embedding_next)
                      (np_dot embedding_current embedding_next) in
       let* n1 := call (NpNorm embedding_current)
                       (Ok (np_norm embedding_current)) in
       let* n2 := call (NpNorm embedding_next) (Ok (np_norm embedding_next)) in
       let similarity := fdiv d (fmul n1 n2) in
       let distance := fsub (of_Q 1) similarity in
       let distances := distances ++ [distance] in
       let* sentences := setattr sentences i (set_distance_to_next distance) in
       ret (distances, sentences))
  = let* r := distances_list (u :: rest) in ret (ds0 ++ r.1, done ++ r.2).
Proof.
  induction rest as [|u' rest IH]; intros u done ds0.
  - rewrite seqZ_nil by (simpl; lia). cbn [for_ distances_list].
    by rewrite bind_ret, app_nil_r.
  - rewrite seqZ_cons by (simpl; lia). cbn [for_ distances_list].
    rewrite (embedding_of_middle done (u' :: rest) u).
    rewrite (embedding_of_next done rest u u'). unfold cosine_distance.
    rewrite !bind_assoc. apply bind_ext. intros a.
    rewrite !bind_assoc. apply bind_ext. intros b.
    rewrite !bind_assoc. apply bind_ext. intros d.
    rewrite !bind_assoc. apply bind_ext. intros n1.
    rewrite !bind_assoc. apply bind_ext. intros n2.
    rewrite setattr_middle, !bind_ret, !bind_assoc.
    replace (Z.succ (Z.of_nat (length done)))
      with (Z.of_nat (length (done ++
              [set_distance_to_next (fsub (of_Q 1) (fdiv d (fmul n1 n2))) u])))
      by (rewrite length_app; simpl; lia).
    replace (Z.pred (Z.of_nat (length (u' :: rest))))
      with (Z.of_nat (length rest)) by (simpl; lia).
    replace (done ++ set_distance_to_next (fsub (of_Q 1) (fdiv d (fmul n1 n2))) u
               :: u' :: rest)
      with ((done ++ [set_distance_to_next
                        (fsub (of_Q 1) (fdiv d (fmul n1 n2))) u]) ++ u' :: rest)
      by by rewrite <- app_assoc.
    rewrite IH. apply bind_ext. intros r.
    rewrite bind_ret. cbn [fst snd]. by rewrite <- !app_assoc.
Qed.

Lemma cosine_distances_list (us : list Sentence) :
  _calculate_cosine_distances us = distances_list us.
Proof.
  unfold _calculate_cosine_distances, range, len. destruct us as [|u rest].
  - done.
  - replace (Z.of_nat (length (u :: rest)) - 1 - 0)%Z
      with (Z.of_nat (length rest)) by (simpl; lia).
    etrans; [apply (distances_loop rest u [] [])|].
    etrans; [|apply bind_ret_r]. apply bind_ext. by intros [].
Qed.

(** *** What the stages keep and what they set *)

Lemma embedded_texts_app (t1 t2 : list event) :
  embedded_texts (t1 ++ t2) = embedded_texts t1 ++ embedded_texts t2.
Proof. apply omap_app. Qed.

Lemma embed_list_Ok (us : list Sentence) : ∀ t us',
  embed_list us = (t, Ok us') →
  Forall2 embedded us us' ∧
  embedded_texts t = omap (λ u, value <$> combined_sentence u) us.
Proof.
  induction us as [|u us IH]; intros t us'; cbn [embed_list].
  - intros [= <- <-]. by split.
  - destruct (combined_sentence u) as [c|] eqn:Hc; [|done].
    intros (t1 & c' & t2 & Hg & Hrest & ->)%bind_Ok.
    apply bind_Ok in Hrest as (t3 & rest & t4 & Hrest & [= <- <-] & ->).
    apply IH in Hrest as [Hrest Ht3].
    unfold generate_embedding, call in Hg.
    destruct (embedding_driver self (value c)) as [e|] eqn:He; [|done].
    injection Hg as <- <-. split.
    + constructor; [|done]. repeat split. exists c, e. by rewrite Hc.
    + rewrite app_nil_r, embedded_texts_app, Ht3. simpl. by rewrite Hc.
Qed.

(** Whatever the outcome, the driver is asked about the combined texts
    in order, up to the first failure. *)
Lemma embed_list_trace (us : list Sentence) :
  embedded_texts (embed_list us).1
  `prefix_of` omap (λ u, value <$> combined_sentence u) us.
Proof.
  induction us as [|u us IH]; cbn [embed_list]; [done|].
  destruct (combined_sentence u) as [c|] eqn:Hc; [|apply prefix_nil].
  simpl omap. rewrite Hc. simpl.
  unfold generate_embedding, call.
  destruct (embedding_driver self (value c)) as [e|]; simpl.
  - destruct (embed_list us) as [t [rest|]]; simpl in *;
      rewrite ?app_nil_r; by apply prefix_cons.
  - by apply prefix_cons, prefix_nil.
Qed.

Lemma embed_list_total (us : list Sentence) :
  Forall (λ u, ∃ c e, combined_sentence u = Some c ∧
                      embedding_driver self (value c) = Ok e) us →
  ∃ t us', embed_list us = (t, Ok us').
Proof.
  induction 1 as [|u us (c & e & Hc & He) _ (t & us' & IH)];
    cbn [embed_list]; [by eexists _, _|].
  rewrite Hc. unfold generate_embedding, call. rewrite He, IH. simpl.
  by eexists _, _.
Qed.

Lemma emb_no_call (u : Sentence) : (emb u).1 = [].
Proof.
  unfold emb. destruct (combined_sentence u) as [c|]; [|done].
  by destruct (embedding c).
Qed.

Lemma emb_Ok (u : Sentence) t e :
  emb u = (t, Ok e) →
  t = [] ∧ ∃ c, combined_sentence u = Some c ∧ embedding c = Some e.
Proof.
  unfold emb. destruct (combined_sentence u) as [c|]; [|done].
  destruct (embedding c) as [e'|] eqn:E; [|done].
  intros [= <- <-]. split; [done|]. by exists c.
Qed.

(** The distance stage asks the driver nothing. *)
Lemma cosine_distance_trace (u u' : Sentence) :
  embedded_texts (cosine_distance u u').1 = [].
Proof.
  unfold cosine_distance.
  pose proof (emb_no_call u). pose proof (emb_no_call u').
  destruct (emb u) as [t1 [a|]]; simpl in *; subst; [|done].
  destruct (emb u') as [t2 [b|]]; simpl in *; subst; [|done].
  unfold call. by destruct (np_dot a b).
Qed.

Lemma distances_list_trace (us : list Sentence) :
  embedded_texts (distances_list us).1 = [].
Proof.
  induction us as [|u rest IH]; [done|]. cbn [distances_list].
  destruct rest as [|u' rest']; [done|].
  pose proof (cosine_distance_trace u u') as Hc.
  destruct (cosine_distance u u') as [t1 [d|]]; [|done].
  cbn [bind]. destruct (distances_list (u' :: rest')) as [t2 [r|]];
    simpl in *; by rewrite ?app_nil_r, embedded_texts_app, Hc, IH.
Qed.

(** A successful distance stage returns one distance for every sentence
    but the last, stores it on that sentence, and changes nothing else. *)
Lemma distances_list_Ok (us : list Sentence) : ∀ t ds us',
  distances_list us = (t, Ok (ds, us')) →
  length us' = length us ∧ length ds = length us - 1 ∧
  (∀ i u, us !! i = Some u →
     ∃ u', us' !! i = Some u' ∧ sentence u' = sentence u ∧
           index u' = index u ∧
           (distance_to_next u = None → distance_to_next u' = ds !! i)).
Proof.
  induction us as [|u rest IH]; intros t ds us'; cbn [distances_list].
  - intros [= <- <- <-]. repeat split. by intros i u.
  - destruct rest as [|u' rest'].
    + intros [= <- <- <-]. repeat split.
      intros [|i] v; [|done]. intros [= <-]. by exists u.
    + intros (t1 & d & t2 & Hd & Hrest & ->)%bind_Ok.
      apply bind_Ok in Hrest as (t3 & [ds1 rest1] & t4 & Hrest & Hret & ->).
      injection Hret as <- <- <-. cbn [fst snd].
      apply IH in Hrest as (Hlen & Hds & Hrest).
      split; [simpl in *; lia|]. split; [simpl in *; lia|].
      intros [|i] v Hv.
      * injection Hv as <-. eexists. by split.
      * by apply Hrest.
Qed.

(** *** The assembly of the chunks *)

Lemma increasing_from_weaken (a b : nat) (idx : list nat) :
  a ≤ b → increasing_from b idx → increasing_from a idx.
Proof. destruct idx as [|i idx]; [done|]. simpl. intros ? [? ?]. split; [lia|done]. Qed.

Lemma above_offset (thr : F) (ds : list F) : ∀ o,
  let idx := map fst (List.filter (λ '(i, x), fgt x thr)
                        (imap (λ i, pair (o + i)) ds)) in
  increasing_from o idx ∧
  Forall (λ i, ∃ d, ds !! (i - o) = Some d ∧ o ≤ i ∧ fgt d thr = true) idx.
Proof.
  induction ds as [|d ds IH]; intros o; [done|].
  rewrite imap_cons. cbn [List.filter]. rewrite Nat.add_0_r.
  rewrite (imap_ext _ (λ i, pair (S o + i))) by (intros; simpl; f_equal; lia).
  destruct (IH (S o)) as [Hinc Hall].
  assert (Hall' : Forall (λ i, ∃ d0, (d :: ds) !! (i - o) = Some d0 ∧
                               o ≤ i ∧ fgt d0 thr = true)
            (map fst (List.filter (λ '(_, x), fgt x thr)
                                  (imap (λ i, pair (S o + i)) ds)))).
  { eapply Forall_impl; [exact Hall|]. intros i (d0 & Hd0 & Hi & Hgt).
    exists d0. replace (i - o) with (S (i - S o)) by lia.
    split; [done|]. split; [lia|done]. }
  destruct (fgt d thr) eqn:E; cbn [map fst].
  - split; [by split|]. constructor; [|done].
    exists d. rewrite Nat.sub_diag. by split.
  - split; [|done]. by apply (increasing_from_weaken _ (S o)); [lia|].
Qed.

Lemma above_spec (thr : F) (ds : list F) :
  increasing_from 0 (above thr ds) ∧
  Forall (λ i, ∃ d, ds !! i = Some d ∧ fgt d thr = true) (above thr ds).
Proof.
  destruct (above_offset thr ds 0) as [Hinc Hall]. split; [done|].
  eapply Forall_impl; [exact Hall|]. intros i (d & Hd & _ & Hgt).
  exists d. by rewrite Nat.sub_0_r in Hd.
Qed.

(** The loop over the breakpoints cuts the sentences from [start] to
    the last breakpoint into non-empty groups, each ending at a
    breakpoint. *)
Lemma cut_groups (us : list Sentence) : ∀ idx start chunks,
  increasing_from start idx → Forall (λ i, S i < length us) idx →
  ∃ gs start',
    fold_left (cut us) idx (start, chunks) = (start', chunks ++ map chunk_of gs) ∧
    start ≤ start' ∧ (start' = start ∨ start' < length us) ∧
    concat gs = slice us start start' ∧ length gs = length idx ∧
    Forall (λ g, ∃ i u, i ∈ idx ∧ last g = Some u ∧ us !! i = Some u) gs.
Proof.
  induction idx as [|i idx IH]; intros start chunks Hinc Hlt.
  - exists [], start. simpl. rewrite app_nil_r, slice_nil by done.
    repeat split; auto.
  - destruct Hinc as [Hi Hinc]. apply Forall_cons in Hlt as [Hlti Hlt].
    cbn [fold_left cut].
    replace (i + 1) with (S i) by lia.
    destruct (IH (S i) (chunks ++ [chunk_of (slice us start (S i))]) Hinc Hlt)
      as (gs & start' & Hfold & Hle & Hend & Hcat & Hlen & Hlast).
    exists (slice us start (S i) :: gs), start'.
    rewrite Hfold, <- app_assoc. split; [done|].
    split; [lia|]. split; [lia|]. split; [|split; [by simpl; rewrite Hlen|]].
    + simpl. rewrite Hcat. symmetry. apply slice_app; lia.
    + constructor.
      * destruct (lookup_lt_is_Some_2 us i) as [u Hu]; [lia|].
        exists i, u. split; [by left|]. split; [|done].
        rewrite (slice_app us start i (S i)) by lia.
        rewrite (slice_cons us i (S i) u) by (done || lia).
        rewrite (slice_nil us (S i) (S i)) by lia.
        by rewrite last_snoc.
      * eapply Forall_impl; [exact Hlast|]. intros g (j & u & Hj & Hg).
        exists j, u. split; [by right|done].
Qed.

Lemma fold_left_pointwise {A B} (f g : A → B → A) (l : list B) : ∀ a,
  (∀ a b, f a b = g a b) → fold_left f l a = fold_left g l a.
Proof.
  induction l as [|b l IH]; intros a Hfg; [done|]. simpl.
  by rewrite Hfg, IH.
Qed.

Lemma combine_sentences_to_chunks_assemble (ds : list F) (us : list Sentence) :
  _combine_sentences_to_chunks self ds us =
  let* thr := _calculate_breakpoint_threshold self ds in
  ret (assemble thr ds us).
Proof.
  unfold _combine_sentences_to_chunks. apply bind_ext. intros thr.
  unfold assemble. fold (above thr ds).
  rewrite (fold_left_pointwise _ (cut us)) by by intros [].
  destruct (fold_left (cut us) (above thr ds) (0%nat, [])) as [start chunks].
  by destruct (start <? length us)%nat.
Qed.

(** With one distance for every sentence but the last, the chunks are
    the texts of groups that partition the sentences, one group more
    than there are breakpoints, and every group but the last ends at a
    sentence whose distance exceeds the threshold. *)
Lemma assemble_spec (thr : F) (ds : list F) (us : list Sentence) :
  length ds = length us - 1 →
  ∃ groups,
    assemble thr ds us = map chunk_of groups ∧
    concat groups = us ∧ Forall (λ g, g ≠ []) groups ∧
    length groups = length (above thr ds) + (if us is [] then 0 else 1) ∧
    ∀ k g, groups !! k = Some g → S k < length groups →
      ∃ i u d, last g = Some u ∧ us !! i = Some u ∧
               ds !! i = Some d ∧ fgt d thr = true.
Proof.
  intros Hlen. destruct (above_spec thr ds) as [Hinc Hall].
  destruct (cut_groups us (above thr ds) 0 []) as
    (gs & start & Hfold & _ & Hend & Hcat & Hgs & Hlast); [done| |].
  { eapply Forall_impl; [exact Hall|]. intros i (d & Hd & _).
    apply lookup_lt_Some in Hd. lia. }
  assert (Hgs' : ∀ k g, gs !! k = Some g →
            ∃ i u d, last g = Some u ∧ us !! i = Some u ∧
                     ds !! i = Some d ∧ fgt d thr = true).
  { intros k g Hg. eapply Forall_lookup_1 in Hlast as (i & u & Hi & Hl & Hu);
      [|exact Hg].
    eapply list_elem_of_lookup in Hi as [j Hj].
    eapply Forall_lookup_1 in Hall as (d & Hd & Hgt); [|exact Hj].
    by exists i, u, d. }
  unfold assemble. rewrite Hfold, app_nil_l.
  unfold slice in Hcat. rewrite Nat.sub_0_r, drop_0 in Hcat.
  destruct (Nat.ltb_spec start (length us)) as [Hlt|Hge].
  - exists (gs ++ [drop start us]). split; [by rewrite map_app|].
    split; [|split; [|split]].
    + rewrite concat_app, Hcat. simpl. by rewrite app_nil_r, take_drop.
    + apply Forall_app. split.
      * apply Forall_lookup. intros k g Hg.
        destruct (Hgs' k g Hg) as (? & ? & ? & Hl & _). by intros ->.
      * constructor; [|done]. intros E%(f_equal length).
        rewrite length_drop in E. simpl in E. lia.
    + rewrite length_app, Hgs. simpl. destruct us; [simpl in Hlt; lia|done].
    + intros k g Hg Hk. rewrite length_app in Hk. simpl in Hk.
      rewrite lookup_app_l in Hg by lia. by eapply Hgs'.
  - assert (us = []) as ->.
    { destruct Hend as [->|?]; [|lia]. destruct us; [done|simpl in Hge; lia]. }
    exists gs. split; [done|]. split; [by rewrite Hcat, take_nil|].
    split; [|split; [lia|by intros; eapply Hgs']].
    apply Forall_lookup. intros k g Hg.
    destruct (Hgs' k g Hg) as (? & ? & ? & Hl & _). by intros ->.
Qed.

(** *** The pipeline of [try_chunk] *)

Lemma text_to_sentences_values (text : str) :
  sentence_values (_text_to_sentences text) = split_into_sentences text.
Proof.
  unfold sentence_values, _text_to_sentences.
  apply list_eq. intros i. rewrite list_lookup_fmap, list_lookup_imap.
  by destruct (split_into_sentences text !! i).
Qed.

Lemma text_to_sentences_windowed (text : str) :
  imap (λ i s, set_combined_sentence
                 (new_TextArtifact
                    (window (sentence_values (_text_to_sentences text)) 1 i)) s)
       (_text_to_sentences text)
  = windowed (split_into_sentences text).
Proof.
  rewrite text_to_sentences_values. unfold _text_to_sentences, windowed.
  apply list_eq. intros i. rewrite !list_lookup_imap.
  by destruct (split_into_sentences text !! i).
Qed.

Lemma try_chunk_stages (text : TextArtifact + str) :
  try_chunk self text =
  let* us2 := embed_list (windowed (split_into_sentences (text_of text))) in
  let* r := distances_list us2 in
  let* thr := _calculate_breakpoint_threshold self r.1 in
  ret (assemble thr r.1 r.2).
Proof.
  unfold try_chunk. rewrite combine_sentences_spec, bind_ret by done.
  rewrite text_to_sentences_windowed, embed_sentences_list.
  apply bind_ext. intros us2. rewrite cosine_distances_list.
  apply bind_ext. intros [ds us3]. rewrite bind_ret_r.
  apply combine_sentences_to_chunks_assemble.
Qed.

Lemma measure_stages (text : TextArtifact + str) :
  measure text =
  let* us2 := embed_list (windowed (split_into_sentences (text_of text))) in
  distances_list us2.
Proof.
  unfold Notions.measure. rewrite combine_sentences_spec, bind_ret by done.
  rewrite text_to_sentences_windowed, embed_sentences_list.
  apply bind_ext. intros us2. apply cosine_distances_list.
Qed.

(** [try_chunk] makes the chunks from what [measure] returns. *)
Lemma try_chunk_measure (text : TextArtifact + str) :
  try_chunk self text =
  let* r := measure text in _combine_sentences_to_chunks self r.1 r.2.
Proof.
  unfold try_chunk, Notions.measure. rewrite !bind_assoc.
  apply bind_ext. intros combined. rewrite bind_assoc.
  apply bind_ext. intros embedded. apply bind_ext. intros [ds us].
  apply bind_ret_r.
Qed.

Lemma windowed_length (vals : list str) : length (windowed vals) = length vals.
Proof. apply length_imap. Qed.

Lemma windowed_lookup (vals : list str) (i : nat) (u : Sentence) :
  windowed vals !! i = Some u →
  ∃ v, vals !! i = Some v ∧ sentence u = new_TextArtifact v ∧
       index u = Z.of_nat i ∧
       combined_sentence u = Some (new_TextArtifact (window vals 1 i)) ∧
       distance_to_next u = None.
Proof.
  unfold windowed. rewrite list_lookup_imap.
  destruct (vals !! i) as [v|]; [|done]. intros [= <-]. by exists v.
Qed.

Lemma omap_imap {A B C} (f : B → option C) (g : nat → A → B)
    (h : nat → A → C) (l : list A) :
  (∀ i x, f (g i x) = Some (h i x)) → omap f (imap g l) = imap h l.
Proof.
  revert g h. induction l as [|x l IH]; intros g h Hfg; [done|].
  rewrite !imap_cons. simpl. rewrite Hfg. f_equal.
  apply IH. intros i y. apply Hfg.
Qed.

Lemma windowed_texts (vals : list str) :
  omap (λ u, value <$> combined_sentence u) (windowed vals)
  = window vals 1 <$> seq 0 (length vals).
Proof.
  unfold windowed.
  rewrite (omap_imap _ _ (λ i _, window vals 1 i)) by done.
  apply imap_seq_0.
Qed.

(** The calls of the threshold computation go to NumPy only. *)
Lemma threshold_trace (ds : list F) :
  embedded_texts (_calculate_breakpoint_threshold self ds).1 = [].
Proof.
  unfold _calculate_breakpoint_threshold.
  repeat case_match; try done.
Qed.

Lemma bind_trace_quiet {A B} (m : M A) (f : A → M B) :
  (∀ a, embedded_texts (f a).1 = []) →
  embedded_texts (bind m f).1 = embedded_texts m.1.
Proof.
  intros Hf. destruct m as [t [a|e]]; simpl; [|done].
  specialize (Hf a). destruct (f a) as [t' r]. simpl in *.
  by rewrite embedded_texts_app, Hf, app_nil_r.
Qed.

(** The driver is asked about the windows of size one, whatever the
    chunker's fields are. *)
Lemma try_chunk_trace (text : TextArtifact + str) :
  embedded_texts (try_chunk self text).1 =
  embedded_texts
    (embed_list (windowed (split_into_sentences (text_of text)))).1.
Proof.
  rewrite try_chunk_stages. apply bind_trace_quiet. intros us2.
  rewrite bind_trace_quiet; [apply distances_list_trace|].
  intros r. rewrite bind_trace_quiet; [apply threshold_trace|done].
Qed.

(** C1: the chunks of a [try_chunk] that returns are the space-joined
    texts of groups that cut, in order, the sentences of the run: the
    sentences [_calculate_cosine_distances] returned in this run, with
    the distances it returned stored on them. Their texts are the
    sentences of the splitter, no group is empty, there is one group
    more than there are distances above the threshold of the run, and
    every group but the last ends at a sentence whose [distance_to_next]
    exceeds that threshold. *)
Theorem try_chunk_partition (text : TextArtifact + str) t chunks :
  try_chunk self text = (t, Ok chunks) →
  ∃ (t1 t2 : list event) (distances : list F) (units : list Sentence)
    (thr : F) (groups : list (list Sentence)),
    measure text = (t1, Ok (distances, units)) ∧
    _calculate_breakpoint_threshold self distances = (t2, Ok thr) ∧
    t = t1 ++ t2 ∧
    sentence_values units = split_into_sentences (text_of text) ∧
    (∀ i u, units !! i = Some u →
       index u = Z.of_nat i ∧ distance_to_next u = distances !! i) ∧
    concat groups = units ∧ Forall (λ g, g ≠ []) groups ∧
    chunks = map chunk_of groups ∧
    length groups
      = length (above thr distances) + (if units is [] then 0 else 1) ∧
    ∀ k g, groups !! k = Some g → S k < length groups →
      ∃ u d, last g = Some u ∧ distance_to_next u = Some d ∧
             fgt d thr = true.
Proof.
  rewrite try_chunk_stages, measure_stages.
  set (vals := split_into_sentences (text_of text)).
  intros (t1 & us2 & t2 & Hemb & Hrest & ->)%bind_Ok.
  apply bind_Ok in Hrest as (t3 & [ds us3] & t4 & Hdist & Hrest & ->).
  apply bind_Ok in Hrest as (t5 & thr & t6 & Hthr & [= <- <-] & ->).
  cbn [fst snd] in *.
  assert (Hrun : bind (embed_list (windowed vals)) (λ us2, distances_list us2)
                 = (t1 ++ t3, Ok (ds, us3))).
  { rewrite Hemb. cbn [Chunker.bind]. by rewrite Hdist. }
  apply embed_list_Ok in Hemb as [Hemb _].
  apply distances_list_Ok in Hdist as (Hlen3 & Hds & Hdist).
  pose proof (Forall2_length _ _ _ Hemb) as Hlen2.
  rewrite windowed_length in Hlen2.
  assert (Hunit : ∀ i u, us3 !! i = Some u →
            ∃ v, vals !! i = Some v ∧ sentence u = new_TextArtifact v ∧
                 index u = Z.of_nat i ∧ distance_to_next u = ds !! i).
  { intros i u Hu.
    destruct (lookup_lt_is_Some_2 us2 i) as [u2 Hu2];
      [apply lookup_lt_Some in Hu; lia|].
    destruct (Forall2_lookup_r _ _ _ _ _ Hemb Hu2)
      as (u1 & Hu1 & Hs & Hi & Hd & _).
    apply windowed_lookup in Hu1 as (v & Hv & Hs1 & Hi1 & _ & Hd1).
    destruct (Hdist i u2 Hu2) as (u' & Hu' & Hs' & Hi' & Hd').
    assert (u' = u) as -> by congruence.
    exists v. split; [done|]. split; [congruence|]. split; [congruence|].
    apply Hd'. congruence. }
  destruct (assemble_spec thr ds us3)
    as (groups & Hasm & Hcat & Hne & Hcount & Hb); [lia|].
  exists (t1 ++ t3), t5, ds, us3, thr, groups.
  split; [exact Hrun|]. split; [done|].
  split; [by rewrite app_nil_r, app_assoc|].
  split; [|split; [|split; [|split; [|split; [|split]]]]]; try done.
  - unfold sentence_values. apply list_eq. intros i.
    rewrite list_lookup_fmap.
    destruct (us3 !! i) as [u|] eqn:Hu; simpl.
    + destruct (Hunit i u Hu) as (v & -> & -> & _). done.
    + symmetry. apply lookup_ge_None. apply lookup_ge_None in Hu.
      fold vals. lia.
  - intros i u Hu. destruct (Hunit i u Hu) as (v & _ & _ & ? & ?). done.
  - intros k g Hg Hk. destruct (Hb k g Hg Hk) as (i & u & d & Hl & Hu & Hd & Hgt).
    exists u, d. split; [done|]. split; [|done].
    destruct (Hunit i u Hu) as (v & _ & _ & _ & ->). done.
Qed.

(** C6: for a buffer size [b ≥ 0], [_combine_sentences] returns, without
    a call and without an exception, the sentences it was given with the
    combined text of the sentence at index [i] set to the space-joined
    raw sentences from [max(0, i - b)] to [min(N - 1, i + b)]; the raw
    sentence, the index and the distance of every sentence are as they
    were. *)
Theorem combine_sentences_windows (sentences : list Sentence) (b : Z) :
  (0 ≤ b)%Z →
  ∃ out,
    _combine_sentences sentences b = ([], Ok out) ∧
    length out = length sentences ∧
    ∀ i s, sentences !! i = Some s →
      ∃ s', out !! i = Some s' ∧
        combined_sentence s' =
          Some (new_TextArtifact (window (sentence_values sentences) b i)) ∧
        sentence s' = sentence s ∧ index s' = index s ∧
        distance_to_next s' = distance_to_next s.
Proof.
  intros Hb. rewrite combine_sentences_spec by done. eexists. split; [done|].
  split; [by rewrite length_imap|]. intros i s Hs.
  rewrite list_lookup_imap, Hs. simpl. by eexists.
Qed.

Lemma try_chunk_window_trace (text : TextArtifact + str) :
  let vals := split_into_sentences (text_of text) in
  (∀ i, i < length vals →
     ∃ e, embedding_driver self (window vals 1 i) = Ok e) →
  embedded_texts (embed_list (windowed vals)).1
    = window vals 1 <$> seq 0 (length vals) ∧
  ∃ t us', embed_list (windowed vals) = (t, Ok us').
Proof.
  intros vals Hdrv.
  destruct (embed_list_total (windowed vals)) as (t & us' & E).
  { apply Forall_lookup. intros i u Hu.
    pose proof (lookup_lt_Some _ _ _ Hu) as Hi. rewrite windowed_length in Hi.
    apply windowed_lookup in Hu as (v & _ & _ & _ & Hc & _).
    destruct (Hdrv i Hi) as [e He]. by eexists _, e. }
  split; [|by eexists _, _]. rewrite E. cbn [fst].
  apply embed_list_Ok in E as [_ ->]. apply windowed_texts.
Qed.

(** C10: in [try_chunk] the texts sent to the embedding driver are the
    windows of size one, in the order of the sentences and up to the
    first failure of the driver; all of them when the driver fails on
    none. The statement holds for every value of the chunker's fields. *)
Theorem try_chunk_window_is_one (text : TextArtifact + str) :
  let vals := split_into_sentences (text_of text) in
  embedded_texts (try_chunk self text).1
    `prefix_of` (window vals 1 <$> seq 0 (length vals)) ∧
  ((∀ i, i < length vals →
      ∃ e, embedding_driver self (window vals 1 i) = Ok e) →
   embedded_texts (try_chunk self text).1
     = window vals 1 <$> seq 0 (length vals)).
Proof.
  intros vals. rewrite try_chunk_trace. fold vals.
  split; [rewrite <- windowed_texts; apply embed_list_trace|].
  intros Hdrv. by apply try_chunk_window_trace.
Qed.

(** C2, amended: with at most one sentence, [try_chunk] asks the driver
    for the embedding of the sentence, if there is one, computes no
    distance, runs the threshold computation on the empty sequence of
    distances, and, when neither raised, returns the sentence as the
    only chunk, or no chunk when there is no sentence. *)
Theorem try_chunk_short (text : TextArtifact + str) :
  let vals := split_into_sentences (text_of text) in
  length vals ≤ 1 →
  try_chunk self text =
    let* _ := embed_each vals in
    let* _ := _calculate_breakpoint_threshold self [] in
    ret (new_TextArtifact <$> vals).
Proof.
  intros vals Hlen. rewrite try_chunk_stages. fold vals.
  destruct vals as [|v [|v' vals]]; [| |simpl in Hlen; lia].
  - unfold windowed, embed_each. cbn [imap embed_list for_].
    rewrite !bind_ret. cbn [distances_list]. rewrite bind_ret.
    by apply bind_ext.
  - unfold windowed, embed_each.
    cbn [imap embed_list for_ combined_sentence].
    unfold generate_embedding. rewrite !bind_assoc. apply bind_ext. intros e.
    rewrite !bind_ret. cbn [distances_list]. rewrite bind_ret.
    by apply bind_ext.
Qed.

Lemma bind_fails {A B} (m : M A) (f : A → M B) :
  (∀ a, ∃ t e, f a = (t, Raise e)) → ∃ t e, bind m f = (t, Raise e).
Proof.
  intros Hf. destruct m as [t [a|e]]; simpl; [|by eexists _, _].
  destruct (Hf a) as (t' & e & ->). by eexists _, _.
Qed.

Lemma threshold_invalid_type (ds : list F) :
  invalid_type → _calculate_breakpoint_threshold self ds = raise unexpected_type.
Proof.
  intros (H1 & H2 & H3). unfold _calculate_breakpoint_threshold, str_eqb.
  by rewrite !bool_decide_eq_false_2.
Qed.

Lemma distances_list_total (P : list F → Prop) (us : list Sentence) :
  (∀ a b, P a → P b → ∃ d, np_dot a b = Ok d) →
  Forall (λ u, ∃ c e, combined_sentence u = Some c ∧
                      embedding c = Some e ∧ P e) us →
  ∃ t r, distances_list us = (t, Ok r).
Proof.
  intros Hdot. induction 1 as [|u rest (c & a & Hc & Ha & HPa) Hrest IH];
    cbn [distances_list]; [by eexists _, _|].
  destruct rest as [|u' rest']; [by eexists _, _|].
  destruct IH as (t & r & ->).
  apply Forall_cons in Hrest as [(c' & b & Hc' & Hb & HPb) _].
  destruct (Hdot a b HPa HPb) as [d Hd].
  unfold cosine_distance, emb. rewrite Hc, Ha, Hc', Hb, !bind_ret.
  unfold call. rewrite Hd. simpl. by eexists _, _.
Qed.

Lemma new_invalid_type driver mt :
  invalid_type →
  new_SemanticChunker driver mt (Some (breakpoint_threshold_type self)) None
  = Raise (KeyError (breakpoint_threshold_type self)).
Proof.
  intros (H1 & H2 & H3). unfold new_SemanticChunker. simpl.
  unfold str_eqb. by rewrite !bool_decide_eq_false_2.
Qed.

(** C3, amended: with a [breakpoint_threshold_type] outside the three
    methods, [try_chunk] fails on every text. The test of the type is the
    last step: when the driver returns a vector for every window and
    [np.dot] accepts the vectors, the exception is the [ValueError] of
    [_calculate_breakpoint_threshold], raised after the driver has been
    called for every window. Only the constructor fails early, when it
    is given such a type and no amount: it finds no default. *)
Theorem invalid_type_fails_last (text : TextArtifact + str) :
  invalid_type →
  let vals := split_into_sentences (text_of text) in
  (∃ t e, try_chunk self text = (t, Raise e)) ∧
  ((∀ i, i < length vals →
      ∃ e, embedding_driver self (window vals 1 i) = Ok e) →
   (∀ w w' a b, embedding_driver self w = Ok a →
      embedding_driver self w' = Ok b → ∃ d, np_dot a b = Ok d) →
   ∃ t, try_chunk self text = (t, Raise unexpected_type) ∧
        embedded_texts t = window vals 1 <$> seq 0 (length vals)) ∧
  (∀ driver max_tokens,
     new_SemanticChunker driver max_tokens
       (Some (breakpoint_threshold_type self)) None
     = Raise (KeyError (breakpoint_threshold_type self))).
Proof.
  intros Hinv vals. split; [|split; [|by intros; apply new_invalid_type]].
  - rewrite try_chunk_stages. apply bind_fails. intros us2.
    apply bind_fails. intros r. rewrite threshold_invalid_type by done.
    by eexists _, _.
  - intros Hdrv Hdot.
    destruct (try_chunk_window_trace text Hdrv) as [Htr _].
    destruct (embed_list_total (windowed vals)) as (t1 & us2 & E).
    { apply Forall_lookup. intros i u Hu.
      pose proof (lookup_lt_Some _ _ _ Hu) as Hi. rewrite windowed_length in Hi.
      apply windowed_lookup in Hu as (v & _ & _ & _ & Hc & _).
      destruct (Hdrv i Hi) as [e He]. by eexists _, e. }
    destruct (distances_list_total
                (λ e, ∃ w, embedding_driver self w = Ok e) us2)
      as (t2 & r & E2).
    { intros a b [w Ha] [w' Hb]. by eapply Hdot. }
    { apply embed_list_Ok in E as [E _].
      apply Forall_lookup. intros i u Hu.
      destruct (Forall2_lookup_r _ _ _ _ _ E Hu)
        as (u1 & _ & _ & _ & _ & c & e & _ & He & Hc).
      eexists _, e. split; [exact Hc|]. split; [done|]. by eexists. }
    pose proof (try_chunk_trace text) as Htrace.
    assert (Hres : (try_chunk self text).2 = Raise unexpected_type).
    { rewrite try_chunk_stages. fold vals. rewrite E. cbn [bind fst].
      rewrite E2. cbn [bind]. by rewrite threshold_invalid_type. }
    destruct (try_chunk self text) as [t res]. cbn [fst snd] in Hres, Htrace.
    subst res. exists t. split; [done|]. by rewrite Htrace.
Qed.

End Stages.

(** *** The threshold and its amount *)

(** C4: a chunker built for one of the three methods, with or without
    an amount, has the amount given, or without one the default of the
    method (95, 3, 1.5), and computes as its threshold: for [percentile],
    [np.percentile] of the distances at the amount; for
    [standard_deviation], the mean plus the amount times the standard
    deviation; for [interquartile], the mean plus the amount times the
    difference of the percentiles 75 and 25. *)
Theorem threshold_formulas (driver : str → result (list F)) (max_tokens : Z)
    (amount : option F) (distances : list F) :
  (∃ c, new_SemanticChunker driver max_tokens (Some (py "percentile")) amount
          = Ok c ∧
        breakpoint_threshold_amount c = default (of_Q 95) amount ∧
        (_calculate_breakpoint_threshold c distances).2
          = np_percentile distances (breakpoint_threshold_amount c)) ∧
  (∃ c, new_SemanticChunker driver max_tokens
          (Some (py "standard_deviation")) amount = Ok c ∧
        breakpoint_threshold_amount c = default (of_Q 3) amount ∧
        (_calculate_breakpoint_threshold c distances).2
          = Ok (fadd (np_mean distances)
                     (fmul (breakpoint_threshold_amount c)
                           (np_std distances)))) ∧
  (∃ c, new_SemanticChunker driver max_tokens (Some (py "interquartile"))
          amount = Ok c ∧
        breakpoint_threshold_amount c = default (of_Q 1.5) amount ∧
        (_calculate_breakpoint_threshold c distances).2
          = match np_percentile distances (of_Q 25),
                  np_percentile distances (of_Q 75) with
            | Ok q1, Ok q3 =>
                Ok (fadd (np_mean distances)
                         (fmul (breakpoint_threshold_amount c) (fsub q3 q1)))
            | Raise e, _ => Raise e
            | _, Raise e => Raise e
            end).
Proof.
  split; [|split]; destruct amount as [a|]; (eexists; split; [reflexivity|]);
    (split; [reflexivity|]); try reflexivity;
    unfold _calculate_breakpoint_threshold; simpl;
    by destruct (np_percentile distances (of_Q 25)),
                (np_percentile distances (of_Q 75)).
Qed.

Lemma embed_list_with_amount (a : F) (self : SemanticChunker)
    (us : list Sentence) :
  embed_list (with_amount a self) us = embed_list self us.
Proof.
  induction us as [|u us IH]; [done|]. cbn [embed_list]. by rewrite IH.
Qed.



Lemma measure_with_amount (a : F) (self : SemanticChunker)
    (text : TextArtifact + str) :
  Notions.measure (with_amount a self) text = Notions.measure self text.
Proof. by rewrite !measure_stages, embed_list_with_amount. Qed.


End WithNumeric.
End ChunkerFacts.

(** ** The rational model has the laws of order *)

Module QModelFacts.
Import PyStr Chunker Notions ChunkerFacts QModel.
Local Open Scope Q_scope.

Lemma qle_iff (a b : Q) : qle a b = true ↔ a <= b.
Proof. apply Qle_bool_iff. Qed.

Lemma qgt_iff (a b : Q) : qgt a b = true ↔ b < a.
Proof.
  unfold qgt. rewrite negb_true_iff. split.
  - intros E. apply Qnot_le_lt. intros Hle. apply qle_iff in Hle.
    unfold qle in Hle. congruence.
  - intros Hlt. destruct (Qle_bool a b) eqn:E; [|done].
    apply Qle_bool_iff in E. by apply Qlt_not_le in Hlt.
Qed.

Lemma Qsqrt_nonneg (q : Q) : 0 <= Qsqrt q.
Proof.
  unfold Qsqrt. rewrite Qred_correct. unfold Qle. simpl.
  rewrite Z.mul_1_r. apply Z.sqrt_nonneg.
Qed.

(** *** Sorting *)

Lemma insert_sorted_In (x y : Q) (l : list Q) :
  In y (insert_sorted x l) → y = x ∨ In y l.
Proof.
  induction l as [|z l IH]; simpl.
  - intros [<-|[]]. by left.
  - destruct (qle x z); simpl; intros [<-|Hy]; auto.
    destruct (IH Hy); auto.
Qed.

Lemma insert_sorted_ascending (x : Q) (l : list Q) :
  ascending l → ascending (insert_sorted x l).
Proof.
  induction 1 as [|z l Hz Hl IH]; simpl.
  - constructor; [by intros y []|constructor].
  - destruct (qle x z) eqn:E.
    + apply qle_iff in E. constructor; [|by constructor].
      intros y [<-|Hy]; [done|]. eapply Qle_trans; [exact E|by apply Hz].
    + assert (z <= x).
      { apply Qlt_le_weak, Qnot_le_lt. intros Hle%qle_iff. congruence. }
      constructor; [|done].
      intros y [->|Hy]%insert_sorted_In; [done|by apply Hz].
Qed.

Lemma sort_ascending (l : list Q) : ascending (sort l).
Proof.
  induction l as [|x l IH]; [constructor|].
  by apply insert_sorted_ascending.
Qed.

Lemma ascending_nth (l : list Q) (x0 : Q) : ascending l →
  ∀ i j, (i ≤ j)%nat → (j < length l)%nat → nth i l x0 <= nth j l x0.
Proof.
  induction 1 as [|x l Hx Hl IH]; intros i j Hij Hj; [simpl in Hj; lia|].
  destruct i as [|i], j as [|j]; simpl in *; try lia.
  - apply Qle_refl.
  - apply Hx, nth_In. lia.
  - apply IH; lia.
Qed.

(** *** Interpolation *)

Lemma Qfloor_range (v : Q) (n : Z) :
  0 <= v → v <= inject_Z n → (0 ≤ Qfloor v ≤ n)%Z.
Proof.
  intros H0 Hn. split.
  - change 0%Z with (Qfloor 0). by apply Qfloor_resp_le.
  - rewrite <- (Qfloor_Z n). by apply Qfloor_resp_le.
Qed.

Lemma interpolate_between (sorted : list Q) (x0 v : Q) :
  ascending sorted → 0 <= v →
  v <= inject_Z (Z.of_nat (length sorted - 1)) → (0 < length sorted)%nat →
  let j := Z.to_nat (Qfloor v) in
  nth j sorted x0 <= interpolate sorted x0 v ∧
  interpolate sorted x0 v
    <= nth (Nat.min (j + 1) (length sorted - 1)) sorted x0.
Proof.
  intros Hasc H0 Hn Hlen j. unfold interpolate. fold j.
  destruct (Qfloor_range v _ H0 Hn) as [Hf0 Hfn].
  pose proof (Qfloor_le v) as Hfl. pose proof (Qlt_floor v) as Hfu.
  rewrite inject_Z_plus in Hfu.
  assert (Hab : nth j sorted x0
                <= nth (Nat.min (j + 1) (length sorted - 1)) sorted x0).
  { apply ascending_nth; [done|lia|lia]. }
  set (a := nth j sorted x0) in *.
  set (b := nth (Nat.min (j + 1) (length sorted - 1)) sorted x0) in *.
  set (f := inject_Z (Qfloor v)) in *.
  change (inject_Z 1) with 1 in Hfu.
  split; nra.
Qed.

Lemma interpolate_mono (sorted : list Q) (x0 v1 v2 : Q) :
  ascending sorted → (0 < length sorted)%nat →
  0 <= v1 → v1 <= v2 → v2 <= inject_Z (Z.of_nat (length sorted - 1)) →
  interpolate sorted x0 v1 <= interpolate sorted x0 v2.
Proof.
  intros Hasc Hlen H0 H12 Hn.
  assert (Hn1 : v1 <= inject_Z (Z.of_nat (length sorted - 1))) by lra.
  assert (H02 : 0 <= v2) by lra.
  destruct (Qfloor_range v1 _ H0 Hn1) as [Hf1 Hf1n].
  destruct (Qfloor_range v2 _ H02 Hn) as [Hf2 Hf2n].
  pose proof (Qfloor_resp_le _ _ H12) as Hf12.
  destruct (Z.eq_dec (Qfloor v1) (Qfloor v2)) as [E|Hne].
  - unfold interpolate. rewrite E.
    assert (Hab : nth (Z.to_nat (Qfloor v2)) sorted x0
                  <= nth (Nat.min (Z.to_nat (Qfloor v2) + 1)
                                  (length sorted - 1)) sorted x0).
    { apply ascending_nth; [done|lia|lia]. }
    set (a := nth (Z.to_nat (Qfloor v2)) sorted x0) in *.
    set (b := nth _ sorted x0) in *.
    set (f := inject_Z (Qfloor v2)) in *. nra.
  - destruct (interpolate_between sorted x0 v1) as [_ Hup]; try done.
    destruct (interpolate_between sorted x0 v2) as [Hlo _]; try done.
    eapply Qle_trans; [exact Hup|]. eapply Qle_trans; [|exact Hlo].
    apply ascending_nth; [done|lia|lia].
Qed.

Lemma rank_range (n : nat) (q : Q) :
  0 <= q → q <= 100 →
  0 <= rank n q ∧ rank n q <= inject_Z (Z.of_nat (n - 1)).
Proof.
  intros H0 H100. unfold rank.
  assert (0 <= inject_Z (Z.of_nat (n - 1))).
  { change 0 with (inject_Z 0). rewrite <- Zle_Qle. lia. }
  set (m := inject_Z (Z.of_nat (n - 1))) in *.
  assert (q / 100 == q * (1 # 100)) as -> by (unfold Qdiv; reflexivity).
  split; nra.
Qed.

Lemma rank_mono (n : nat) (q1 q2 : Q) : q1 <= q2 → rank n q1 <= rank n q2.
Proof.
  intros H12. unfold rank.
  assert (0 <= inject_Z (Z.of_nat (n - 1))).
  { change 0 with (inject_Z 0). rewrite <- Zle_Qle. lia. }
  set (m := inject_Z (Z.of_nat (n - 1))) in *.
  assert (∀ q, q / 100 == q * (1 # 100)) as E by (intros; reflexivity).
  rewrite !E. nra.
Qed.

Lemma insert_sorted_length (x : Q) (l : list Q) :
  length (insert_sorted x l) = S (length l).
Proof.
  induction l as [|y l IH]; [done|]. simpl.
  destruct (qle x y); simpl; by rewrite ?IH.
Qed.

Lemma q_percentile_mono (ds : list Q) (q1 q2 t1 t2 : Q) :
  qle q1 q2 = true →
  q_percentile ds q1 = Ok t1 → q_percentile ds q2 = Ok t2 →
  qle t1 t2 = true.
Proof.
  intros H12%qle_iff. unfold q_percentile.
  destruct (qle 0 q1 && qle q1 100) eqn:E1; [|done].
  destruct (qle 0 q2 && qle q2 100) eqn:E2; [|done].
  apply andb_true_iff in E1 as [H01%qle_iff H1%qle_iff].
  apply andb_true_iff in E2 as [H02%qle_iff H2%qle_iff].
  pose proof (sort_ascending ds) as Hasc.
  destruct (sort ds) as [|x0 l] eqn:Es; [done|].
  simpl negb. cbv iota. intros [= <-] [= <-].
  apply qle_iff. rewrite !Qred_correct.
  destruct (rank_range (length (x0 :: l)) q1) as [? ?]; [done..|].
  destruct (rank_range (length (x0 :: l)) q2) as [? ?]; [done..|].
  apply interpolate_mono; try done; [simpl; lia|by apply rank_mono].
Qed.

Lemma number_Q (x : Q) : @number Q NumericQ x.
Proof. apply qle_iff. lra. Qed.

(** The rational model is ordered; all its values are numbers. *)
Lemma ordered_Q : @ordered Q NumericQ.
Proof.
  split; simpl; try (intros; split; apply number_Q).
  - intros x t1 t2 H12%qle_iff Hx%qgt_iff. apply qgt_iff. lra.
  - intros. apply number_Q.
  - intros ds q1 q2 t1 t2 Hq E1 E2 _ _. by eapply q_percentile_mono.
  - intros ds _. apply qle_iff. apply Qsqrt_nonneg.
  - intros a1 a2 s0 H12%qle_iff Hs%qle_iff _ _. apply qle_iff.
    change (Qred 0) with 0 in Hs.
    unfold qmul. rewrite !Qred_correct. nra.
  - intros m x y Hxy%qle_iff _ _. apply qle_iff.
    unfold qadd. rewrite !Qred_correct. lra.
  - intros x y Hxy%qle_iff _. apply qle_iff. change (Qred 0) with 0.
    unfold qsub. rewrite !Qred_correct. lra.
Qed.

End QModelFacts.

(** ** The model with NaN *)

Module XModelFacts.
Import PyStr Chunker QModel XModel Notions QModelFacts.
Local Open Scope Q_scope.






End XModelFacts.

(** ** Runs in the rational model *)

Module Examples.
Import PyStr Splitter Chunker Notions ChunkerFacts QModel QModelFacts.
Import XModel XModelFacts.

Lemma try_chunk_partition_witness :
  let self := example_chunker (py "percentile") 50 in
  let chunks := [chunk (py "Go. Now we go on."); chunk (py "Stop!");
                 chunk (py "Why not? Ok.")] in
  (try_chunk self example_text).2 = Ok chunks ∧
  ∃ (t1 t2 : list (event Q)) (distances : list Q)
    (units : list (Sentence Q)) (thr : Q)
    (groups : list (list (Sentence Q))),
    measure self example_text = (t1, Ok (distances, units)) ∧
    _calculate_breakpoint_threshold self distances = (t2, Ok thr) ∧
    (try_chunk self example_text).1 = t1 ++ t2 ∧
    sentence_values units = split_into_sentences (text_of example_text) ∧
    (∀ i u, units !! i = Some u →
       index u = Z.of_nat i ∧ distance_to_next u = distances !! i) ∧
    concat groups = units ∧ Forall (λ g, g ≠ []) groups ∧
    chunks = map chunk_of groups ∧
    length groups
      = length (above thr distances) + (if units is [] then 0 else 1) ∧
    ∀ k g, groups !! k = Some g → S k < length groups →
      ∃ u d, last g = Some u ∧ distance_to_next u = Some d ∧
             fgt d thr = true.
Proof.
  intros self chunks. split; [vm_compute; reflexivity|].
  apply (try_chunk_partition self example_text
           (try_chunk self example_text).1 chunks).
  vm_compute. reflexivity.
Defined.

Lemma combine_sentences_windows_witness :
  let sentences := [unit_of (py "a") 0; unit_of (py "b") 1;
                    unit_of (py "c") 2; unit_of (py "d") 3] in
  (0 ≤ 2)%Z ∧
  ∃ out,
    _combine_sentences sentences 2 = ([], Ok out) ∧
    length out = length sentences ∧
    ∀ i s, sentences !! i = Some s →
      ∃ s', out !! i = Some s' ∧
        combined_sentence s' =
          Some (new_TextArtifact (window (sentence_values sentences) 2 i)) ∧
        sentence s' = sentence s ∧ index s' = index s ∧
        distance_to_next s' = distance_to_next s.
Proof.
  intros sentences. split; [lia|].
  apply (combine_sentences_windows sentences 2). lia.
Defined.

Lemma try_chunk_window_is_one_witness :
  let self := example_chunker (py "interquartile") 7 in
  let vals := split_into_sentences (text_of example_text) in
  embedded_texts (try_chunk self example_text).1
    = window vals 1 <$> seq 0 (length vals).
Proof.
  intros self vals.
  apply (proj2 (try_chunk_window_is_one self example_text)).
  intros i _. eexists. reflexivity.
Defined.

Lemma try_chunk_short_witness :
  let self := example_chunker (py "standard_deviation") 3 in
  let text : TextArtifact Q + str := inr (py "Hello world") in
  length (split_into_sentences (text_of text)) ≤ 1 ∧
  try_chunk self text =
    bind (embed_each self (split_into_sentences (text_of text)))
      (λ _, bind (_calculate_breakpoint_threshold self [])
              (λ _, ret (new_TextArtifact
                           <$> split_into_sentences (text_of text)))).
Proof.
  intros self text. split; [vm_compute; lia|].
  apply (try_chunk_short self text). vm_compute. lia.
Defined.

(** C2 as stated fails: for a text of one sentence the threshold
    computation is not skipped; [np.mean] and [np.std] are called on the
    empty sequence of distances. *)
Lemma try_chunk_short_counterexample :
  try_chunk (example_chunker (py "standard_deviation") 3)
            (inr (py "Hello world"))
  = ([Embed (py "Hello world"); NpMean []; NpStd []],
     Ok [chunk (py "Hello world")]).
Proof. vm_compute. reflexivity. Qed.

Lemma invalid_type_fails_last_witness :
  let self := example_chunker (py "bogus") 95 in
  let vals := split_into_sentences (text_of example_text) in
  invalid_type self ∧
  (∃ t e, try_chunk self example_text = (t, Raise e)) ∧
  ∃ t, try_chunk self example_text = (t, Raise (unexpected_type self)) ∧
       embedded_texts t = window vals 1 <$> seq 0 (length vals).
Proof.
  intros self vals.
  assert (Hinv : invalid_type self) by (repeat split; by vm_compute).
  split; [exact Hinv|].
  destruct (invalid_type_fails_last self example_text Hinv)
    as (Hfail & Hlast & _).
  split; [exact Hfail|]. apply Hlast.
  - intros i _. eexists. reflexivity.
  - intros w w' a b [= <-] [= <-]. eexists. reflexivity.
Defined.

(** C3 as stated fails: with a type outside the three methods the
    [ValueError] comes after the driver was asked for the embedding of
    the sentence. *)
Lemma invalid_type_counterexample :
  try_chunk (example_chunker (py "bogus") 95) (inr (py "Hi."))
  = ([Embed (py "Hi.")],
     Raise (ValueError (py "Got unexpected `breakpoint_threshold_type`: bogus"))).
Proof. vm_compute. reflexivity. Qed.



End Examples.
(** ** More on the sentence splitter *)

Module SplitterMore.
Import PyStr Re Splitter Notions PyStrFacts ReFacts SplitterFacts.

(** *** What [replace] and [split] leave of a word *)

Lemma startswith_app_l (w a b : str) :
  startswith w a = true → startswith w (a ++ b) = true.
Proof.
  revert a. induction w as [|c w IH]; intros [|d a]; simpl; try done.
  intros [-> Hw]%andb_true_iff. simpl. by apply IH.
Qed.

Lemma contains_app_l (w a b : str) :
  contains w a = true → contains w (a ++ b) = true.
Proof.
  induction a as [|c a IH].
  - simpl. rewrite orb_false_r. intros Hw.
    destruct w; [|done]. by destruct b.
  - cbn [contains app]. intros [Hw|Hw]%orb_true_iff; apply orb_true_iff.
    + left. by apply (startswith_app_l w (c :: a) b).
    + right. by apply IH.
Qed.

Lemma contains_app_r (w a b : str) :
  contains w b = true → contains w (a ++ b) = true.
Proof.
  intros Hb. induction a as [|c a IH]; [done|].
  cbn [contains app]. apply orb_true_iff. by right.
Qed.

Lemma contains_app_false (w a b : str) :
  contains w (a ++ b) = false → contains w a = false ∧ contains w b = false.
Proof.
  intros H. split.
  - destruct (contains w a) eqn:E; [|done].
    by rewrite (contains_app_l w a b E) in H.
  - destruct (contains w b) eqn:E; [|done].
    by rewrite (contains_app_r w a b E) in H.
Qed.

(** A word that shares no character with [new] starts the result of a
    replacement only if it starts the text. *)
Lemma startswith_replace (old new : str) (n0 : char) (new' : str) :
  new = n0 :: new' →
  ∀ (s w : str), (∀ c, c ∈ w → c ∉ new) →
  startswith w (replace_from old new s 0) = true → startswith w s = true.
Proof.
  intros ->. induction s as [|c s IH]; intros w Hw.
  - by destruct w.
  - destruct w as [|a w]; [done|]. cbn [replace_from].
    destruct (startswith old (c :: s)).
    + simpl. intros [E%char_eqb_eq _]%andb_true_iff. subst n0.
      destruct (Hw a); by left.
    + simpl. intros [-> Hs]%andb_true_iff. simpl. apply IH; [|done].
      intros d Hd. apply Hw. by right.
Qed.

Lemma contains_cons_new (old new x : str) :
  old ≠ [] → (∀ c, c ∈ old → c ∉ new) →
  contains old x = false → contains old (new ++ x) = false.
Proof.
  intros Hne Hold Hx. induction new as [|n new IH]; [done|].
  cbn [app contains]. apply orb_false_iff. split.
  - destruct old as [|o old]; [done|]. simpl.
    destruct (char_eqb o n) eqn:E; [|done]. apply char_eqb_eq in E as ->.
    destruct (Hold n); by left.
  - apply IH. intros c Hc Hin. apply (Hold c Hc). by right.
Qed.

(** After [s.replace(old, new)] no [old] is left, when [new] is not
    empty and has no character of [old]. *)
Lemma replace_from_no_old (old new : str) :
  old ≠ [] → new ≠ [] → (∀ c, c ∈ old → c ∉ new) →
  ∀ s skip, contains old (replace_from old new s skip) = false.
Proof.
  intros Hold Hnew Hdis. destruct new as [|n0 new'] eqn:En; [done|].
  rewrite <- En in *. clear Hnew.
  induction s as [|c s IH]; intros skip.
  - simpl. by destruct old.
  - cbn [replace_from]. destruct skip as [|k]; [|apply IH].
    destruct (startswith old (c :: s)) eqn:E.
    + apply contains_cons_new; [done..|apply IH].
    + cbn [contains]. apply orb_false_iff. split; [|apply IH].
      destruct (startswith old (c :: replace_from old new s 0)) eqn:E'; [|done].
      assert (startswith old (replace_from old new (c :: s) 0) = true) as E''.
      { cbn [replace_from]. by rewrite E. }
      apply (startswith_replace old new n0 new' En) in E''; [congruence|done].
Qed.

Lemma occurs_before_snoc (w a : str) (c : char) (s : str) :
  occurs_before w (a ++ [c]) s
  = occurs_before w a (c :: s) || startswith w (c :: s).
Proof.
  induction a as [|d a IH].
  - simpl. by rewrite orb_false_r.
  - cbn [app occurs_before]. rewrite IH, <- !app_assoc. simpl.
    by rewrite orb_assoc.
Qed.

Lemma occurs_before_contains (w a s : str) :
  w ≠ [] → occurs_before w a s = false → contains w a = false.
Proof.
  intros Hw. induction a as [|d a IH]; [by destruct w|].
  cbn [occurs_before contains]. intros [H1 H2]%orb_false_iff.
  apply orb_false_iff. split; [|by apply IH].
  destruct (startswith w (d :: a)) eqn:E; [|done].
  by rewrite (startswith_app_l w (d :: a) s E) in H1.
Qed.

(** No field of [s.split(sep)] holds [sep]. *)
Lemma split_from_no_sep (sep : str) : sep ≠ [] →
  ∀ s cur skip,
  (skip = 0%nat → occurs_before sep (rev cur) s = false) →
  (skip ≠ 0%nat → cur = []) →
  Forall (λ f, contains sep f = false) (split_from sep s cur skip).
Proof.
  intros Hsep. induction s as [|c s IH]; intros cur skip H0 Hk.
  - simpl. constructor; [|done]. destruct skip as [|k].
    + by apply (occurs_before_contains sep _ []); [|apply H0].
    + rewrite Hk by done. by destruct sep.
  - cbn [split_from]. destruct skip as [|k].
    + specialize (H0 eq_refl). destruct (startswith sep (c :: s)) eqn:E.
      * constructor; [by apply (occurs_before_contains sep _ (c :: s))|].
        apply IH; [done|done].
      * apply IH; [|done]. intros _. cbn [rev].
        by rewrite occurs_before_snoc, H0, E.
    + rewrite Hk by done. apply IH; [done|done].
Qed.

(** A word absent from the text is absent from the fields. *)
Lemma split_from_absent_word (sep w : str) :
  ∀ s cur skip,
  contains w (rev cur ++ s) = false → (skip ≠ 0%nat → cur = []) →
  Forall (λ f, contains w f = false) (split_from sep s cur skip).
Proof.
  induction s as [|c s IH]; intros cur skip Hw Hk.
  - simpl. constructor; [|done]. by rewrite app_nil_r in Hw.
  - cbn [split_from]. destruct skip as [|k].
    + destruct (startswith sep (c :: s)).
      * apply contains_app_false in Hw as [Hcur Hs]. constructor; [done|].
        apply IH; [|done]. simpl.
        by apply (contains_app_false w [c] s) in Hs as [_ ?].
      * apply IH; [|done]. cbn [rev]. by rewrite <- app_assoc.
    + rewrite Hk in * by done. simpl in *. apply IH; [|done]. simpl.
      by apply (contains_app_false w [c] s) in Hw as [_ ?].
Qed.

Lemma strip_absent_word (w f : str) :
  contains w f = false → contains w (strip f) = false.
Proof.
  intros Hf. unfold strip, rstrip.
  destruct (lstrip_suffix f) as [k1 E1].
  destruct (lstrip_suffix (rev (lstrip f))) as [k2 E2].
  apply (f_equal (@rev _)) in E2. rewrite rev_involutive, rev_app_distr in E2.
  rewrite E1, E2 in Hf.
  apply contains_app_false in Hf as [_ Hf].
  by apply contains_app_false in Hf as [Hf _].
Qed.

(** X1: no sentence of the splitter holds one of the markers [<stop>]
    and [<prd>], whatever the text, a text that holds the markers
    included. *)
Theorem split_sentences_without_markers (text : str) :
  Forall (λ s, contains stop s = false ∧ contains prd s = false)
         (split_into_sentences text).
Proof.
  unfold split_into_sentences. apply drop_last_empty_Forall.
  apply Forall_fmap.
  match goal with
  | |- Forall _ (split stop (replace prd [ch_dot] ?x)) => generalize x
  end.
  intros x. unfold split.
  pose proof (split_from_no_sep stop ltac:(done)
                (replace prd [ch_dot] x) [] 0%nat) as H1.
  pose proof (split_from_absent_word stop prd
                (replace prd [ch_dot] x) [] 0%nat) as H2.
  specialize (H1 ltac:(done) ltac:(done)).
  assert (Hprd : contains prd (replace prd [ch_dot] x) = false).
  { apply replace_from_no_old; [done|done|]. intros c Hc Hin.
    apply list_elem_of_singleton in Hin as ->. revert Hc. compute_done. }
  specialize (H2 Hprd ltac:(done)).
  rewrite Forall_forall in H1, H2. apply Forall_forall. intros f Hf.
  simpl. split; apply strip_absent_word; auto.
Qed.

(** *** Where the characters of a sentence come from *)

Section Characters.
Variable P : char → Prop.

Lemma replace_from_Forall (old new : str) : Forall P new → ∀ s skip,
  Forall P s → Forall P (replace_from old new s skip).
Proof.
  intros Hnew. induction s as [|c s IH]; intros skip Hs; [done|].
  apply Forall_cons in Hs as [Hc Hs]. cbn [replace_from].
  destruct skip; [|by apply IH]. destruct (startswith old (c :: s)).
  - apply Forall_app. split; [done|by apply IH].
  - constructor; [done|by apply IH].
Qed.

Lemma group_Forall (i : nat) (g : captures) :
  captures_of P g → Forall P (group i g).
Proof.
  induction 1 as [|[j s] g Hs Hg IH]; [done|]. simpl.
  by destruct (i =? j)%nat.
Qed.

Lemma many_try_Forall {A} (Q : A → Prop) (k : str → captures → option A)
    s g n extra x :
  Forall P s → captures_of P g →
  (∀ s' g' x, Forall P s' → captures_of P g' → k s' g' = Some x → Q x) →
  many_try k s g n extra = Some x → Q x.
Proof.
  intros Hs Hg Hk. induction extra as [|e IH]; simpl.
  - destruct (k _ g) eqn:E; [|done]. intros [= ->].
    eapply Hk; [|done|exact E]. by apply Forall_drop.
  - destruct (k _ g) eqn:E; [|exact IH]. intros [= ->].
    eapply Hk; [|done|exact E]. by apply Forall_drop.
Qed.

(** What a match hands on, the rest of the text and the groups, holds
    characters of the text only. *)
Lemma rmatch_Forall {A} (Q : A → Prop) (r : regex) :
  ∀ s g (k : str → captures → option A) x,
  Forall P s → captures_of P g →
  (∀ s' g' x, Forall P s' → captures_of P g' → k s' g' = Some x → Q x) →
  rmatch r s g k = Some x → Q x.
Proof.
  induction r as [c|p|w|r1 IH1 r2 IH2|r1 IH1 r2 IH2|r1 IH1|n p|i r1 IH1];
    intros s g k x Hs Hg Hk; cbn [rmatch].
  - destruct s as [|c' s]; [done|]. apply Forall_cons in Hs as [_ Hs].
    destruct (char_eqb c c'); [|done]. by apply Hk.
  - destruct s as [|c' s]; [done|]. apply Forall_cons in Hs as [_ Hs].
    destruct (p c'); [|done]. by apply Hk.
  - destruct (startswith w s); [|done]. apply Hk; [|done].
    by apply Forall_drop.
  - apply IH1; [done..|]. intros s' g' x' Hs' Hg'. by apply IH2.
  - destruct (rmatch r1 s g k) eqn:E.
    + intros [= ->]. by eapply IH1.
    + by apply IH2.
  - destruct (rmatch r1 s g k) eqn:E.
    + intros [= ->]. by eapply IH1.
    + by apply Hk.
  - destruct (n <=? run_length p s)%nat; [|done].
    by apply many_try_Forall.
  - apply IH1; [done..|]. intros s' g' x' Hs' Hg'. apply Hk; [done|].
    constructor; [|done]. simpl. by apply Forall_take.
Qed.

Lemma match_at_Forall (r : regex) (s rest : str) (g : captures) :
  Forall P s → match_at r s = Some (rest, g) →
  Forall P rest ∧ captures_of P g.
Proof.
  intros Hs. unfold match_at.
  apply (rmatch_Forall (λ x, Forall P x.1 ∧ captures_of P x.2));
    [done|constructor|].
  by intros s' g' x' Hs' Hg' [= <-].
Qed.

Lemma sub_from_Forall (r : regex) (repl : str → captures → str) :
  (∀ m g, Forall P m → captures_of P g → Forall P (repl m g)) →
  ∀ s skip, Forall P s → Forall P (sub_from r repl s skip).
Proof.
  intros Hrepl. induction s as [|c s IH]; intros skip Hs; [done|].
  pose proof Hs as Hcs. apply Forall_cons in Hs as [Hc Hs].
  cbn [sub_from]. destruct skip; [|by apply IH].
  destruct (match_at r (c :: s)) as [[rest g]|] eqn:E.
  - apply match_at_Forall in E as [_ Hg]; [|done].
    destruct (length (c :: s) - length rest) eqn:El.
    + constructor; [done|by apply IH].
    + apply Forall_app. split; [|by apply IH].
      apply Hrepl; [|done]. by apply Forall_take.
  - constructor; [done|by apply IH].
Qed.

Lemma expand_Forall (t : list piece) (m : str) (g : captures) :
  Forall (λ p, match p with T s => Forall P s | G _ => True end) t →
  captures_of P g → Forall P (expand t m g).
Proof.
  intros Ht Hg. unfold expand. apply Forall_concat, Forall_fmap.
  eapply Forall_impl; [exact Ht|]. intros [s|i] Hp; simpl; [done|].
  by apply group_Forall.
Qed.

Lemma repeat_str_Forall (s : str) (n : nat) :
  Forall P s → Forall P (repeat_str s n).
Proof.
  intros Hs. induction n; simpl; [done|]. apply Forall_app. by split.
Qed.

Lemma split_from_Forall (sep : str) : ∀ s cur skip,
  Forall P s → Forall P cur → Forall (Forall P) (split_from sep s cur skip).
Proof.
  induction s as [|c s IH]; intros cur skip Hs Hcur.
  - simpl. constructor; [|done]. by apply Forall_rev.
  - apply Forall_cons in Hs as [Hc Hs]. cbn [split_from].
    destruct skip; [|by apply IH]. destruct (startswith sep (c :: s)).
    + constructor; [by apply Forall_rev|]. by apply IH.
    + apply IH; [done|]. by constructor.
Qed.

Lemma strip_Forall (s : str) : Forall P s → Forall P (strip s).
Proof.
  intros Hs. unfold strip, rstrip.
  destruct (lstrip_suffix s) as [k1 E1].
  destruct (lstrip_suffix (rev (lstrip s))) as [k2 E2].
  apply (f_equal (@rev _)) in E2. rewrite rev_involutive, rev_app_distr in E2.
  rewrite E1, E2 in Hs.
  apply Forall_app in Hs as [_ Hs]. by apply Forall_app in Hs as [Hs _].
Qed.

Local Ltac literal Hlit := apply Hlit; compute_done.

(** One step of the splitter: a replacement, a substitution or a test. *)
Local Ltac splitter_step Hlit :=
  first
    [ apply replace_from_Forall; [literal Hlit|]
    | apply sub_from_Forall;
      [ intros m g Hm Hg;
        first [ apply expand_Forall; [|done];
                repeat (apply Forall_cons_2;
                        [cbn beta iota; first [exact I|literal Hlit]|]);
                apply Forall_nil_2
              | apply Forall_app; split;
                [apply repeat_str_Forall; literal Hlit|literal Hlit] ] |]
    | match goal with
      | |- Forall _ (if ?b then _ else _) => destruct b
      end ].

(** The splitter keeps a property of characters that its own characters
    have. *)
Lemma split_into_sentences_Forall (text : str) :
  Forall P written → Forall (λ c, c ≠ ch_newline → P c) text →
  Forall (Forall P) (split_into_sentences text).
Proof.
  intros Hw Htext.
  assert (Hlit : ∀ w : str, w ⊆ written → Forall P w).
  { intros w Hsub. apply Forall_forall. intros c Hc.
    rewrite Forall_forall in Hw. by apply Hw, Hsub. }
  assert (H0 : Forall P (normalize text)).
  { rewrite normalize_map. apply Forall_app. split.
    { apply Hlit. compute_done. }
    apply Forall_app. split; [|apply Hlit; compute_done].
    apply Forall_fmap. eapply Forall_impl; [exact Htext|].
    intros c Hc. change (P (nl_to_space c)). unfold nl_to_space.
    destruct (char_eqb ch_newline c) eqn:E.
    - rewrite Forall_forall in Hw. apply Hw.
      apply list_elem_of_In. vm_compute. by left.
    - apply Hc. intros ->. by compute in E. }
  unfold split_into_sentences. fold (normalize text).
  revert H0. generalize (normalize text). intros x Hx.
  apply drop_last_empty_Forall, Forall_fmap.
  eapply Forall_impl; [|intros f; apply strip_Forall].
  apply split_from_Forall; [|done].
  unfold replace, sub. repeat (splitter_step Hlit); exact Hx.
Qed.

End Characters.

(** X2: every character of a sentence of the splitter is a character
    of the text or one of the characters the splitter writes, and none is
    a newline. *)
Theorem split_sentences_characters (text : str) :
  Forall (Forall (λ c, c ≠ ch_newline ∧ (c ∈ text ∨ c ∈ written)))
         (split_into_sentences text).
Proof.
  apply split_into_sentences_Forall.
  - apply Forall_forall. intros c Hc. split; [|by right].
    intros ->. revert Hc. compute_done.
  - apply Forall_forall. intros c Hc Hnl. split; [done|by left].
Qed.

(** X3: two texts that differ only in having a newline where the
    other has a space have the same sentences. *)
Theorem split_newline_as_space (text1 text2 : str) :
  map nl_to_space text1 = map nl_to_space text2 →
  split_into_sentences text1 = split_into_sentences text2.
Proof.
  intros E. unfold split_into_sentences.
  fold (normalize text1). fold (normalize text2).
  by rewrite !normalize_map, E.
Qed.

Lemma split_newline_as_space_witness :
  split_into_sentences (py "Go on." ++ [ch_newline] ++ py "Stop.")
  = split_into_sentences (py "Go on. Stop.").
Proof. apply split_newline_as_space. reflexivity. Defined.

End SplitterMore.

(** ** More on the chunker *)

Module ChunkerMore.
Import PyStr Splitter Chunker Notions ChunkerFacts.

Section WithNumeric.
Context {F : Type} `{!Numeric F}.

Abbreviation ret a := (@Chunker.ret F _ a).
Abbreviation raise e := (@Chunker.raise F _ e).
Abbreviation bind m f := (@Chunker.bind F _ _ m f).
Abbreviation call e r := (@Chunker.call F _ e r).
Abbreviation for_ l s body := (@Chunker.for_ F _ _ l s body).
Abbreviation getitem l j := (@Chunker.getitem F _ l j).
Abbreviation _text_to_sentences text := (@Chunker._text_to_sentences F text).
Notation "'let*' x ':=' m 'in' k" := (bind m (λ x, k))
  (at level 10, x pattern, m at level 100, k at level 200).
Abbreviation M := (Chunker.M F).
Abbreviation event := (Chunker.event F).
Abbreviation TextArtifact := (Chunker.TextArtifact F).
Abbreviation Sentence := (Chunker.Sentence F).
Abbreviation SemanticChunker := (Chunker.SemanticChunker F).
Abbreviation windowed := (@Notions.windowed F).

(** *** [_combine_sentences] for every buffer size *)

Lemma for_ext {X St} (l : list X) (body1 body2 : X → St → M St) : ∀ s,
  (∀ x s, body1 x s = body2 x s) → for_ l s body1 = for_ l s body2.
Proof.
  intros s Hb. revert s. induction l as [|x l IH]; intros s; [done|].
  cbn [Chunker.for_]. rewrite Hb. by apply bind_ext.
Qed.

Lemma seqZ_to_nat (lo n : Z) : seqZ lo n = seqZ lo (Z.of_nat (Z.to_nat n)).
Proof. unfold seqZ. by rewrite Nat2Z.id. Qed.

(** A negative buffer size leaves both inner loops without a turn, as
    the size 0 does. *)
Lemma combine_sentences_max (sentences : list Sentence) (b : Z) :
  _combine_sentences sentences b = _combine_sentences sentences (Z.max 0 b).
Proof.
  unfold _combine_sentences. apply for_ext. intros i st. unfold range.
  rewrite (seqZ_to_nat _ (i - (i - b))), (seqZ_to_nat _ (i + 1 + b - (i + 1))).
  rewrite (seqZ_to_nat _ (i - (i - _))),
    (seqZ_to_nat (i + 1) (i + 1 + _ - (i + 1))).
  replace (Z.to_nat (i - (i - 0 `max` b))) with (Z.to_nat (i - (i - b))) by lia.
  replace (Z.to_nat (i + 1 + 0 `max` b - (i + 1)))
    with (Z.to_nat (i + 1 + b - (i + 1))) by lia.
  destruct (Z.to_nat (i - (i - b))) eqn:E; [done|].
  by replace (0 `max` b)%Z with b by lia.
Qed.

Lemma window_zero (vals : list str) (i : nat) (v : str) :
  vals !! i = Some v → window vals 0 i = v.
Proof.
  intros Hv. pose proof (lookup_lt_Some _ _ _ Hv) as Hi. unfold window.
  replace (Z.to_nat (0 `max` (Z.of_nat i - 0))) with i by lia.
  replace (Z.to_nat ((Z.of_nat (length vals) - 1) `min` (Z.of_nat i + 0))
           + 1 - i) with 1 by lia.
  by rewrite (drop_S _ _ _ Hv).
Qed.

Lemma window_all (vals : list str) (b : Z) (i : nat) :
  i < length vals → (Z.of_nat (length vals) - 1 ≤ b)%Z →
  window vals b i = join [ch_space] vals.
Proof.
  intros Hi Hb. unfold window.
  replace (Z.to_nat (0 `max` (Z.of_nat i - b))) with 0 by lia.
  replace (Z.to_nat ((Z.of_nat (length vals) - 1) `min` (Z.of_nat i + b))
           + 1 - 0) with (length vals) by lia.
  by rewrite drop_0, firstn_all.
Qed.

Lemma combine_sentences_values (sentences : list Sentence) (f : nat → str) :
  sentence_values
    (imap (λ i s, set_combined_sentence (new_TextArtifact (f i)) s) sentences)
  = sentence_values sentences.
Proof.
  unfold sentence_values. apply list_eq. intros j.
  rewrite !list_lookup_fmap, list_lookup_imap.
  by destruct (sentences !! j).
Qed.

(** X4: for a buffer size of 0 or less, the combined text of every
    sentence is the sentence itself. *)
Theorem combine_sentences_no_buffer (sentences : list Sentence) (b : Z) :
  (b ≤ 0)%Z →
  _combine_sentences sentences b =
    ([], Ok (map (λ s, set_combined_sentence
                         (new_TextArtifact (value (sentence s))) s)
                 sentences)).
Proof.
  intros Hb. rewrite combine_sentences_max.
  replace (0 `max` b)%Z with 0%Z by lia.
  rewrite combine_sentences_spec by done. unfold Chunker.ret. do 2 f_equal.
  apply list_eq. intros j. rewrite list_lookup_imap, list_lookup_fmap.
  destruct (sentences !! j) as [s|] eqn:E; [|done]. simpl.
  by rewrite (window_zero _ j (value (sentence s)))
    by by apply sentence_values_lookup.
Qed.

(** X5: a second run of [_combine_sentences] replaces what the first
    one wrote: the combined texts are those of the second buffer size
    alone. *)
Theorem combine_sentences_again (sentences : list Sentence) (b b' : Z) :
  (let* out := _combine_sentences sentences b in _combine_sentences out b')
  = _combine_sentences sentences b'.
Proof.
  rewrite (combine_sentences_max _ b), (combine_sentences_max _ b').
  rewrite !combine_sentences_spec by lia. rewrite bind_ret.
  rewrite (combine_sentences_max _ b'), combine_sentences_spec by lia.
  rewrite combine_sentences_values. unfold Chunker.ret. do 2 f_equal.
  apply list_eq. intros j. rewrite !list_lookup_imap.
  by destruct (sentences !! j).
Qed.

(** X6: with a buffer size of the number of sentences less one, or
    more, the combined text of every sentence is the whole text: all the
    sentences, joined by spaces. *)
Theorem combine_sentences_whole (sentences : list Sentence) (b : Z) :
  (len sentences - 1 ≤ b)%Z →
  _combine_sentences sentences b =
    ([], Ok (map (set_combined_sentence
                    (new_TextArtifact
                       (join [ch_space] (sentence_values sentences))))
                 sentences)).
Proof.
  intros Hb. unfold len in Hb. rewrite combine_sentences_max.
  rewrite combine_sentences_spec by lia. unfold Chunker.ret. do 2 f_equal.
  apply list_eq. intros j. rewrite list_lookup_imap, list_lookup_fmap.
  destruct (sentences !! j) as [s|] eqn:E; [|done]. simpl.
  apply lookup_lt_Some in E.
  rewrite window_all; [done| |]; unfold sentence_values;
    rewrite length_map; lia.
Qed.


(** *** The stages over the vectors *)

Section Stages.
Variable self : SemanticChunker.
Abbreviation embed_list := (Notions.embed_list self).
Abbreviation embed_all := (Notions.embed_all self).
Abbreviation pipeline := (Notions.pipeline self).

Lemma combined_texts_cons (u : Sentence) (us : list Sentence) c :
  combined_sentence u = Some c →
  combined_texts (u :: us) = value c :: combined_texts us.
Proof. intros Hc. unfold combined_texts. simpl omap. by rewrite Hc. Qed.

Lemma embed_list_all (us : list Sentence) :
  Forall (λ u, is_Some (combined_sentence u)) us →
  embed_list us =
  let* es := embed_all (combined_texts us) in ret (zip_with store us es).
Proof.
  induction 1 as [|u us [c Hc] _ IH]; [done|].
  cbn [Notions.embed_list]. rewrite (combined_texts_cons u us c Hc), Hc, IH.
  generalize (combined_texts us). intros ws. cbn [Notions.embed_all].
  unfold generate_embedding, call.
  destruct (embedding_driver self (value c)) as [e|]; [|done].
  destruct (embed_all ws) as [t [es|]]; [|done].
  simpl. unfold store. by rewrite Hc.
Qed.

Lemma embed_list_app (us1 us2 : list Sentence) :
  embed_list (us1 ++ us2) =
  let* a := embed_list us1 in let* b := embed_list us2 in ret (a ++ b).
Proof.
  induction us1 as [|u us1 IH].
  - cbn [app Notions.embed_list]. rewrite bind_ret. symmetry.
    apply bind_ret_r.
  - cbn [app Notions.embed_list]. destruct (combined_sentence u); [|done].
    rewrite IH, !bind_assoc. apply bind_ext. intros c'.
    rewrite !bind_assoc. apply bind_ext. intros a.
    rewrite bind_ret, !bind_assoc. apply bind_ext. intros b.
    by rewrite !bind_ret.
Qed.

Lemma embed_all_Ok (ws : list str) (es : list (list F)) :
  Forall2 (λ w e, embedding_driver self w = Ok e) ws es →
  embed_all ws = (Embed <$> ws, Ok es).
Proof.
  induction 1 as [|w e ws es He _ IH]; [done|].
  cbn [Notions.embed_all]. unfold call. rewrite He, IH. simpl.
  by rewrite app_nil_r.
Qed.

Lemma embed_all_inv (ws : list str) : ∀ t es,
  embed_all ws = (t, Ok es) →
  Forall2 (λ w e, embedding_driver self w = Ok e) ws es ∧ t = Embed <$> ws.
Proof.
  induction ws as [|w ws IH]; intros t es; cbn [Notions.embed_all].
  - by intros [= <- <-].
  - intros (t1 & e & t2 & He & Hrest & ->)%bind_Ok.
    apply bind_Ok in Hrest as (t3 & es' & t4 & Hrest & [= <- <-] & ->).
    apply IH in Hrest as [Hes ->]. unfold call in He.
    injection He as <- He. rewrite app_nil_r. split; [|done].
    by constructor.
Qed.

Lemma embed_all_app (ws1 ws2 : list str) :
  embed_all (ws1 ++ ws2) =
  let* a := embed_all ws1 in let* b := embed_all ws2 in ret (a ++ b).
Proof.
  induction ws1 as [|w ws1 IH].
  - cbn [app Notions.embed_all]. rewrite bind_ret. symmetry.
    apply bind_ret_r.
  - cbn [app Notions.embed_all]. rewrite IH, !bind_assoc.
    apply bind_ext. intros e. rewrite !bind_assoc. apply bind_ext. intros a.
    rewrite bind_ret, !bind_assoc. apply bind_ext. intros b.
    by rewrite !bind_ret.
Qed.

(** The driver is asked about the texts in order, and no more once it
    has raised. *)
Lemma embed_all_failure (ws1 ws2 : list str) (w : str) e :
  Forall (λ w, ∃ v, embedding_driver self w = Ok v) ws1 →
  embedding_driver self w = Raise e →
  embed_all (ws1 ++ w :: ws2) = (Embed <$> ws1 ++ [w], Raise e).
Proof.
  intros Hws He. induction Hws as [|w1 ws1 [v Hv] _ IH].
  - simpl. unfold call. by rewrite He.
  - cbn [app Notions.embed_all]. rewrite IH. unfold call. by rewrite Hv.
Qed.

Lemma bind_ext_Ok {A B} (m : M A) (f g : A → M B) :
  (∀ t a, m = (t, Ok a) → f a = g a) → bind m f = bind m g.
Proof. destruct m as [t [a|e]]; [|done]. intros Hfg. simpl. by erewrite Hfg. Qed.

Lemma cosines_cons (a b : list F) (rest : list (list F)) :
  cosines (a :: b :: rest) =
  let* d := call (NpDot a b) (np_dot a b) in
  let* n1 := call (NpNorm a) (Ok (np_norm a)) in
  let* n2 := call (NpNorm b) (Ok (np_norm b)) in
  let* ds := cosines (b :: rest) in
  ret (fsub (of_Q 1) (fdiv d (fmul n1 n2)) :: ds).
Proof. reflexivity. Qed.

Lemma distances_list_cons (u u' : Sentence) (rest : list Sentence) :
  distances_list (u :: u' :: rest) =
  let* d := cosine_distance u u' in
  let* r := distances_list (u' :: rest) in
  ret (d :: r.1, set_distance_to_next d u :: r.2).
Proof. reflexivity. Qed.

Lemma emb_has_embedding (u : Sentence) (e : list F) :
  has_embedding u e → emb u = ret e.
Proof. intros (c & Hc & He). unfold emb. by rewrite Hc, He. Qed.

(** The distance stage reads the vectors and nothing else. *)
Lemma distances_list_cosines (us : list Sentence) (es : list (list F)) :
  Forall2 has_embedding us es →
  distances_list us = let* ds := cosines es in ret (ds, with_distances ds us).
Proof.
  induction 1 as [|u e us es Hu Hrest IH]; [done|].
  destruct Hrest as [|u' e' us es Hu' Hrest]; [done|].
  rewrite distances_list_cons, cosines_cons, IH.
  generalize (cosines (e' :: es)). intros m.
  unfold cosine_distance.
  rewrite (emb_has_embedding u e Hu), (emb_has_embedding u' e' Hu'), !bind_ret.
  unfold call. destruct (np_dot e e') as [d|]; [|done].
  destruct m as [t [ds|]]; [|done]. simpl. by rewrite !app_nil_r.
Qed.

Lemma cosines_length (es : list (list F)) : ∀ t ds,
  cosines es = (t, Ok ds) → length ds = length es - 1.
Proof.
  induction es as [|a es IH]; intros t ds.
  { by intros [= <- <-]. }
  destruct es as [|b rest].
  { by intros [= <- <-]. }
  rewrite cosines_cons. unfold call.
  destruct (np_dot a b) as [d|]; [|done].
  destruct (cosines (b :: rest)) as [t' [ds'|]]; [|done].
  simpl. intros [= <- <-]. pose proof (IH _ _ eq_refl). simpl in *. lia.
Qed.

Lemma cosines_total (P : list F → Prop) (es : list (list F)) :
  (∀ a b, P a → P b → ∃ d, np_dot a b = Ok d) → Forall P es →
  ∃ t ds, cosines es = (t, Ok ds).
Proof.
  intros Hdot Hes. induction Hes as [|a rest Ha Hrest (t & ds & IH)].
  { by eexists _, _. }
  destruct Hrest as [|b rest Hb Hrest]; [by eexists _, _|].
  rewrite cosines_cons, IH. destruct (Hdot a b Ha Hb) as [d Hd].
  unfold call. rewrite Hd. simpl. by eexists _, _.
Qed.

Lemma store_has_embedding (us : list Sentence) : ∀ es,
  Forall (λ u, is_Some (combined_sentence u)) us → length us = length es →
  Forall2 has_embedding (zip_with store us es) es.
Proof.
  induction us as [|u us IH]; intros [|e es] Hus Hlen; try done.
  apply Forall_cons in Hus as [[c Hc] Hus]. simpl. constructor.
  - unfold has_embedding, store. rewrite Hc. by eexists.
  - apply IH; [done|]. simpl in Hlen. lia.
Qed.

Lemma store_values (us : list Sentence) : ∀ es,
  length us = length es →
  sentence_values (zip_with store us es) = sentence_values us.
Proof.
  induction us as [|u us IH]; intros [|e es] Hlen; try done.
  simpl in *. rewrite IH by lia. f_equal. unfold store.
  by destruct (combined_sentence u).
Qed.

Lemma with_distances_values (ds : list F) : ∀ us,
  sentence_values (with_distances ds us) = sentence_values us.
Proof.
  induction ds as [|d ds IH]; intros [|u us]; try done.
  simpl. by rewrite IH.
Qed.

Lemma sentence_values_slice (us : list Sentence) (a b : nat) :
  sentence_values (slice us a b) = slice (sentence_values us) a b.
Proof. unfold sentence_values, slice. by rewrite skipn_map, firstn_map. Qed.

(** The chunks are made of the texts of the sentences alone. *)
Lemma assemble_values (thr : F) (ds : list F) (us us' : list Sentence) :
  sentence_values us = sentence_values us' →
  assemble thr ds us = assemble thr ds us'.
Proof.
  intros Hv. unfold assemble.
  assert (Hlen : length us = length us').
  { apply (f_equal length) in Hv. unfold sentence_values in Hv.
    by rewrite !length_map in Hv. }
  assert (Hchunk : ∀ a b, chunk_of (slice us a b) = chunk_of (slice us' a b)).
  { intros a b. unfold chunk_of. by rewrite !sentence_values_slice, Hv. }
  rewrite (fold_left_pointwise (cut us) (cut us')).
  2: { intros [a c] i. unfold cut. by rewrite Hchunk. }
  destruct (fold_left _ _ _) as [start chunks]. rewrite Hlen.
  destruct (start <? length us'); [|done]. f_equal. f_equal.
  unfold chunk_of. f_equal. f_equal. unfold sentence_values in *.
  by rewrite <- !skipn_map, Hv.
Qed.

Lemma windowed_combined (vals : list str) :
  Forall (λ u : Sentence, is_Some (combined_sentence u)) (windowed vals).
Proof.
  apply Forall_forall. intros u [i Hu]%list_elem_of_lookup.
  apply windowed_lookup in Hu as (v & _ & _ & _ & -> & _). by eexists.
Qed.

Lemma windowed_values (vals : list str) :
  sentence_values (windowed vals) = vals.
Proof.
  unfold sentence_values, Notions.windowed. apply list_eq. intros j.
  rewrite list_lookup_fmap, list_lookup_imap. by destruct (vals !! j).
Qed.

Lemma combined_texts_windowed (vals : list str) :
  combined_texts (windowed vals) = window vals 1 <$> seq 0 (length vals).
Proof. apply windowed_texts. Qed.

(** The three stages after the windowing, over the vectors alone. *)
Lemma stages_pipeline (vals : list str) :
  (let* us2 := embed_list (windowed vals) in
   let* r := distances_list us2 in
   let* thr := _calculate_breakpoint_threshold self r.1 in
   ret (assemble thr r.1 r.2)) = pipeline vals.
Proof.
  rewrite embed_list_all by apply windowed_combined.
  rewrite combined_texts_windowed, bind_assoc. unfold Notions.pipeline.
  apply bind_ext_Ok. intros t es [Hes _]%embed_all_inv.
  apply Forall2_length in Hes.
  rewrite length_fmap, length_seq in Hes.
  rewrite bind_ret, (distances_list_cosines _ es).
  2: { apply store_has_embedding; [apply windowed_combined|].
       by rewrite windowed_length. }
  rewrite bind_assoc. apply bind_ext. intros ds. rewrite bind_ret.
  cbn [fst snd]. apply bind_ext. intros thr. f_equal.
  apply assemble_values.
  rewrite with_distances_values, store_values; [done|].
  by rewrite windowed_length.
Qed.

(** *** [_embed_sentences] *)

Lemma embed_list_prefix (us1 rest : list Sentence) t' e :
  Forall (λ u, ∃ c v, combined_sentence u = Some c ∧
                      embedding_driver self (value c) = Ok v) us1 →
  embed_list rest = (t', Raise e) →
  embed_list (us1 ++ rest) = ((Embed <$> combined_texts us1) ++ t', Raise e).
Proof.
  intros Hus Hrest. induction Hus as [|u us1 (c & v & Hc & Hv) _ IH]; [done|].
  cbn [app Notions.embed_list].
  rewrite (combined_texts_cons u us1 c Hc), Hc, IH.
  unfold generate_embedding, call. by rewrite Hv.
Qed.

Lemma combined_texts_drivers (us : list Sentence) (es : list (list F)) :
  Forall2 (λ u e, ∃ c, combined_sentence u = Some c ∧
                       embedding_driver self (value c) = Ok e) us es →
  Forall (λ u, is_Some (combined_sentence u)) us ∧
  Forall2 (λ w e, embedding_driver self w = Ok e) (combined_texts us) es.
Proof.
  induction 1 as [|u e us es (c & Hc & He) _ [IH1 IH2]]; [done|]. split.
  - constructor; [by eexists|done].
  - rewrite (combined_texts_cons u us c Hc). by constructor.
Qed.

(** X7: when the driver returns a vector for the combined text of
    every sentence, [_embed_sentences] asks it once for each combined
    text, in the order of the sentences, and stores each vector on its
    sentence; nothing else changes. *)
Theorem embed_sentences_success (us : list Sentence) (es : list (list F)) :
  Forall2 (λ u e, ∃ c, combined_sentence u = Some c ∧
                       embedding_driver self (value c) = Ok e) us es →
  _embed_sentences self us =
    (Embed <$> combined_texts us, Ok (zip_with store us es)).
Proof.
  intros [Hus Hes]%combined_texts_drivers.
  rewrite embed_sentences_list, embed_list_all by done.
  rewrite (embed_all_Ok _ _ Hes). simpl. by rewrite app_nil_r.
Qed.

(** X8: [_embed_sentences] stops at the first sentence it cannot
    embed. The driver has been asked about the sentences before it and,
    if that sentence has a combined text, about it; the exception is the
    driver's, or [AttributeError] for a sentence with no combined text. *)
Theorem embed_sentences_stops (us1 us2 : list Sentence) (u : Sentence) :
  Forall (λ u, ∃ c v, combined_sentence u = Some c ∧
                      embedding_driver self (value c) = Ok v) us1 →
  (∀ c e, combined_sentence u = Some c →
     embedding_driver self (value c) = Raise e →
     _embed_sentences self (us1 ++ u :: us2) =
       (Embed <$> combined_texts us1 ++ [value c], Raise e)) ∧
  (combined_sentence u = None →
     _embed_sentences self (us1 ++ u :: us2) =
       (Embed <$> combined_texts us1, Raise AttributeError)).
Proof.
  intros Hus. split.
  - intros c e Hc He. rewrite embed_sentences_list.
    rewrite (embed_list_prefix us1 _ [Embed (value c)] e Hus).
    + by rewrite fmap_app.
    + cbn [Notions.embed_list]. rewrite Hc.
      unfold generate_embedding, call. by rewrite He.
  - intros Hc. rewrite embed_sentences_list.
    rewrite (embed_list_prefix us1 _ [] AttributeError Hus).
    + by rewrite app_nil_r.
    + cbn [Notions.embed_list]. by rewrite Hc.
Qed.

(** *** [_calculate_cosine_distances] *)

(** X9: on sentences that carry their vectors,
    [_calculate_cosine_distances] computes the distances from the vectors
    alone, one pair of neighbours after the other, stops at the first
    pair [np.dot] refuses, and stores each distance on the first sentence
    of its pair. *)
Theorem cosine_distances_of_vectors (us : list Sentence)
    (es : list (list F)) :
  Forall2 has_embedding us es →
  _calculate_cosine_distances us =
    let* ds := cosines es in ret (ds, with_distances ds us).
Proof.
  intros Hes. rewrite cosine_distances_list. by apply distances_list_cosines.
Qed.

Lemma cosines_lookup (es : list (list F)) : ∀ t ds,
  cosines es = (t, Ok ds) →
  ∀ i a b, es !! i = Some a → es !! S i = Some b →
    ∃ d, np_dot a b = Ok d ∧
         ds !! i = Some (fsub (of_Q 1)
                           (fdiv d (fmul (np_norm a) (np_norm b)))).
Proof.
  induction es as [|a0 es IH]; intros t ds; [done|].
  destruct es as [|b0 rest].
  { intros _ [|i] a b; [done|done]. }
  rewrite cosines_cons. unfold call.
  destruct (np_dot a0 b0) as [d|] eqn:Hd; [|done].
  destruct (cosines (b0 :: rest)) as [t' [ds'|]]; [|done].
  simpl. intros [= <- <-]. intros [|i] a b.
  - intros [= <-] [= <-]. by exists d.
  - intros Ha Hb. by apply (IH _ _ eq_refl i a b).
Qed.

(** X10: the distances [_calculate_cosine_distances] returns: one for
    every sentence but the last, each 1 less the dot product of the
    vectors of the sentence and of the next one, divided by the product
    of their norms. *)
Theorem cosine_distances_formula (us : list Sentence) (es : list (list F))
    t ds us' :
  Forall2 has_embedding us es →
  _calculate_cosine_distances us = (t, Ok (ds, us')) →
  length ds = length us - 1 ∧ us' = with_distances ds us ∧
  ∀ i a b, es !! i = Some a → es !! S i = Some b →
    ∃ d, np_dot a b = Ok d ∧
         ds !! i = Some (fsub (of_Q 1)
                           (fdiv d (fmul (np_norm a) (np_norm b)))).
Proof.
  intros Hes. rewrite cosine_distances_list, (distances_list_cosines us es Hes).
  intros (t1 & ds' & t2 & Hcos & [= <- <- <-] & ->)%bind_Ok.
  split; [|split; [done|]].
  - rewrite (Forall2_length _ _ _ Hes). by eapply cosines_length.
  - by eapply cosines_lookup.
Qed.

(** X11: fewer than two sentences have no distance:
    [_calculate_cosine_distances] returns them as they are, whether they
    carry a vector or not, and calls nothing. *)
Theorem cosine_distances_short (us : list Sentence) :
  length us ≤ 1 → _calculate_cosine_distances us = ([], Ok ([], us)).
Proof.
  intros Hlen. rewrite cosine_distances_list.
  destruct us as [|u [|u' us]]; [done|done|simpl in Hlen; lia].
Qed.

(** *** [_combine_sentences_to_chunks] *)

Lemma cut_fold (us : list Sentence) : ∀ idx start chunks,
  ∃ chunks',
    fold_left (cut us) idx (start, chunks)
      = (match last idx with Some i => S i | None => start end, chunks') ∧
    length chunks' = length chunks + length idx.
Proof.
  induction idx as [|i idx IH]; intros start chunks.
  - exists chunks. simpl. split; [done|lia].
  - cbn [fold_left cut].
    destruct (IH (i + 1) (chunks ++ [chunk_of (slice us start (i + 1))]))
      as (chunks' & -> & Hlen).
    exists chunks'. rewrite last_cons. split.
    + f_equal. destruct (last idx); [done|lia].
    + rewrite Hlen, length_app. simpl. lia.
Qed.

(** X12: the number of chunks is the number of distances above the
    threshold, and one more when there is a sentence after the last of
    them. *)
Theorem chunks_count (ds : list F) (us : list Sentence) t chunks :
  _combine_sentences_to_chunks self ds us = (t, Ok chunks) →
  ∃ thr, _calculate_breakpoint_threshold self ds = (t, Ok thr) ∧
    length chunks =
      length (above thr ds) +
      (if (after_last (above thr ds) <? length us)%nat then 1 else 0).
Proof.
  rewrite combine_sentences_to_chunks_assemble.
  intros (t1 & thr & t2 & Hthr & [= <- <-] & ->)%bind_Ok.
  exists thr. rewrite app_nil_r. split; [done|].
  unfold assemble, after_last.
  destruct (cut_fold us (above thr ds) 0 []) as (chunks' & -> & Hlen).
  destruct (_ <? _)%nat; [rewrite length_app|]; simpl in *; lia.
Qed.

Lemma above_imap_none (thr : F) (ds : list F) :
  Forall (λ d, fgt d thr = false) ds →
  ∀ g : nat → nat,
  map fst (List.filter (λ '(i, x), fgt x thr) (imap (λ i, pair (g i)) ds))
  = [].
Proof.
  induction 1 as [|d l Hd _ IH]; intros g; [done|].
  rewrite imap_cons. cbn [List.filter]. rewrite Hd. apply (IH (g ∘ S)).
Qed.

Lemma above_none (thr : F) (ds : list F) :
  Forall (λ d, fgt d thr = false) ds → above thr ds = [].
Proof. intros Hds. apply (above_imap_none thr ds Hds id). Qed.

Lemma above_imap_all (thr : F) (ds : list F) :
  Forall (λ d, fgt d thr = true) ds →
  ∀ g : nat → nat,
  map fst (List.filter (λ '(i, x), fgt x thr) (imap (λ i, pair (g i)) ds))
  = g <$> seq 0 (length ds).
Proof.
  induction 1 as [|d l Hd _ IH]; intros g; [done|].
  rewrite imap_cons. cbn [List.filter]. rewrite Hd.
  cbn [map fst length seq fmap list_fmap]. f_equal.
  rewrite <- fmap_S_seq, <- list_fmap_compose. apply (IH (g ∘ S)).
Qed.

Lemma above_all (thr : F) (ds : list F) :
  Forall (λ d, fgt d thr = true) ds → above thr ds = seq 0 (length ds).
Proof.
  intros Hds. etrans; [apply (above_imap_all thr ds Hds id)|].
  apply list_fmap_id.
Qed.

Lemma cut_each (us : list Sentence) : ∀ n a chunks,
  a + n ≤ length us →
  fold_left (cut us) (seq a n) (a, chunks) =
    (a + n, chunks ++ map (λ u, chunk_of [u]) (slice us a (a + n))).
Proof.
  induction n as [|n IH]; intros a chunks Hlen.
  - rewrite Nat.add_0_r, slice_nil by done. simpl. by rewrite app_nil_r.
  - cbn [seq fold_left cut].
    destruct (lookup_lt_is_Some_2 us a) as [u Hu]; [lia|].
    replace (a + 1) with (S a) by lia. rewrite IH by lia.
    rewrite (slice_cons us a (S a) u), slice_nil by (done || lia).
    rewrite (slice_cons us a (a + S n) u) by (done || lia).
    replace (S a + n) with (a + S n) by lia.
    by rewrite <- app_assoc.
Qed.

(** X13: when no distance exceeds the threshold, all the sentences
    make one chunk; without a sentence there is no chunk. *)
Theorem chunks_without_breakpoint (ds : list F) (us : list Sentence) t thr :
  _calculate_breakpoint_threshold self ds = (t, Ok thr) →
  Forall (λ d, fgt d thr = false) ds →
  _combine_sentences_to_chunks self ds us =
    (t, Ok (match us with [] => [] | _ => [chunk_of us] end)).
Proof.
  intros Hthr Hds. rewrite combine_sentences_to_chunks_assemble, Hthr.
  simpl. rewrite app_nil_r. do 2 f_equal.
  unfold assemble. rewrite above_none by done. by destruct us.
Qed.

(** X14: when every distance exceeds the threshold, and there is one
    distance for every sentence but the last, every sentence is a chunk
    of its own. *)
Theorem chunks_all_breakpoints (ds : list F) (us : list Sentence) t thr :
  _calculate_breakpoint_threshold self ds = (t, Ok thr) →
  Forall (λ d, fgt d thr = true) ds → length ds = length us - 1 →
  _combine_sentences_to_chunks self ds us =
    (t, Ok (map (λ u, new_TextArtifact (value (sentence u))) us)).
Proof.
  intros Hthr Hds Hlen. rewrite combine_sentences_to_chunks_assemble, Hthr.
  simpl. rewrite app_nil_r. do 2 f_equal.
  unfold assemble. rewrite above_all by done.
  rewrite (cut_each us (length ds) 0 []) by lia. cbn [Nat.add app].
  unfold slice. rewrite Nat.sub_0_r, drop_0.
  transitivity (map (λ u : Sentence, @new_TextArtifact F (value (sentence u)))
                  (take (length ds) us ++ drop (length ds) us));
    [|by rewrite take_drop].
  rewrite map_app.
  destruct (Nat.ltb_spec (length ds) (length us)) as [Hlt|Hge].
  - f_equal. destruct (drop (length ds) us) as [|x [|y rest]] eqn:E.
    + apply (f_equal length) in E. rewrite length_drop in E. simpl in E. lia.
    + done.
    + apply (f_equal length) in E. rewrite length_drop in E. simpl in E. lia.
  - rewrite (drop_ge us) by done. by rewrite app_nil_r.
Qed.

(** *** [try_chunk] *)

(** X15: [try_chunk] is the pipeline over the sentences of the text:
    the driver is asked about the windows of size one, the vectors give
    the distances, the distances the threshold and the chunks. Outcome
    and calls are the same, whether the run returns or raises. *)
Theorem try_chunk_pipeline (text : TextArtifact + str) :
  try_chunk self text = pipeline (split_into_sentences (text_of text)).
Proof. rewrite try_chunk_stages. apply stages_pipeline. Qed.

(** X16: when the driver raises on the window of the sentence [k],
    after a vector for each window before it, [try_chunk] raises the
    driver's exception. The driver has been asked about the windows up to
    that one and no more, NumPy has not been called, and no chunk is
    made. *)
Theorem try_chunk_driver_failure (text : TextArtifact + str) (k : nat) e :
  let vals := split_into_sentences (text_of text) in
  k < length vals →
  (∀ i, i < k → ∃ v, embedding_driver self (window vals 1 i) = Ok v) →
  embedding_driver self (window vals 1 k) = Raise e →
  try_chunk self text = (Embed <$> (window vals 1 <$> seq 0 (S k)), Raise e).
Proof.
  intros vals Hk Hok He. rewrite try_chunk_stages, stages_pipeline.
  fold vals. unfold Notions.pipeline.
  assert (seq 0 (length vals) = seq 0 k ++ k :: seq (S k) (length vals - S k))
    as ->.
  { transitivity (seq 0 (k + S (length vals - S k))); [f_equal; lia|].
    by rewrite seq_app. }
  rewrite fmap_app, fmap_cons, seq_S, fmap_app.
  erewrite embed_all_failure; [done| |done].
  apply Forall_fmap, Forall_forall. intros i [_ Hi]%elem_of_seq.
  apply Hok. lia.
Qed.

(** X17: with the method [standard_deviation], [try_chunk] returns
    whenever the driver returns a vector for every window and [np.dot]
    accepts the vectors; the calls are those to the driver, those for the
    distances, then [np.mean] and [np.std] on the distances. *)
Theorem try_chunk_standard_deviation (text : TextArtifact + str)
    (es : list (list F)) :
  let vals := split_into_sentences (text_of text) in
  let ws := window vals 1 <$> seq 0 (length vals) in
  breakpoint_threshold_type self = py "standard_deviation" →
  Forall2 (λ w e, embedding_driver self w = Ok e) ws es →
  (∀ a b, a ∈ es → b ∈ es → ∃ d, np_dot a b = Ok d) →
  ∃ t2 ds,
    cosines es = (t2, Ok ds) ∧
    try_chunk self text =
      ((Embed <$> ws) ++ t2 ++ [NpMean ds; NpStd ds],
       Ok (assemble
             (fadd (np_mean ds)
                   (fmul (breakpoint_threshold_amount self) (np_std ds)))
             ds (windowed vals))).
Proof.
  intros vals ws Htype Hes Hdot.
  destruct (cosines_total (λ a, a ∈ es) es Hdot) as (t2 & ds & Hcos).
  { by apply Forall_forall. }
  exists t2, ds. split; [done|].
  rewrite try_chunk_stages, stages_pipeline. fold vals.
  unfold Notions.pipeline. fold ws. clearbody ws. clearbody vals.
  rewrite (embed_all_Ok _ _ Hes). cbn [Chunker.bind]. rewrite Hcos.
  unfold _calculate_breakpoint_threshold. rewrite Htype.
  assert (str_eqb (py "standard_deviation") (py "percentile") = false) as ->
    by by vm_compute.
  assert (str_eqb (py "standard_deviation") (py "standard_deviation") = true)
    as -> by by vm_compute.
  cbn [Chunker.bind Chunker.call Chunker.ret]. by rewrite !app_nil_r.
Qed.

Lemma join_app (sep : str) (l1 l2 : list str) :
  l1 ≠ [] → l2 ≠ [] →
  join sep (l1 ++ l2) = join sep l1 ++ sep ++ join sep l2.
Proof.
  intros H1 H2. induction l1 as [|x [|y l1] IH]; [done| |].
  - by destruct l2.
  - change (join sep ((x :: y :: l1) ++ l2))
      with (x ++ sep ++ join sep ((y :: l1) ++ l2)).
    rewrite IH by done. cbn [join]. by rewrite <- !app_assoc.
Qed.

Lemma join_concat (sep : str) (gs : list (list str)) :
  Forall (λ g, g ≠ []) gs →
  join sep (map (join sep) gs) = join sep (concat gs).
Proof.
  induction 1 as [|g gs Hg Hgs IH]; [done|].
  destruct Hgs as [|g' gs Hg' Hgs].
  - simpl. by rewrite app_nil_r.
  - change (join sep (map (join sep) (g :: g' :: gs)))
      with (join sep g ++ sep ++ join sep (map (join sep) (g' :: gs))).
    rewrite IH. change (concat (g :: g' :: gs)) with (g ++ concat (g' :: gs)).
    rewrite (join_app sep g (concat (g' :: gs))); [done|done|].
    cbn [concat]. by destruct g'.
Qed.

(** A run that returns chunks cuts the sentences into groups. *)
Lemma try_chunk_groups (text : TextArtifact + str) t chunks :
  try_chunk self text = (t, Ok chunks) →
  ∃ groups : list (list Sentence),
    chunks = map chunk_of groups ∧
    sentence_values (concat groups) = split_into_sentences (text_of text) ∧
    Forall (λ g, g ≠ []) groups.
Proof.
  rewrite try_chunk_stages, stages_pipeline. unfold Notions.pipeline.
  intros (t1 & es & t2 & [Hes _]%embed_all_inv & Hrest & _)%bind_Ok.
  apply bind_Ok in Hrest as (t3 & ds & t4 & Hds%cosines_length & Hrest & _).
  apply bind_Ok in Hrest as (t5 & thr & t6 & _ & [= _ <-] & _).
  apply Forall2_length in Hes. rewrite length_fmap, length_seq in Hes.
  destruct (assemble_spec thr ds
              (windowed (split_into_sentences (text_of text))))
    as (groups & Hchunks & Hcat & Hne & _).
  { rewrite windowed_length. lia. }
  exists groups. split; [done|]. split; [|done].
  by rewrite Hcat, windowed_values.
Qed.

(** X18: the chunks of a run that returns, joined by spaces, are the
    sentences of the text joined by spaces: no sentence is lost, repeated
    or moved. *)
Theorem try_chunk_join (text : TextArtifact + str) t chunks :
  try_chunk self text = (t, Ok chunks) →
  join [ch_space] (map value chunks)
  = join [ch_space] (split_into_sentences (text_of text)).
Proof.
  intros (groups & -> & <- & Hne)%try_chunk_groups.
  rewrite map_map. unfold chunk_of. cbn [value new_TextArtifact].
  rewrite <- (map_map sentence_values (join [ch_space])).
  rewrite join_concat.
  - f_equal. unfold sentence_values. by rewrite concat_map.
  - apply Forall_forall. intros g [g' [<- Hg']]%list_elem_of_In%in_map_iff.
    rewrite Forall_forall in Hne. specialize (Hne g').
    destruct g'; [|done]. exfalso. apply Hne; [|done].
    by apply list_elem_of_In.
Qed.

(** X19: a run that returns makes no more chunks than the text has
    sentences, and no chunk only when the text has no sentence. *)
Theorem try_chunk_count (text : TextArtifact + str) t chunks :
  try_chunk self text = (t, Ok chunks) →
  length chunks ≤ length (split_into_sentences (text_of text)) ∧
  (chunks = [] ↔ split_into_sentences (text_of text) = []).
Proof.
  intros (groups & -> & <- & Hne)%try_chunk_groups.
  unfold sentence_values. rewrite !length_map. split.
  - induction Hne as [|g groups Hg _ IH]; [done|].
    cbn [concat length]. rewrite length_app.
    destruct g; [done|]. simpl. lia.
  - destruct Hne as [|g groups Hg _]; [done|].
    destruct g; [done|]. simpl. split; done.
Qed.

End Stages.

(** X20: [try_chunk] reads three fields of the chunker: the driver, the
    type and the amount. Two chunkers that agree on them have the same
    outcome and make the same calls on every text; [max_tokens] plays no
    part, so a chunk is as long as its sentences make it. *)
Theorem try_chunk_fields (self self' : SemanticChunker)
    (text : TextArtifact + str) :
  embedding_driver self = embedding_driver self' →
  breakpoint_threshold_type self = breakpoint_threshold_type self' →
  breakpoint_threshold_amount self = breakpoint_threshold_amount self' →
  try_chunk self text = try_chunk self' text.
Proof.
  intros Hdriver Htype Hamount.
  rewrite !try_chunk_stages, !stages_pipeline. unfold Notions.pipeline.
  generalize (window (split_into_sentences (text_of text)) 1
              <$> seq 0 (length (split_into_sentences (text_of text)))).
  intros ws. assert (Notions.embed_all self ws = Notions.embed_all self' ws)
    as ->.
  { induction ws as [|w ws IH]; [done|].
    cbn [Notions.embed_all]. by rewrite Hdriver, IH. }
  apply bind_ext. intros es. apply bind_ext. intros ds.
  unfold _calculate_breakpoint_threshold. by rewrite Htype, Hamount.
Qed.

(** *** The constructor *)

(** X21: the constructor checks the type only through the table of
    default amounts. With an amount it accepts every type; without one it
    raises [KeyError] for a type outside the three methods. The type is
    [percentile] when none is given. *)
Theorem constructor_outcome (driver : str → result (list F)) (mt : Z)
    (type : option str) (amount : option F) :
  let ty := default (py "percentile") type in
  (is_Some amount ∨ ty ∈ methods →
   ∃ c, new_SemanticChunker driver mt type amount = Ok c ∧
        embedding_driver c = driver ∧ max_tokens c = mt ∧
        breakpoint_threshold_type c = ty ∧
        ∀ a, amount = Some a → breakpoint_threshold_amount c = a) ∧
  (amount = None → ty ∉ methods →
   new_SemanticChunker driver mt type amount = Raise (KeyError ty)).
Proof.
  intros ty. unfold new_SemanticChunker. fold ty. split.
  - intros Hok. destruct amount as [a|].
    { eexists. split; [done|]. repeat split. by intros a' [= <-]. }
    destruct Hok as [[a Ha]|Hty]; [done|].
    unfold methods in Hty. rewrite !elem_of_cons in Hty.
    destruct Hty as [->|[->|[->|Hnil]]];
      [| | |by apply elem_of_nil in Hnil];
      (eexists; split; [reflexivity|by repeat split]).
  - intros -> Hty. unfold methods in Hty. rewrite !not_elem_of_cons in Hty.
    destruct Hty as (H1 & H2 & H3 & _). simpl. unfold str_eqb.
    by rewrite !bool_decide_eq_false_2.
Qed.

End WithNumeric.
End ChunkerMore.

(** ** More examples, over the rational model *)

Module MoreExamples.
Import PyStr Splitter Chunker Notions ChunkerFacts ChunkerMore QModel.

Lemma combine_sentences_no_buffer_witness :
  (-1 ≤ 0)%Z ∧
  _combine_sentences example_units (-1) =
    ([], Ok (map (λ s, set_combined_sentence
                         (new_TextArtifact (value (sentence s))) s)
                 example_units)).
Proof. split; [lia|]. apply (combine_sentences_no_buffer example_units). lia. Defined.

Lemma combine_sentences_whole_witness :
  (len example_units - 1 ≤ 5)%Z ∧
  _combine_sentences example_units 5 =
    ([], Ok (map (set_combined_sentence
                    (new_TextArtifact
                       (join [ch_space] (sentence_values example_units))))
                 example_units)).
Proof.
  split; [vm_compute; discriminate|].
  apply (combine_sentences_whole example_units). vm_compute. discriminate.
Defined.

Lemma embed_sentences_success_witness :
  let self := example_chunker (py "percentile") 95 in
  let us := [with_window (py "a") (py "a b") 0;
             with_window (py "b") (py "a b c") 1] in
  let es := [[3; 1]; [5; 1]]%Q in
  _embed_sentences self us =
    (Embed <$> combined_texts us, Ok (zip_with store us es)).
Proof.
  intros self us es. apply (embed_sentences_success self us es).
  repeat (constructor; [eexists; split; reflexivity|]). constructor.
Defined.

Lemma embed_sentences_stops_witness :
  let us1 := [with_window (py "a") (py "a b") 0] in
  let u := with_window (py "b") (py "a b and a text that is long") 1 in
  let us2 := [unit_of (py "c") 2] in
  _embed_sentences short_chunker (us1 ++ u :: us2) =
    (Embed <$> combined_texts us1 ++ [py "a b and a text that is long"],
     Raise DriverError) ∧
  _embed_sentences short_chunker (us1 ++ unit_of (py "b") 1 :: us2) =
    (Embed <$> combined_texts us1, Raise AttributeError).
Proof.
  intros us1 u us2.
  assert (Hus : Forall (λ u, ∃ c v, combined_sentence u = Some c ∧
                    embedding_driver short_chunker (value c) = Ok v) us1).
  { constructor; [|constructor]. eexists _, _. split; reflexivity. }
  split.
  - apply (proj1 (embed_sentences_stops short_chunker us1 us2 u Hus)
             (new_TextArtifact (py "a b and a text that is long"))
             DriverError); reflexivity.
  - apply (proj2 (embed_sentences_stops short_chunker us1 us2
                    (unit_of (py "b") 1) Hus)). reflexivity.
Defined.

Lemma cosine_distances_of_vectors_witness :
  _calculate_cosine_distances example_embedded =
    bind (cosines example_vectors)
         (λ ds, ret (ds, with_distances ds example_embedded)).
Proof.
  apply (cosine_distances_of_vectors example_embedded example_vectors).
  repeat (constructor; [eexists; split; reflexivity|]). constructor.
Defined.

Lemma cosine_distances_formula_witness :
  let ds := [1; 0]%Q in
  (_calculate_cosine_distances example_embedded).2
    = Ok (ds, with_distances ds example_embedded) ∧
  length ds = length example_embedded - 1 ∧
  with_distances ds example_embedded = with_distances ds example_embedded ∧
  ∀ i a b, example_vectors !! i = Some a → example_vectors !! S i = Some b →
    ∃ d, np_dot a b = Ok d ∧
         ds !! i = Some (fsub (of_Q 1)
                           (fdiv d (fmul (np_norm a) (np_norm b)))).
Proof.
  intros ds. split; [vm_compute; reflexivity|].
  apply (cosine_distances_formula example_embedded example_vectors
           (_calculate_cosine_distances example_embedded).1 ds
           (with_distances ds example_embedded)).
  - repeat (constructor; [eexists; split; reflexivity|]). constructor.
  - vm_compute. reflexivity.
Defined.

Lemma cosine_distances_short_witness :
  _calculate_cosine_distances [unit_of (py "a") 0]
  = ([], Ok ([], [unit_of (py "a") 0])).
Proof. apply (cosine_distances_short [unit_of (py "a") 0]). simpl. lia. Defined.

Lemma chunks_count_witness :
  let self := example_chunker (py "standard_deviation") 0 in
  let ds := [1; 0]%Q in
  let chunks := [chunk (py "a"); chunk (py "b c")] in
  _combine_sentences_to_chunks self ds example_units
    = ([NpMean ds; NpStd ds], Ok chunks) ∧
  ∃ thr, _calculate_breakpoint_threshold self ds
           = ([NpMean ds; NpStd ds], Ok thr) ∧
    length chunks =
      length (above thr ds) +
      (if (after_last (above thr ds) <? length example_units)%nat
       then 1 else 0).
Proof.
  intros self ds chunks. split; [vm_compute; reflexivity|].
  apply (chunks_count self ds example_units [NpMean ds; NpStd ds] chunks).
  vm_compute. reflexivity.
Defined.

Lemma chunks_without_breakpoint_witness :
  let self := example_chunker (py "standard_deviation") 5 in
  let ds := [1; 0]%Q in
  _combine_sentences_to_chunks self ds example_units =
    ([NpMean ds; NpStd ds], Ok [chunk_of example_units]).
Proof.
  intros self ds.
  apply (chunks_without_breakpoint self ds example_units
           [NpMean ds; NpStd ds] 3%Q).
  - vm_compute. reflexivity.
  - repeat constructor.
Defined.

Lemma chunks_all_breakpoints_witness :
  let self := example_chunker (py "standard_deviation") (-5) in
  let ds := [1; 0]%Q in
  _combine_sentences_to_chunks self ds example_units =
    ([NpMean ds; NpStd ds],
     Ok (map (λ u, new_TextArtifact (value (sentence u))) example_units)).
Proof.
  intros self ds.
  apply (chunks_all_breakpoints self ds example_units
           [NpMean ds; NpStd ds] (-2)%Q).
  - vm_compute. reflexivity.
  - repeat constructor.
  - reflexivity.
Defined.

Lemma try_chunk_driver_failure_witness :
  let vals := split_into_sentences (text_of example_text) in
  try_chunk short_chunker example_text =
    (Embed <$> (window vals 1 <$> seq 0 2), Raise DriverError).
Proof.
  intros vals.
  apply (try_chunk_driver_failure short_chunker example_text 1 DriverError).
  - vm_compute. lia.
  - intros i Hi. assert (i = 0) as -> by lia. exists [3; 1]%Q.
    vm_compute. reflexivity.
  - vm_compute. reflexivity.
Defined.

Lemma try_chunk_standard_deviation_witness :
  let self := example_chunker (py "standard_deviation") 3 in
  let es := [[3; 1]; [2; 1]; [0; 1]; [4; 1]; [5; 1]]%Q in
  let vals := split_into_sentences (text_of example_text) in
  let ws := window vals 1 <$> seq 0 (length vals) in
  ∃ t2 ds,
    cosines es = (t2, Ok ds) ∧
    try_chunk self example_text =
      ((Embed <$> ws) ++ t2 ++ [NpMean ds; NpStd ds],
       Ok (assemble
             (fadd (np_mean ds)
                   (fmul (breakpoint_threshold_amount self) (np_std ds)))
             ds (windowed vals))).
Proof.
  intros self es vals ws.
  apply (try_chunk_standard_deviation self example_text es).
  - reflexivity.
  - vm_compute. repeat constructor.
  - intros a b Ha Hb. unfold es in Ha, Hb.
    repeat match goal with
           | H : _ ∈ _ :: _ |- _ => apply elem_of_cons in H as [->|H]
           | H : _ ∈ [] |- _ => by apply elem_of_nil in H
           end; eexists; reflexivity.
Defined.

Lemma try_chunk_join_witness :
  let self := example_chunker (py "percentile") 50 in
  (try_chunk self example_text).2 = Ok example_chunks ∧
  join [ch_space] (map value example_chunks)
  = join [ch_space] (split_into_sentences (text_of example_text)).
Proof.
  intros self. split; [vm_compute; reflexivity|].
  apply (try_chunk_join self example_text
           (try_chunk self example_text).1 example_chunks).
  vm_compute. reflexivity.
Defined.

Lemma try_chunk_count_witness :
  let self := example_chunker (py "percentile") 50 in
  (try_chunk self example_text).2 = Ok example_chunks ∧
  length example_chunks ≤ length (split_into_sentences (text_of example_text)) ∧
  (example_chunks = [] ↔ split_into_sentences (text_of example_text) = []).
Proof.
  intros self. split; [vm_compute; reflexivity|].
  apply (try_chunk_count self example_text
           (try_chunk self example_text).1 example_chunks).
  vm_compute. reflexivity.
Defined.

Lemma try_chunk_fields_witness :
  let self := example_chunker (py "percentile") 50 in
  try_chunk self example_text = try_chunk (with_max_tokens 3 self) example_text.
Proof.
  intros self.
  apply (try_chunk_fields self (with_max_tokens 3 self) example_text);
    reflexivity.
Defined.

Lemma constructor_outcome_witness :
  (∃ c, new_SemanticChunker stub_driver 100 (Some (py "bogus")) (Some 2%Q)
          = Ok c ∧
        embedding_driver c = stub_driver ∧ max_tokens c = 100%Z ∧
        breakpoint_threshold_type c = py "bogus" ∧
        ∀ a, Some 2%Q = Some a → breakpoint_threshold_amount c = a) ∧
  new_SemanticChunker stub_driver 100 (Some (py "bogus")) None
    = Raise (KeyError (py "bogus")).
Proof.
  split.
  - apply (proj1 (constructor_outcome stub_driver 100 (Some (py "bogus"))
                    (Some 2%Q))).
    left. by eexists.
  - apply (proj2 (constructor_outcome stub_driver 100 (Some (py "bogus"))
                    None)); [done|].
    unfold methods. rewrite !not_elem_of_cons.
    repeat split; try (by vm_compute). apply not_elem_of_nil.
Defined.

End MoreExamples.
